(** * Agreement scores for WMT ranking data

    A shallow embedding of [scripts/compute_agreement_scores.py]: the label
    normaliser [extract_system_ids_from_label], the per-unit aggregator
    [compute_agreement_scores], the row loop that turns rankings into
    pairwise judgements, and the per-language-pair reduction to pA, pE and
    kappa.

    Conventions of the embedding.
    - Python [str] values are [string]; list [sort()] on strings is the
      ascending lexicographic order on character codes, [String.le].
    - Python [int] values are [Z].
    - Python [float] values are exact rationals [Q]: rounding is not
      modelled, a float division by zero raises [ZeroDivisionError].
    - A [dict] is a [gmap]; the order in which its entries are visited is
      the one of [map_to_list].  The program only sums over those visits.
    - Exceptions are explicit: a computation returns an [outcome]. *)

From Stdlib Require Import QArith Qpower Ascii Lqa.
From stdpp Require Import gmap strings list sorting pretty.

Local Open Scope Z_scope.

(** ** Python string primitives *)

(** [c in s] for a one-character string [c]. *)
Fixpoint in_str (c : ascii) (s : string) : bool :=
  match s with
  | EmptyString => false
  | String d s' => if decide (d = c) then true else in_str c s'
  end.

(** [s.split(sep)] for a one-character separator: every occurrence cuts,
    so the result has one more element than there are occurrences. *)
Fixpoint split (sep : ascii) (s : string) : list string :=
  match s with
  | EmptyString => [EmptyString]
  | String c s' =>
      if decide (c = sep) then EmptyString :: split sep s'
      else match split sep s' with
           | [] => [String c EmptyString]
           | w :: ws => String c w :: ws
           end
  end.

(** [sep.join(l)]. *)
Definition join (sep : string) (l : list string) : string :=
  String.concat sep l.

(** [l.sort()] on a list of strings. *)
Definition sort (l : list string) : list string :=
  merge_sort String.le l.

(** [itertools.combinations(l, 2)]: the pairs of elements at positions
    [i < j], in lexicographic order of [(i, j)]. *)
Fixpoint combinations_2 {A} (l : list A) : list (A * A) :=
  match l with
  | [] => []
  | x :: xs => (pair x <$> xs) ++ combinations_2 xs
  end.

(** ** The label normaliser *)

(** The tuple [('>', '<', '=')] of line 54. *)
Definition separators : list ascii := [">"; "<"; "="]%char.

(** Lines 53-57: the first separator of the tuple that occurs in the label
    splits it; without any separator the list stays empty. *)
Fixpoint split_on_first_separator (seps : list ascii) (label : string)
  : list string :=
  match seps with
  | [] => []
  | separator :: rest =>
      if in_str separator label then split separator label
      else split_on_first_separator rest label
  end.

(** Lines 62-64, the body of the second loop. *)
Definition clean_label_system (label_system : string) : string :=
  join "+" (sort (split "+" label_system)).

(** Lines 49-66.  The operands are sorted first (line 58) and only then
    cleaned one by one (lines 61-64). *)
Definition extract_system_ids_from_label (label : string) : list string :=
  let label_systems := split_on_first_separator separators label in
  let label_systems := sort label_systems in
  clean_label_system <$> label_systems.

(** ** Python values and exceptions *)

(** The values a component of a judgement triple can hold. *)
Inductive pyval :=
  | PyNone
  | PyInt (z : Z)
  | PyStr (s : string).

(** An element of the [data] argument: a tuple of values, or a bare value. *)
Inductive pyobj :=
  | Atom (v : pyval)
  | Tuple (vs : list pyval).

Inductive pyexc :=
  | TypeError
  | ValueError
  | ZeroDivisionError.

Inductive outcome (A : Type) :=
  | Returned (a : A)
  | Raised (e : pyexc).
Arguments Returned {A} a.
Arguments Raised {A} e.

Global Instance outcome_ret : MRet outcome := λ A a, Returned a.

Global Instance outcome_bind : MBind outcome := λ A B k m,
  match m with
  | Returned a => k a
  | Raised e => Raised e
  end.

Global Instance pyval_eq_dec : EqDecision pyval.
Proof. solve_decision. Defined.

Global Instance pyval_countable : Countable pyval.
Proof.
  refine (inj_countable'
    (λ v, match v with
          | PyNone => inl ()
          | PyInt z => inr (inl z)
          | PyStr s => inr (inr s)
          end)
    (λ x, match x with
          | inl _ => PyNone
          | inr (inl z) => PyInt z
          | inr (inr s) => PyStr s
          end) _).
  intros []; reflexivity.
Defined.

(** ['=' in v]: substring test on a string, [TypeError] on [None] and on
    an [int] (argument of that type is not iterable). *)
Definition py_in (c : ascii) (v : pyval) : outcome bool :=
  match v with
  | PyStr s => Returned (in_str c s)
  | _ => Raised TypeError
  end.

(** [extract_system_ids_from_label] called on an arbitrary value: its first
    statement that touches the label is [separator in label]. *)
Definition py_extract_system_ids_from_label (v : pyval)
  : outcome (list string) :=
  match v with
  | PyStr s => Returned (extract_system_ids_from_label s)
  | _ => Raised TypeError
  end.

(** The target list [_unused_coder_name, item, labels] of the [for] of line
    75: a tuple of three values unpacks, a string of three characters
    unpacks into its characters, any other length is a [ValueError], a
    value that is not iterable a [TypeError]. *)
Definition unpack_triple (o : pyobj) : outcome (pyval * pyval * pyval) :=
  match o with
  | Tuple [c; i; l] => Returned (c, i, l)
  | Tuple _ => Raised ValueError
  | Atom (PyStr (String c (String i (String l EmptyString)))) =>
      Returned (PyStr (String c EmptyString),
                PyStr (String i EmptyString),
                PyStr (String l EmptyString))
  | Atom (PyStr _) => Raised ValueError
  | Atom _ => Raised TypeError
  end.

(** ** The agreement aggregator *)

(** The tuple returned on line 110. *)
Record counts := Counts {
  identical_cnt : Z;
  comparable_cnt : Z;
  ties_cnt : Z;
  ties_total : Z
}.

(** What a call hands back to its caller: the tuple of line 110, or [None]
    after the [except] clause has printed the traceback of [e]. *)
Inductive py_return :=
  | RetCounts (c : counts)
  | RetNone (traceback : pyexc).

(** [d[k].append(v)] on a [defaultdict(list)]. *)
Definition dict_append `{Countable K} {V} (k : K) (v : V)
    (d : gmap K (list V)) : gmap K (list V) :=
  <[k := default [] (d !! k) ++ [v]]> d.

(** Lines 74-76, the grouping loop. *)
Fixpoint group_by_items (data : list pyobj)
    (_by_items : gmap pyval (list pyval))
  : outcome (gmap pyval (list pyval)) :=
  match data with
  | [] => Returned _by_items
  | o :: rest =>
      '(_unused_coder_name, item, labels) ← unpack_triple o;
      group_by_items rest (dict_append item labels _by_items)
  end.

(** Lines 87-89. *)
Fixpoint count_ties (item_labels : list pyval) (ties_cnt : Z) : outcome Z :=
  match item_labels with
  | [] => Returned ties_cnt
  | individual_label :: rest =>
      b ← py_in "=" individual_label;
      count_ties rest (if b : bool then ties_cnt + 1 else ties_cnt)
  end.

(** [set(a) == set(b)] on lists of strings. *)
Definition set_eqb (a b : list string) : bool :=
  bool_decide (list_to_set a =@{gset string} list_to_set b).

(** Lines 95-108; the accumulator is [(identical_cnt, comparable_cnt)]. *)
Fixpoint count_pairs (pairs : list (pyval * pyval)) (acc : Z * Z)
  : outcome (Z * Z) :=
  match pairs with
  | [] => Returned acc
  | (first_label, second_label) :: rest =>
      first_label_systems ← py_extract_system_ids_from_label first_label;
      second_label_systems ← py_extract_system_ids_from_label second_label;
      count_pairs rest
        (if set_eqb first_label_systems second_label_systems
         then ((if bool_decide (first_label = second_label)
                then acc.1 + 1 else acc.1), acc.2 + 1)
         else acc)
  end.

(** Lines 84-108, the loop over [_by_items.values()]. *)
Fixpoint count_items (groups : list (list pyval)) (acc : counts)
  : outcome counts :=
  match groups with
  | [] => Returned acc
  | item_labels :: rest =>
      let total := ties_total acc + Z.of_nat (length item_labels) in
      ties ← count_ties item_labels (ties_cnt acc);
      '(identical, comparable) ←
        (if bool_decide (1 < length item_labels)%nat
         then count_pairs (combinations_2 item_labels)
                (identical_cnt acc, comparable_cnt acc)
         else Returned (identical_cnt acc, comparable_cnt acc));
      count_items rest (Counts identical comparable ties total)
  end.

(** Lines 69-114.  The grouping loop stands before the [try]; whatever the
    [try] block raises is caught by the bare [except], which prints the
    traceback and falls off the end of the function. *)
Definition compute_agreement_scores (data : list pyobj) : outcome py_return :=
  _by_items ← group_by_items data ∅;
  match count_items (map_to_list _by_items).*2 (Counts 0 0 0 0) with
  | Returned c => Returned (RetCounts c)
  | Raised e => Returned (RetNone e)
  end.

(** A well-typed judgement [(coder, item, label)] and its Python value. *)
Definition judgement : Type := string * string * string.

Definition py_of_judgement (j : judgement) : pyobj :=
  Tuple [PyStr j.1.1; PyStr j.1.2; PyStr j.2].

(** ** The row loop: pairwise ranking decisions *)

(** Line 118. *)
Definition MAX_NUMBER_OF_SYSTEMS : nat := 5.

(** Lines 120-124. *)
Definition LANGUAGE_CODE_TO_NAME : gmap string string :=
  list_to_map
    [("ces", "Czech"); ("deu", "German"); ("fra", "French");
     ("fre", "French"); ("esn", "Spanish"); ("fin", "Finnish");
     ("rus", "Russian"); ("hin", "Hindi"); ("eng", "English")].

(** One row of the results file, after the CSV reader and the [int]
    conversions: [systemId y] and [systemRank y] are the columns
    [system(y+1)Id] and [system(y+1)rank], [None] when the column is
    absent; [judgeId] is the judge found on lines 146-148. *)
Record row := Row {
  srclang : string;
  trglang : string;
  srcIndex : Z;
  judgeId : string;
  systemId : nat → option string;
  systemRank : nat → option Z
}.

(** Lines 136-144. *)
Definition language_name (code : string) : string :=
  default code (LANGUAGE_CODE_TO_NAME !! code).

Definition language_pair_of (r : row) : string :=
  language_name (srclang r) +:+ "-" +:+ language_name (trglang r).

(** Lines 151-159: the slots whose id column is present, with rank [-1]
    where the rank column is absent. *)
Definition slots (r : row) : list (string * Z) :=
  omap (λ y, system_id ← systemId r y;
             Some (system_id, default (-1) (systemRank r y)))
       (seq 0 MAX_NUMBER_OF_SYSTEMS).

(** Lines 180-185. *)
Definition ranking_label (sa sb : string) (ra rb : Z) : string :=
  if bool_decide (ra < rb) then sa +:+ ">" +:+ sb
  else if bool_decide (ra > rb) then sa +:+ "<" +:+ sb
  else sa +:+ "=" +:+ sb.

(** Lines 173-190, the body of the loop over index pairs; the indices come
    from [range(len(systems))], so the lookups are in range. *)
Definition ranking_decision (_c : string) (segment_id : Z)
    (systems : list string) (rankings : list Z) (ab : nat * nat)
  : list judgement :=
  let '(a, b) := ab in
  let _i := pretty segment_id +:+ "." +:+ (systems !!! a)
            +:+ "." +:+ (systems !!! b) in
  if bool_decide (rankings !!! a = -1 ∨ rankings !!! b = -1) then []
  else [(_c, _i, ranking_label (systems !!! a) (systems !!! b)
                               (rankings !!! a) (rankings !!! b))].

(** Lines 150-190 for one row. *)
Definition ranking_decisions (r : row) : list judgement :=
  let systems := (slots r).*1 in
  let rankings := (slots r).*2 in
  if bool_decide (length systems < 2)%nat then []
  else combinations_2 (seq 0 (length systems))
         ≫= ranking_decision (judgeId r) (srcIndex r) systems rankings.

(** [results_data[language_pair][segment_id].append(...)], line 190. *)
Definition results_append (language_pair : string) (segment_id : Z)
    (j : judgement) (results_data : gmap string (gmap Z (list judgement)))
  : gmap string (gmap Z (list judgement)) :=
  <[language_pair :=
      dict_append segment_id j (default ∅ (results_data !! language_pair))]>
    results_data.

(** Lines 134-190. *)
Definition read_results (rows : list row)
  : gmap string (gmap Z (list judgement)) :=
  foldl (λ results_data r,
           foldl (λ d j, results_append (language_pair_of r) (srcIndex r) j d)
                 results_data (ranking_decisions r))
        ∅ rows.

(** ** The reduction per language pair *)

(** Lines 202-205. *)
Definition language_pairs : list string :=
  ["Czech-English"; "English-Czech"; "German-English"; "English-German";
   "Spanish-English"; "English-Spanish"; "French-English"; "English-French";
   "Russian-English"; "English-Russian"; "Finnish-English"; "English-Finnish"].

Record arguments := Arguments_ {
  inter_annotator_agreement : bool;
  intra_annotator_agreement : bool
}.

(** Lines 129-132. *)
Definition default_mode (args : arguments) : arguments :=
  if negb (inter_annotator_agreement args)
     && negb (intra_annotator_agreement args)
  then Arguments_ true (intra_annotator_agreement args)
  else args.

(** Lines 214-216. *)
Definition group_by_coder (_judgements : list judgement)
  : gmap string (list judgement) :=
  foldl (λ _coders j, dict_append j.1.1 j _coders) ∅ _judgements.

(** Lines 232-234. *)
Definition group_coder_items (_coder_judgements : list judgement)
  : gmap string (list string) :=
  foldl (λ _items j, dict_append j.1.2 j.2 _items) ∅ _coder_judgements.

(** Lines 243-247. *)
Definition rename_judgements (_coder : string)
    (_items : gmap string (list string)) : list judgement :=
  '(_i, _ls) ← map_to_list _items;
  (λ d, (_coder +:+ "-" +:+ pretty d, _i, _ls !!! d)) <$> seq 0 (length _ls).

(** Lines 231-252: the units of work one coder contributes, none when no
    item of the coder has two or more annotations. *)
Definition coder_units (_coder : string) (_coder_judgements : list judgement)
  : list (list judgement) :=
  let _items := group_coder_items _coder_judgements in
  if forallb (λ x, bool_decide (length x < 2)%nat) (map_to_list _items).*2
  then []
  else [rename_judgements _coder _items].

(** Lines 212-252: the argument lists handed to [pool.apply_async] for one
    segment.  The [--inter] test comes first. *)
Definition segment_units (args : arguments) (_judgements : list judgement)
  : list (list judgement) :=
  let _coders := group_by_coder _judgements in
  if inter_annotator_agreement args then [_judgements]
  else if intra_annotator_agreement args then
    '(_coder, _coder_judgements) ← map_to_list _coders;
    coder_units _coder _coder_judgements
  else [].

(** [apply_async(..., callback=scores.append)]: the callback runs with the
    value a call returns; a call that raises appends nothing. *)
Definition pool_apply (unit : list judgement) : list py_return :=
  match compute_agreement_scores (py_of_judgement <$> unit) with
  | Returned r => [r]
  | Raised _ => []
  end.

(** Lines 209-256. *)
Definition collect_scores (args : arguments)
    (segments_data : gmap Z (list judgement)) : list py_return :=
  '(segment_id, _judgements) ← map_to_list segments_data;
  segment_units args _judgements ≫= pool_apply.

(** Lines 259-266: [sum([x[i] for x in scores])] for the four positions;
    subscripting [None] is a [TypeError]. *)
Fixpoint sum_scores (scores : list py_return) : outcome counts :=
  match scores with
  | [] => Returned (Counts 0 0 0 0)
  | RetCounts x :: rest =>
      s ← sum_scores rest;
      Returned (Counts (identical_cnt x + identical_cnt s)
                       (comparable_cnt x + comparable_cnt s)
                       (ties_cnt x + ties_cnt s)
                       (ties_total x + ties_total s))
  | RetNone _ :: _ => Raised TypeError
  end.

(** [float(n or 1)]. *)
Definition float_or_1 (n : Z) : Q :=
  inject_Z (if bool_decide (n = 0) then 1 else n).

(** [x / y] on floats. *)
Definition float_div (x y : Q) : outcome Q :=
  if Qeq_bool y 0 then Raised ZeroDivisionError else Returned (x / y)%Q.

(** What is printed for a language pair. *)
Record result_line := ResultLine {
  line_language_pair : string;
  line_pA : Q;
  line_pE : Q;
  line_kappa : Q;
  line_scores : counts
}.

(** Lines 268-291 for the summed scores. *)
Definition kappa_line (language_pair : string) (average_scores : counts)
  : outcome (option result_line) :=
  let _identical := identical_cnt average_scores in
  let _comparable := comparable_cnt average_scores in
  let _ties := ties_cnt average_scores in
  let _ties_total := ties_total average_scores in
  pA ← float_div (inject_Z _identical) (float_or_1 _comparable);
  pTies ← float_div (inject_Z _ties) (float_or_1 _ties_total);
  let pNoTies := (1 - pTies)%Q in
  let pE := (pTies ^ 2 + (pNoTies / 2) ^ 2 + (pNoTies / 2) ^ 2)%Q in
  kappa ← float_div (pA - pE)%Q (1 - pE)%Q;
  if bool_decide (_comparable = 0) then Returned None
  else Returned (Some (ResultLine language_pair pA pE kappa average_scores)).

(** Lines 208-291, one turn of the loop over [language_pairs]. *)
Definition process_language_pair (args : arguments)
    (results_data : gmap string (gmap Z (list judgement)))
    (language_pair : string) : outcome (option result_line) :=
  let segments_data := default ∅ (results_data !! language_pair) in
  average_scores ← sum_scores (collect_scores args segments_data);
  kappa_line language_pair average_scores.

(** Lines 207-291: the lines printed, and the exception that ended the run
    if one did. *)
Fixpoint report (args : arguments)
    (results_data : gmap string (gmap Z (list judgement)))
    (pairs : list string) : list result_line * option pyexc :=
  match pairs with
  | [] => ([], None)
  | language_pair :: rest =>
      match process_language_pair args results_data language_pair with
      | Raised e => ([], Some e)
      | Returned None => report args results_data rest
      | Returned (Some l) =>
          let '(ls, e) := report args results_data rest in (l :: ls, e)
      end
  end.

(** The program, lines 126-291. *)
Definition main (args : arguments) (rows : list row)
  : list result_line * option pyexc :=
  report (default_mode args) (read_results rows) language_pairs.

(** * The converter [data/xml2csv.py]

    The XML export is a list of HITs; a HIT holds ranking tasks, a task
    the ranking results of its judges, a result the translations the judge
    ranked.  The [rank] attribute of a translation is handed through to the
    CSV file untouched, so its type is left open; the [id] of a ranking
    task, which the agreement script reads back with [int], is an
    integer. *)

(** [s.replace(a, b)] for one-character strings. *)
Fixpoint replace_char (a b : ascii) (s : string) : string :=
  match s with
  | EmptyString => EmptyString
  | String c s' =>
      String (if decide (c = a) then b else c) (replace_char a b s')
  end.

(** [system_name[0:3] != 'ref'], lines 83 and 88. *)
Definition not_ref (system_name : string) : bool :=
  negb (String.eqb (String.substring 0 3 system_name) "ref").

(** Lines 73-92, with [args.include_ref] as a parameter; a translation is
    the pair of its [system] and [rank] attributes. *)
Definition extract_all_judgements {R} (include_ref : bool)
    (expand_multi_systems : bool) (translations : list (string * R))
  : list (string * R) :=
  '(system, rank_i) ← translations;
  if expand_multi_systems then
    system_name ← split "," system;
    if not_ref system_name || include_ref then [(system_name, rank_i)]
    else []
  else
    if not_ref system || include_ref
    then [(replace_char "," "+" system, rank_i)]
    else [].

(** Lines 94-98: the alias of a judge, and the dictionary afterwards. *)
Definition anonymize_judge (judgeID : string) (judges : gmap string string)
  : string * gmap string string :=
  match judges !! judgeID with
  | Some alias => (alias, judges)
  | None =>
      let alias := "judge" +:+ pretty (size judges + 1)%nat in
      (alias, <[judgeID := alias]> judges)
  end.

Record ranking_result (R : Type) := RankingResult {
  user : string;
  translations : list (string * R)
}.
Arguments RankingResult {R} user translations.
Arguments user {R} r.
Arguments translations {R} r.

Record ranking_task (R : Type) := RankingTask {
  task_id : Z;
  ranking_results : list (ranking_result R)
}.
Arguments RankingTask {R} task_id ranking_results.
Arguments task_id {R} r.
Arguments ranking_results {R} r.

Record HIT (R : Type) := Hit {
  source_language : string;
  target_language : string;
  ranking_tasks : list (ranking_task R)
}.
Arguments Hit {R} source_language target_language ranking_tasks.
Arguments source_language {R} h.
Arguments target_language {R} h.
Arguments ranking_tasks {R} h.

(** One written CSV row, lines 125-143; it goes to the file of its
    language pair. *)
Record csv_row (R : Type) := CsvRow {
  csv_srclang : string;
  csv_trglang : string;
  csv_srcIndex : Z;
  csv_segmentId : Z;
  csv_judgeID : string;
  csv_rankingID : nat;
  csv_system1Id : string;
  csv_system1rank : R;
  csv_system2Id : string;
  csv_system2rank : R
}.
Arguments CsvRow {R}.
Arguments csv_srclang {R} c.
Arguments csv_trglang {R} c.
Arguments csv_srcIndex {R} c.
Arguments csv_segmentId {R} c.
Arguments csv_judgeID {R} c.
Arguments csv_rankingID {R} c.
Arguments csv_system1Id {R} c.
Arguments csv_system1rank {R} c.
Arguments csv_system2Id {R} c.
Arguments csv_system2rank {R} c.

(** The state of the converter: the dictionary [judges] and [resultno]. *)
Definition converter_state : Type := gmap string string * nat.

(** Lines 122-143 for one ranking result: the rows written, and the state
    afterwards. *)
Definition convert_result {R} (include_ref expand : bool)
    (source_lang target_lang : string) (id : Z)
    (st : converter_state) (result : ranking_result R)
  : list (csv_row R) * converter_state :=
  let resultno := S st.2 in
  let '(alias, judges) := anonymize_judge (user result) st.1 in
  let systems_ranks :=
    extract_all_judgements include_ref expand (translations result) in
  ((λ element,
      CsvRow source_lang target_lang id id alias resultno
             element.1.1 element.1.2 element.2.1 element.2.2)
     <$> combinations_2 systems_ranks,
   (judges, resultno)).

(** A loop that threads the state and appends what each turn writes. *)
Fixpoint write_all {A B S} (f : S → A → list B * S) (st : S) (l : list A)
  : list B * S :=
  match l with
  | [] => ([], st)
  | x :: rest =>
      let '(out, st') := f st x in
      let '(outs, st'') := write_all f st' rest in
      (out ++ outs, st'')
  end.

(** Lines 111-143: the rows written for the HITs, in order. *)
Definition convert_task {R} (include_ref expand : bool)
    (source_lang target_lang : string)
    (st : converter_state) (ranking : ranking_task R)
  : list (csv_row R) * converter_state :=
  write_all (convert_result include_ref expand source_lang target_lang
               (task_id ranking))
            st (ranking_results ranking).

Definition convert_hit {R} (include_ref expand : bool)
    (st : converter_state) (hit : HIT R)
  : list (csv_row R) * converter_state :=
  write_all (convert_task include_ref expand
               (source_language hit) (target_language hit))
            st (ranking_tasks hit).

(** The converter, lines 94-143: the dictionary starts empty and
    [resultno] at 0. *)
Definition convert {R} (include_ref expand : bool) (hits : list (HIT R))
  : list (csv_row R) :=
  (write_all (convert_hit include_ref expand) (∅, 0%nat) hits).1.

(** The rows written to the file of one language pair. *)
Definition csv_file {R} (source_lang target_lang : string)
    (rows : list (csv_row R)) : list (csv_row R) :=
  filter (λ c, csv_srclang c = source_lang ∧ csv_trglang c = target_lang) rows.

(** * Notions used to state the properties *)

(** A string in which none of ['>'], ['<'], ['='] occurs. *)
Definition separator_free (s : string) : Prop :=
  Forall (λ c, in_str c s = false) separators.

(** A string without ['+']. *)
Definition plus_free (s : string) : Prop := in_str "+" s = false.

(** The normaliser as the specification words it: split at the separator,
    clean each operand, and sort the cleaned operands last. *)
Definition normalize_as_specified (label : string) : list string :=
  sort (clean_label_system <$> split_on_first_separator separators label).

(** The index pairs [(i, j)] with [i < j < n], in lexicographic order. *)
Definition index_pairs (n : nat) : list (nat * nat) :=
  i ← seq 0 n; j ← seq (S i) (n - S i); [(i, j)].

(** The unordered pairs of the elements of a list, by position. *)
Definition unordered_pairs {A} `{Inhabited A} (l : list A) : list (A * A) :=
  (λ ij, (l !!! ij.1, l !!! ij.2)) <$> index_pairs (length l).

(** Two labels are comparable when their normalised operands are the same
    set; a comparable pair is identical when the raw labels are equal. *)
Definition comparable (p : string * string) : Prop :=
  list_to_set (extract_system_ids_from_label p.1)
  =@{gset string} list_to_set (extract_system_ids_from_label p.2).

Definition identical (p : string * string) : Prop :=
  comparable p ∧ p.1 = p.2.

(** A label that contains the character ['=']. *)
Definition is_tie (label : string) : Prop :=
  ("="%char : ascii) ∈ String.list_ascii_of_string label.

Global Instance comparable_dec p : Decision (comparable p).
Proof. unfold comparable. apply _. Defined.

Global Instance identical_dec p : Decision (identical p).
Proof. unfold identical. apply _. Defined.

Global Instance is_tie_dec label : Decision (is_tie label).
Proof. unfold is_tie. apply _. Defined.

(** The counts of one group of labels, and the sum of two tuples. *)
Definition group_counts (labels : list string) : counts :=
  Counts (Z.of_nat (length (filter identical (unordered_pairs labels))))
         (Z.of_nat (length (filter comparable (unordered_pairs labels))))
         (Z.of_nat (length (filter is_tie labels)))
         (Z.of_nat (length labels)).

Definition add_counts (x y : counts) : counts :=
  Counts (identical_cnt x + identical_cnt y)
         (comparable_cnt x + comparable_cnt y)
         (ties_cnt x + ties_cnt y)
         (ties_total x + ties_total y).

(** Counts as an aggregation can produce them. *)
Definition valid_counts (c : counts) : Prop :=
  0 ≤ identical_cnt c ≤ comparable_cnt c ∧ 0 ≤ ties_cnt c ≤ ties_total c.

(** The judgement prescribed for two slots holding [(sa, ra)] and
    [(sb, rb)], in this order. *)
Definition is_pair_judgement (r : row) (sa sb : string) (ra rb : Z)
    (j : judgement) : Prop :=
  j.1.1 = judgeId r
  ∧ j.1.2 = pretty (srcIndex r) +:+ "." +:+ sa +:+ "." +:+ sb
  ∧ (ra < rb → j.2 = sa +:+ ">" +:+ sb)
  ∧ (ra > rb → j.2 = sa +:+ "<" +:+ sb)
  ∧ (ra = rb → j.2 = sa +:+ "=" +:+ sb).

(** A pair of positions none of whose ranks is the skip value [-1]. *)
Definition both_ranked (rankings : list Z) (ab : nat * nat) : Prop :=
  rankings !!! ab.1 ≠ -1 ∧ rankings !!! ab.2 ≠ -1.

Global Instance both_ranked_dec rankings ab : Decision (both_ranked rankings ab).
Proof. unfold both_ranked. apply _. Defined.

(** The row whose system columns hold the given ids and ranks. *)
Definition row_of_slots (src trg : string) (idx : Z) (judge : string)
    (l : list (string * Z)) : row :=
  Row src trg idx judge (λ y, fst <$> l !! y) (λ y, snd <$> l !! y).

(** Elements of [data] that are tuples of three values, and lists of them
    whose third components are all strings. *)
Definition triple_parts (o : pyobj) : option (pyval * pyval * pyval) :=
  match o with
  | Tuple [c; i; l] => Some (c, i, l)
  | _ => None
  end.

Definition is_triple (o : pyobj) : Prop := is_Some (triple_parts o).

Definition is_str (v : pyval) : bool :=
  match v with PyStr _ => true | _ => false end.

Definition labels_are_str (data : list pyobj) : Prop :=
  Forall (λ o, ∀ t, triple_parts o = Some t → is_str t.2) data.

(** One turn of the grouping loop on a triple. *)
Definition group_step (m : gmap pyval (list pyval)) (o : pyobj)
  : gmap pyval (list pyval) :=
  match triple_parts o with
  | Some (_, i, l) => dict_append i l m
  | None => m
  end.

(** Grouped labels that are all strings, or not. *)
Definition all_str_map (m : gmap pyval (list pyval)) : Prop :=
  map_Forall (λ _ vs, Forall (λ v, is_str v) vs) m.


(** The statistic as the specification words it, on summed counts. *)
Definition spec_pA (c : counts) : Q :=
  if decide (comparable_cnt c = 0) then 0%Q
  else (inject_Z (identical_cnt c) / inject_Z (comparable_cnt c))%Q.

Definition spec_pTies (c : counts) : Q :=
  if decide (ties_total c = 0) then 0%Q
  else (inject_Z (ties_cnt c) / inject_Z (ties_total c))%Q.

Definition spec_pE (c : counts) : Q :=
  let pTies := spec_pTies c in
  let pNoTies := (1 - pTies)%Q in
  (pTies ^ 2 + (pNoTies / 2) ^ 2 + (pNoTies / 2) ^ 2)%Q.

Definition spec_kappa (c : counts) : Q :=
  ((spec_pA c - spec_pE c) / (1 - spec_pE c))%Q.

(** The values lines 269-274 compute. *)
Definition code_pA (c : counts) : Q :=
  (inject_Z (identical_cnt c) / float_or_1 (comparable_cnt c))%Q.

Definition code_pTies (c : counts) : Q :=
  (inject_Z (ties_cnt c) / float_or_1 (ties_total c))%Q.

Definition code_pE (c : counts) : Q :=
  (code_pTies c ^ 2 + ((1 - code_pTies c) / 2) ^ 2
   + ((1 - code_pTies c) / 2) ^ 2)%Q.

(** A returned value that is a tuple of valid counts. *)
Definition valid_return (r : py_return) : Prop :=
  ∃ c, r = RetCounts c ∧ valid_counts c.

(** A results file with a single Czech-English row whose two systems are
    ranked equal. *)
Definition tied_rows : list row :=
  [row_of_slots "ces" "eng" 1 "judge1" [("sysA", 1); ("sysB", 1)]].

(** Two German-English rows on which two judges agree. *)
Definition agreeing_rows : list row :=
  [row_of_slots "deu" "eng" 7 "judge1" [("sysA", 1); ("sysB", 2)];
   row_of_slots "deu" "eng" 7 "judge2" [("sysA", 1); ("sysB", 2)]].

(** The rows whose language pair is one of [language_pairs]. *)
Definition reported_rows (rows : list row) : list row :=
  filter (λ r, language_pair_of r ∈ language_pairs) rows.

(** One turn of the loop over the rows, lines 135-190. *)
Definition read_row (results_data : gmap string (gmap Z (list judgement)))
    (r : row) : gmap string (gmap Z (list judgement)) :=
  foldl (λ d j, results_append (language_pair_of r) (srcIndex r) j d)
        results_data (ranking_decisions r).

(** The judgements of a coder in a segment, in the order of the segment;
    the labels the coder gave to an item, in that order; a coder with an
    item judged twice or more. *)
Definition judgements_of (js : list judgement) (c : string) : list judgement :=
  filter (λ j, j.1.1 = c) js.

Definition labels_of (js : list judgement) (c i : string) : list string :=
  snd <$> filter (λ j, j.1.2 = i) (judgements_of js c).

Definition eligible (js : list judgement) (c : string) : Prop :=
  ∃ i, (2 ≤ length (labels_of js c i))%nat.

(** The unit of work of a coder in a segment. *)
Definition coder_unit (js : list judgement) (c : string) : list judgement :=
  rename_judgements c (group_coder_items (judgements_of js c)).

(** The labels given to one item, in the order of the data. *)
Definition item_labels (data : list judgement) (i : string) : list string :=
  snd <$> filter (λ j, j.1.2 = i) data.

(** The item id of line 174. *)
Definition item_id (segment_id : Z) (sa sb : string) : string :=
  pretty segment_id +:+ "." +:+ sa +:+ "." +:+ sb.

(** A string without ['.']. *)
Definition dot_free (s : string) : Prop := in_str "." s = false.

(** The string key of a dictionary of items. *)
Definition key_str (k : pyval) : string :=
  match k with PyStr s => s | _ => EmptyString end.

(** A tie group: a non-empty list of system ids, each free of separators
    and of ['+']. *)
Definition tie_group (g : list string) : Prop :=
  g ≠ [] ∧ Forall (λ x, separator_free x ∧ plus_free x) g.

(** What [results_data] stores for a language pair and a segment. *)
Definition stored (results_data : gmap string (gmap Z (list judgement)))
    (language_pair : string) (segment_id : Z) : option (list judgement) :=
  default ∅ (results_data !! language_pair) !! segment_id.

(** The judgements of the rows of a language pair and segment, in the
    order of the file. *)
Definition segment_judgements (rows : list row) (language_pair : string)
    (segment_id : Z) : list judgement :=
  filter (λ r, language_pair_of r = language_pair ∧ srcIndex r = segment_id)
         rows
    ≫= ranking_decisions.

(** All the judgements of the rows of a language pair, in the order of the
    file. *)
Definition pair_judgements (rows : list row) (language_pair : string)
  : list judgement :=
  filter (λ r, language_pair_of r = language_pair) rows ≫= ranking_decisions.

(** A language pair that has judgements, all of them ties. *)
Definition all_ties (rows : list row) (language_pair : string) : Prop :=
  pair_judgements rows language_pair ≠ []
  ∧ Forall (λ j : judgement, is_tie j.2) (pair_judgements rows language_pair).

(** Successive calls of [anonymize_judge], one per judge id. *)
Fixpoint anonymize_all (ids : list string) (judges : gmap string string)
  : list string * gmap string string :=
  match ids with
  | [] => ([], judges)
  | judgeID :: rest =>
      let '(alias, judges') := anonymize_judge judgeID judges in
      let '(aliases, judges'') := anonymize_all rest judges' in
      (alias :: aliases, judges'')
  end.

(** A dictionary of judges as the converter builds it: the aliases are
    [judge1] ... [judgeN] for the [N] entries, no alias given twice. *)
Definition judges_ok (judges : gmap string string) : Prop :=
  (∀ id alias, judges !! id = Some alias →
     ∃ k, (1 ≤ k ≤ size judges)%nat ∧ alias = "judge" +:+ pretty k)
  ∧ (∀ id1 id2 alias,
       judges !! id1 = Some alias → judges !! id2 = Some alias → id1 = id2).

(** The ranking results of an export in the order the converter visits
    them, each with the languages of its HIT and the id of its task. *)
Definition all_results {R} (hits : list (HIT R))
  : list (string * string * Z * ranking_result R) :=
  hit ← hits;
  ranking ← ranking_tasks hit;
  (λ result, (source_language hit, target_language hit, task_id ranking,
              result)) <$> ranking_results ranking.

(** The rows of the [k]-th visited result, given the alias of its judge. *)
Definition result_rows {R} (include_ref expand : bool) (k : nat)
    (alias : string) (x : string * string * Z * ranking_result R)
  : list (csv_row R) :=
  (λ element,
     CsvRow x.1.1.1 x.1.1.2 x.1.2 x.1.2 alias (S k)
            element.1.1 element.1.2 element.2.1 element.2.2)
    <$> combinations_2
          (extract_all_judgements include_ref expand (translations x.2)).

(** A CSV row as the agreement script reads it back: two system slots,
    the judge in column [judgeID], the segment in [srcIndex]. *)
Definition row_of_csv (c : csv_row Z) : row :=
  row_of_slots (csv_srclang c) (csv_trglang c) (csv_srcIndex c)
               (csv_judgeID c)
               [(csv_system1Id c, csv_system1rank c);
                (csv_system2Id c, csv_system2rank c)].

(** The users of the visited results, in order, and their aliases. *)
Definition result_users {R}
    (xs : list (string * string * Z * ranking_result R)) : list string :=
  (λ x, user x.2) <$> xs.

Definition result_aliases {R} (hits : list (HIT R)) : list string :=
  (anonymize_all (result_users (all_results hits)) ∅).1.

(** * Properties *)

(** ** The embedding on the examples of the specification *)

Example extract_plain :
  extract_system_ids_from_label "x>y" = ["x"; "y"]
  ∧ extract_system_ids_from_label "y<x" = ["x"; "y"]
  ∧ extract_system_ids_from_label "b+a=c" = ["a+b"; "c"].
Proof. repeat split; vm_compute; reflexivity. Qed.

Example scores_xy :
  compute_agreement_scores
    (py_of_judgement <$> [("c1", "i", "x>y"); ("c2", "i", "x>y"); ("c3", "i", "y<x")])
  = Returned (RetCounts (Counts 1 3 0 3)).
Proof. vm_compute. reflexivity. Qed.

(** ** Strings: membership, [split] and [join] *)

Lemma append_nil_l (s : string) : "" +:+ s = s.
Proof. reflexivity. Qed.

Lemma append_cons (c : ascii) (s t : string) :
  String c s +:+ t = String c (s +:+ t).
Proof. reflexivity. Qed.

Lemma in_str_app (c : ascii) (s t : string) :
  in_str c (s +:+ t) = in_str c s || in_str c t.
Proof.
  induction s as [|d s IH]; [reflexivity|].
  rewrite append_cons. simpl. destruct (decide (d = c)); [reflexivity|apply IH].
Qed.

Lemma in_str_cons (c d : ascii) (s : string) :
  in_str c (String d s) = bool_decide (d = c) || in_str c s.
Proof. simpl. by repeat case_decide; case_bool_decide. Qed.

Lemma split_not_nil (sep : ascii) (s : string) : split sep s ≠ [].
Proof.
  destruct s as [|c s]; simpl; [done|].
  destruct (decide (c = sep)); [done|]. by destruct (split sep s).
Qed.

Lemma split_free (sep : ascii) (s : string) :
  in_str sep s = false → split sep s = [s].
Proof.
  induction s as [|c s IH]; simpl; [done|].
  destruct (decide (c = sep)); [done|]. intros H. by rewrite IH.
Qed.

Lemma split_app (sep : ascii) (a b : string) :
  in_str sep a = false →
  split sep (a +:+ String sep b) = a :: split sep b.
Proof.
  induction a as [|c a IH]; intros Ha.
  - rewrite append_nil_l. simpl. by rewrite decide_True.
  - rewrite append_cons. simpl in *.
    destruct (decide (c = sep)); [done|]. by rewrite IH.
Qed.

(** Every piece of a split is free of the separator. *)
Lemma split_pieces_free (sep : ascii) (s : string) :
  Forall (λ x, in_str sep x = false) (split sep s).
Proof.
  induction s as [|c s IH]; simpl.
  - by constructor.
  - destruct (decide (c = sep)) as [->|Hne]; [by constructor|].
    destruct (split sep s) as [|w ws]; [by repeat constructor; simpl; rewrite decide_False|].
    inversion_clear IH. constructor; [|done]. simpl. by rewrite decide_False.
Qed.

(** A character other than the separator occurs in a string iff it occurs
    in one of its pieces. *)
Lemma in_str_split (c sep : ascii) (s : string) :
  c ≠ sep → existsb (in_str c) (split sep s) = in_str c s.
Proof.
  intros Hne. induction s as [|d s IH]; simpl; [done|].
  destruct (decide (d = sep)) as [->|Hd].
  - simpl. rewrite IH. by rewrite decide_False.
  - destruct (split sep s) as [|w ws]; simpl in *.
    + destruct (decide (d = c)); simpl; [done|]. by rewrite <- IH.
    + destruct (decide (d = c)); simpl; [done|]. done.
Qed.

Lemma join_cons (sep x y : string) (l : list string) :
  join sep (x :: y :: l) = x +:+ sep +:+ join sep (y :: l).
Proof. reflexivity. Qed.

Lemma split_join (sep : ascii) (l : list string) :
  l ≠ [] → Forall (λ x, in_str sep x = false) l →
  split sep (join (String sep "") l) = l.
Proof.
  induction l as [|x [|y l] IH]; intros Hne Hfree; [done| |].
  - simpl. apply split_free. by inversion Hfree.
  - rewrite join_cons. inversion_clear Hfree.
    change (String sep "" +:+ ?s) with (String sep s).
    rewrite split_app by done. f_equal. by apply IH.
Qed.

Lemma in_str_join (c sep : ascii) (l : list string) :
  c ≠ sep → in_str c (join (String sep "") l) = existsb (in_str c) l.
Proof.
  intros Hne. induction l as [|x [|y l] IH]; [done|simpl; by rewrite orb_false_r|].
  rewrite join_cons, in_str_app.
  change (String sep "" +:+ ?s) with (String sep s).
  rewrite in_str_cons, bool_decide_false by done. simpl in *. by rewrite IH.
Qed.

(** ** Sorting *)

Lemma sort_perm (l : list string) : sort l ≡ₚ l.
Proof. apply merge_sort_Permutation. Qed.

Lemma sort_sorted (l : list string) : Sorted String.le (sort l).
Proof. apply Sorted_merge_sort, _. Qed.

Lemma sort_unique (l1 l2 : list string) : l1 ≡ₚ l2 → sort l1 = sort l2.
Proof.
  intros Hp. apply (Sorted_unique String.le); try apply sort_sorted.
  by rewrite !sort_perm.
Qed.

Lemma sort_id (l : list string) : Sorted String.le l → sort l = l.
Proof.
  intros Hs. apply (Sorted_unique String.le); [apply sort_sorted|done|apply sort_perm].
Qed.

Lemma sort_idemp (l : list string) : sort (sort l) = sort l.
Proof. apply sort_id, sort_sorted. Qed.

Lemma sort_not_nil (l : list string) : l ≠ [] → sort l ≠ [].
Proof.
  intros Hl Hs. apply Hl, Permutation_nil_r. rewrite <- Hs. by rewrite sort_perm.
Qed.

Lemma existsb_perm {A} (f : A → bool) (l1 l2 : list A) :
  l1 ≡ₚ l2 → existsb f l1 = existsb f l2.
Proof.
  induction 1; simpl; try congruence.
  - by rewrite !orb_assoc, (orb_comm (f y)).
Qed.

(** ** The cleaned form of an operand *)

Lemma clean_label_system_split (x : string) :
  split "+" (clean_label_system x) = sort (split "+" x).
Proof.
  unfold clean_label_system. apply split_join.
  - apply sort_not_nil, split_not_nil.
  - rewrite sort_perm. apply split_pieces_free.
Qed.

Lemma clean_label_system_idemp (x : string) :
  clean_label_system (clean_label_system x) = clean_label_system x.
Proof.
  unfold clean_label_system at 1.
  by rewrite clean_label_system_split, sort_idemp.
Qed.

Lemma clean_label_system_plus_free (x : string) :
  plus_free x → clean_label_system x = x.
Proof.
  unfold plus_free, clean_label_system. intros Hx.
  rewrite split_free by done. reflexivity.
Qed.

Lemma in_str_clean_label_system (c : ascii) (x : string) :
  c ≠ "+"%char → in_str c (clean_label_system x) = in_str c x.
Proof.
  intros Hc. unfold clean_label_system.
  rewrite in_str_join by done.
  rewrite (existsb_perm _ _ _ (sort_perm _)). by apply in_str_split.
Qed.

Lemma separator_free_clean (x : string) :
  separator_free x → separator_free (clean_label_system x).
Proof.
  unfold separator_free, separators. rewrite !Forall_cons.
  intros (H1 & H2 & H3 & _).
  by rewrite !in_str_clean_label_system.
Qed.

(** ** Splitting a label at its only separator *)

Lemma split_on_separator (sep : ascii) (a b : string) :
  sep ∈ separators → separator_free a → separator_free b →
  split_on_first_separator separators (a +:+ String sep b) = [a; b].
Proof.
  unfold separator_free, separators. rewrite !Forall_cons.
  intros Hsep (Ha1 & Ha2 & Ha3 & _) (Hb1 & Hb2 & Hb3 & _).
  repeat (apply elem_of_cons in Hsep as [->|Hsep]); [..|by apply elem_of_nil in Hsep];
    simpl split_on_first_separator;
    rewrite ?in_str_app, ?in_str_cons, ?Ha1, ?Ha2, ?Ha3, ?Hb1, ?Hb2, ?Hb3;
    repeat (case_bool_decide; [try discriminate|]; simpl); try done;
    rewrite split_app, split_free; done.
Qed.

Ltac solve_separator :=
  apply list_elem_of_In; simpl; tauto.

Lemma extract_operands (sep : ascii) (a b : string) :
  sep ∈ separators → separator_free a → separator_free b →
  extract_system_ids_from_label (a +:+ String sep b)
  = clean_label_system <$> sort [a; b].
Proof.
  intros. unfold extract_system_ids_from_label. by rewrite split_on_separator.
Qed.

(** A list of two strings sorts to itself or to its mirror image. *)
Lemma sort_two (a b : string) :
  sort [a; b] = if bool_decide (String.le a b) then [a; b] else [b; a].
Proof.
  case_bool_decide as Hab.
  - apply sort_id. by repeat constructor.
  - rewrite (sort_unique [a; b] [b; a]) by apply Permutation_swap.
    apply sort_id. repeat constructor.
    by destruct (total String.le a b).
Qed.

Lemma fmap_fixed {A} (f : A → A) (l : list A) :
  Forall (λ x, f x = x) l → f <$> l = l.
Proof. induction 1 as [|x l Hx _ IH]; [done|]. rewrite fmap_cons. by rewrite Hx, IH. Qed.

Lemma extract_cleaned (sep : ascii) (a b : string) :
  sep ∈ separators → separator_free a → separator_free b →
  Forall (λ x, clean_label_system x = x)
         (extract_system_ids_from_label (a +:+ String sep b)).
Proof.
  intros. rewrite extract_operands by done.
  apply Forall_fmap, Forall_forall. intros x _. apply clean_label_system_idemp.
Qed.

Lemma extract_plus_free (sep : ascii) (a b : string) :
  sep ∈ separators → separator_free a → separator_free b →
  plus_free a → plus_free b →
  extract_system_ids_from_label (a +:+ String sep b) = sort [a; b].
Proof.
  intros. rewrite extract_operands by done. apply fmap_fixed.
  rewrite sort_perm. repeat constructor; by apply clean_label_system_plus_free.
Qed.

(** The precedence of the separators: a label with ['='] and ['>'] is cut
    at ['>'] only. *)
Example separator_precedence :
  extract_system_ids_from_label "a=b>c" = ["a=b"; "c"].
Proof. vm_compute. reflexivity. Qed.

(** C2, as the code has it.  For a label [a SEP b] whose operands contain
    no separator, the normaliser sorts the two raw operands first and
    cleans each of them afterwards: the output is the list of the cleaned
    operands in the order of the raw ones.  It holds the same two strings
    as cleaning first and sorting last, every one of them is in canonical
    form (its sub-identifiers are sorted, cleaning it again changes
    nothing), and when no operand contains ['+'] it is the lexically
    sorted pair the specification describes. *)
Theorem extract_system_ids_from_label_spec (sep : ascii) (a b : string) :
  sep ∈ separators → separator_free a → separator_free b →
  let label := a +:+ String sep b in
  let out := extract_system_ids_from_label label in
  out = clean_label_system <$> sort [a; b]
  ∧ out ≡ₚ normalize_as_specified label
  ∧ Forall (λ x, Sorted String.le (split "+" x) ∧ clean_label_system x = x) out
  ∧ (plus_free a → plus_free b →
     out = sort [a; b] ∧ out = normalize_as_specified label
     ∧ Sorted String.le out).
Proof.
  intros Hsep Ha Hb label out.
  assert (Hout : out = clean_label_system <$> sort [a; b])
    by (by apply extract_operands).
  split; [done|]. split; [|split].
  - unfold normalize_as_specified, label. rewrite split_on_separator by done.
    rewrite Hout. by rewrite !sort_perm.
  - rewrite Hout. apply Forall_fmap, Forall_forall. intros x _. simpl. split.
    + rewrite clean_label_system_split. apply sort_sorted.
    + apply clean_label_system_idemp.
  - intros Hpa Hpb.
    assert (Hs : out = sort [a; b]) by (by apply extract_plus_free).
    split; [done|]. split; [|rewrite Hs; apply sort_sorted].
    unfold normalize_as_specified, label. rewrite split_on_separator by done.
    rewrite Hs. f_equal. symmetry. apply fmap_fixed.
    repeat constructor; by apply clean_label_system_plus_free.
Qed.

Lemma extract_system_ids_from_label_spec_witness :
  let out := extract_system_ids_from_label ("sysB+sysA" +:+ String "=" "sysC") in
  out = clean_label_system <$> sort ["sysB+sysA"; "sysC"]
  ∧ out ≡ₚ normalize_as_specified ("sysB+sysA" +:+ String "=" "sysC")
  ∧ Forall (λ x, Sorted String.le (split "+" x) ∧ clean_label_system x = x) out
  ∧ (plus_free "sysB+sysA" → plus_free "sysC" →
     out = sort ["sysB+sysA"; "sysC"]
     ∧ out = normalize_as_specified ("sysB+sysA" +:+ String "=" "sysC")
     ∧ Sorted String.le out).
Proof.
  apply (extract_system_ids_from_label_spec "=" "sysB+sysA" "sysC").
  - solve_separator.
  - repeat constructor.
  - repeat constructor.
Defined.

(** C2 as stated fails: the operands of ["b+a>a+c"] are sorted before they
    are cleaned, so the output is not the sorted pair that cleaning first
    and sorting last gives. *)
Lemma extract_system_ids_from_label_unsorted :
  let label := "b+a" +:+ String ">" "a+c" in
  separator_free "b+a" ∧ separator_free "a+c"
  ∧ extract_system_ids_from_label label = ["a+c"; "a+b"]
  ∧ normalize_as_specified label = ["a+b"; "a+c"]
  ∧ ¬ Sorted String.le (extract_system_ids_from_label label).
Proof.
  repeat split; try (by repeat constructor); try (vm_compute; reflexivity).
  intros Hs. vm_compute in Hs. inversion Hs as [|?? _ Hd]; subst.
  inversion Hd as [|?? Hle]; subst. exact Hle.
Qed.

(** ** Direction does not matter, and normalising again *)

Lemma extract_swap (sep1 sep2 : ascii) (a b : string) :
  sep1 ∈ separators → sep2 ∈ separators →
  separator_free a → separator_free b →
  extract_system_ids_from_label (a +:+ String sep1 b)
  = extract_system_ids_from_label (b +:+ String sep2 a).
Proof.
  intros. rewrite !extract_operands by done.
  f_equal. apply sort_unique, Permutation_swap.
Qed.

Lemma set_eqb_perm (l1 l2 : list string) : l1 ≡ₚ l2 → set_eqb l1 l2 = true.
Proof.
  intros Hp. unfold set_eqb. apply bool_decide_eq_true.
  apply set_eq. intros x. rewrite !elem_of_list_to_set. by rewrite Hp.
Qed.

(** C3, as the code has it.  For operands [a], [b] without separator the
    labels [a>b], [b<a] and [a=b] normalise to the same list.  Joining an
    output again with any separator and normalising that label sorts the
    output: the result holds the same two strings, so the two labels stay
    comparable, and it is the very same list when no operand contains
    ['+']. *)
Theorem extract_system_ids_from_label_direction (a b : string) :
  separator_free a → separator_free b →
  let out := extract_system_ids_from_label (a +:+ ">" +:+ b) in
  extract_system_ids_from_label (b +:+ "<" +:+ a) = out
  ∧ extract_system_ids_from_label (a +:+ "=" +:+ b) = out
  ∧ ∀ sep, sep ∈ separators →
      let again := extract_system_ids_from_label (join (String sep "") out) in
      again = sort out
      ∧ again ≡ₚ out
      ∧ set_eqb again out = true
      ∧ (plus_free a → plus_free b → again = out).
Proof.
  intros Ha Hb out. subst out.
  change (">" +:+ b) with (String ">" b).
  change ("<" +:+ a) with (String "<" a).
  change ("=" +:+ b) with (String "=" b).
  set (out := extract_system_ids_from_label (a +:+ String ">" b)).
  assert (Hgt : (">"%char : ascii) ∈ separators) by solve_separator.
  assert (Hlt : ("<"%char : ascii) ∈ separators) by solve_separator.
  assert (Heq : ("="%char : ascii) ∈ separators) by solve_separator.
  split; [by apply extract_swap|].
  split.
  { unfold out. by rewrite (extract_swap "=" "<" a b), (extract_swap ">" "<" a b). }
  intros sep Hsep again.
  assert (Hout : out = clean_label_system <$> sort [a; b])
    by (by apply (extract_operands ">")).
  assert (∃ x y, sort [a; b] = [x; y] ∧ separator_free x ∧ separator_free y)
    as (x & y & Hxy & Hx & Hy).
  { rewrite sort_two. case_bool_decide; eauto 6. }
  assert (Hagain : again = sort out).
  { unfold again. rewrite Hout, Hxy. cbn [fmap list_fmap].
    rewrite join_cons. cbn [join String.concat].
    change (String sep "" +:+ ?s) with (String sep s).
    rewrite extract_operands by auto using separator_free_clean.
    apply fmap_fixed. rewrite sort_perm.
    repeat constructor; apply clean_label_system_idemp. }
  split; [done|]. split; [rewrite Hagain; apply sort_perm|].
  split; [apply set_eqb_perm; rewrite Hagain; apply sort_perm|].
  intros Hpa Hpb. rewrite Hagain. apply sort_id.
  unfold out. rewrite extract_plus_free by done. apply sort_sorted.
Qed.

Lemma extract_system_ids_from_label_direction_witness :
  let out := extract_system_ids_from_label ("sysB" +:+ ">" +:+ "sysA") in
  extract_system_ids_from_label ("sysA" +:+ "<" +:+ "sysB") = out
  ∧ extract_system_ids_from_label ("sysB" +:+ "=" +:+ "sysA") = out
  ∧ ∀ sep, sep ∈ separators →
      let again := extract_system_ids_from_label (join (String sep "") out) in
      again = sort out
      ∧ again ≡ₚ out
      ∧ set_eqb again out = true
      ∧ (plus_free "sysB" → plus_free "sysA" → again = out).
Proof.
  apply (extract_system_ids_from_label_direction "sysB" "sysA");
    repeat constructor.
Defined.

(** C3 as stated fails on operands that are tie groups: the output for
    ["b+a>a+c"] is not sorted, and normalising the label made of it gives a
    different list. *)
Lemma extract_system_ids_from_label_not_stable :
  let out := extract_system_ids_from_label ("b+a" +:+ ">" +:+ "a+c") in
  separator_free "b+a" ∧ separator_free "a+c"
  ∧ out = ["a+c"; "a+b"]
  ∧ join ">" out = "a+c>a+b"
  ∧ extract_system_ids_from_label (join ">" out) = ["a+b"; "a+c"]
  ∧ extract_system_ids_from_label (join ">" out) ≠ out.
Proof.
  repeat split; try (by repeat constructor); try (vm_compute; reflexivity).
Qed.

(** ** Pairs of positions *)

Lemma combinations_2_fmap {A B} (f : A → B) (l : list A) :
  combinations_2 (f <$> l) = prod_map f f <$> combinations_2 l.
Proof.
  induction l as [|x l IH]; [done|].
  cbn [combinations_2 fmap list_fmap]. rewrite fmap_app, IH. f_equal.
  rewrite <- !list_fmap_compose. done.
Qed.

Lemma combinations_2_seq (s n : nat) :
  combinations_2 (seq s n)
  = i ← seq s n; j ← seq (S i) (s + n - S i); [(i, j)].
Proof.
  revert s. induction n as [|n IH]; intros s; [done|].
  cbn [seq combinations_2]. rewrite bind_cons. f_equal.
  - replace (s + S n - S s)%nat with n by lia.
    induction (seq (S s) n) as [|j l IHl]; [done|].
    rewrite fmap_cons, bind_cons. by rewrite IHl.
  - rewrite IH. apply list_bind_ext; [|done]. intros i.
    by replace (S s + n - S i)%nat with (s + S n - S i)%nat by lia.
Qed.

Lemma combinations_2_index_pairs (n : nat) :
  combinations_2 (seq 0 n) = index_pairs n.
Proof. apply combinations_2_seq. Qed.

Lemma fmap_lookup_total_seq {A} `{Inhabited A} (l : list A) :
  (λ i, l !!! i) <$> seq 0 (length l) = l.
Proof.
  apply list_eq. intros i. rewrite list_lookup_fmap.
  destruct (decide (i < length l)%nat) as [Hi|Hi].
  - rewrite lookup_seq_lt by done. simpl.
    symmetry. by apply list_lookup_lookup_total_lt.
  - rewrite lookup_seq_ge by lia. simpl.
    symmetry. apply lookup_ge_None. lia.
Qed.

(** [combinations(l, 2)] visits the unordered pairs of positions. *)
Lemma combinations_2_unordered_pairs {A} `{Inhabited A} (l : list A) :
  combinations_2 l = unordered_pairs l.
Proof.
  unfold unordered_pairs. rewrite <- combinations_2_index_pairs.
  rewrite <- (fmap_lookup_total_seq l) at 1.
  rewrite combinations_2_fmap. done.
Qed.

Lemma length_combinations_2 {A} (l : list A) :
  (2 * length (combinations_2 l) = length l * (length l - 1))%nat.
Proof.
  induction l as [|x l IH]; [done|].
  cbn [combinations_2 length]. rewrite length_app, length_fmap. nia.
Qed.

Lemma length_unordered_pairs {A} `{Inhabited A} (l : list A) :
  Z.of_nat (length (unordered_pairs l))
  = Z.of_nat (length l) * (Z.of_nat (length l) - 1) / 2.
Proof.
  rewrite <- combinations_2_unordered_pairs.
  pose proof (length_combinations_2 l) as Hl.
  apply Z.div_unique_exact; [done|]. nia.
Qed.

Lemma elem_of_index_pairs (n i j : nat) :
  (i, j) ∈ index_pairs n ↔ (i < j < n)%nat.
Proof.
  unfold index_pairs. rewrite list_elem_of_bind. split.
  - intros (i' & Hj & Hi). apply list_elem_of_bind in Hj as (j' & Hij & Hj).
    apply list_elem_of_singleton in Hij. simplify_eq.
    apply elem_of_seq in Hi, Hj. lia.
  - intros Hij. exists i. split; [|apply elem_of_seq; lia].
    apply list_elem_of_bind. exists j. split; [by apply list_elem_of_singleton|].
    apply elem_of_seq. lia.
Qed.

(** ** The aggregator on well-typed judgements *)

Lemma in_str_elem_of (c : ascii) (s : string) :
  in_str c s = true ↔ c ∈ String.list_ascii_of_string s.
Proof.
  induction s as [|d s IH]; simpl.
  - split; [done|]. by intros ?%elem_of_nil.
  - rewrite elem_of_cons. destruct (decide (d = c)) as [->|Hne].
    + split; [by left|done].
    + rewrite IH. split; [by right|]. by intros [?|?].
Qed.

Lemma in_str_is_tie (label : string) : in_str "=" label = true ↔ is_tie label.
Proof. apply in_str_elem_of. Qed.

Lemma count_ties_str (labels : list string) (t : Z) :
  count_ties (PyStr <$> labels) t
  = Returned (t + Z.of_nat (length (filter is_tie labels))).
Proof.
  revert t. induction labels as [|l labels IH]; intros t.
  - simpl. f_equal. lia.
  - rewrite fmap_cons. cbn [count_ties py_in mbind outcome_bind].
    rewrite IH, filter_cons. f_equal.
    destruct (in_str "=" l) eqn:Hl.
    + rewrite decide_True by (by apply in_str_is_tie). simpl length. lia.
    + rewrite decide_False; [done|]. rewrite <- in_str_is_tie. congruence.
Qed.

Lemma set_eqb_comparable (p : string * string) :
  set_eqb (extract_system_ids_from_label p.1)
          (extract_system_ids_from_label p.2) = bool_decide (comparable p).
Proof. reflexivity. Qed.

Lemma count_pairs_str (pairs : list (string * string)) (acc : Z * Z) :
  count_pairs (prod_map PyStr PyStr <$> pairs) acc
  = Returned (acc.1 + Z.of_nat (length (filter identical pairs)),
              acc.2 + Z.of_nat (length (filter comparable pairs))).
Proof.
  revert acc. induction pairs as [|[a b] pairs IH]; intros [i c].
  - simpl. do 2 f_equal; lia.
  - rewrite fmap_cons.
    cbn [count_pairs prod_map fst snd py_extract_system_ids_from_label
         mbind outcome_bind].
    rewrite IH, !filter_cons.
    change (set_eqb (extract_system_ids_from_label a)
                    (extract_system_ids_from_label b))
      with (bool_decide (comparable (a, b))).
    case_bool_decide as Hc.
    + rewrite (decide_True (P := comparable (a, b))) by done.
      case_bool_decide as Hab.
      * rewrite decide_True by (split; [done|]; simpl; congruence).
        cbn [fst snd length]. do 2 f_equal; lia.
      * rewrite decide_False by (intros [_ ?]; simpl in *; congruence).
        cbn [fst snd length]. do 2 f_equal; lia.
    + rewrite (decide_False (P := comparable (a, b))) by done.
      rewrite decide_False by (by intros [? _]). done.
Qed.

Lemma count_items_str (groups : list (list string)) (acc : counts) :
  count_items (fmap (M := list) PyStr <$> groups) acc
  = Returned (foldl (λ a g, add_counts a (group_counts g)) acc groups).
Proof.
  revert acc. induction groups as [|g groups IH]; intros acc; [done|].
  rewrite fmap_cons. cbn [count_items foldl].
  rewrite count_ties_str. cbn [mbind outcome_bind].
  assert (Hpairs :
    (if bool_decide (1 < length (PyStr <$> g))%nat
     then count_pairs (combinations_2 (PyStr <$> g))
            (identical_cnt acc, comparable_cnt acc)
     else Returned (identical_cnt acc, comparable_cnt acc))
    = count_pairs (combinations_2 (PyStr <$> g))
        (identical_cnt acc, comparable_cnt acc)).
  { case_bool_decide as Hlen; [done|]. rewrite length_fmap in Hlen.
    destruct g as [|x [|y g]]; [done|done|simpl in Hlen; lia]. }
  rewrite Hpairs, combinations_2_fmap, count_pairs_str.
  cbn [mbind outcome_bind fst snd]. rewrite IH. do 2 f_equal.
  unfold add_counts, group_counts. cbn.
  rewrite combinations_2_unordered_pairs, length_fmap. done.
Qed.

Lemma group_by_items_typed (data : list judgement)
    (m : gmap pyval (list pyval)) :
  group_by_items (py_of_judgement <$> data) m
  = Returned (foldl (λ m j, dict_append (PyStr j.1.2) (PyStr j.2) m) m data).
Proof.
  revert m. induction data as [|j data IH]; intros m; [done|].
  rewrite fmap_cons. cbn [group_by_items py_of_judgement unpack_triple
                          mbind outcome_bind foldl].
  apply IH.
Qed.

(** Appending to one key over and over. *)
Lemma foldl_dict_append_key `{Countable K} {V} (k : K) (vs : list V)
    (m : gmap K (list V)) :
  vs ≠ [] →
  foldl (λ m v, dict_append k v m) m vs
  = <[k := default [] (m !! k) ++ vs]> m.
Proof.
  revert m. induction vs as [|v vs IH]; intros m Hne; [done|].
  cbn [foldl]. destruct vs as [|v' vs]; [done|].
  rewrite IH by done. unfold dict_append.
  rewrite lookup_insert_eq, insert_insert_eq. cbn [default from_option id].
  by rewrite <- app_assoc.
Qed.

Lemma group_by_items_one_item (item : string) (cls : list (string * string)) :
  cls ≠ [] →
  group_by_items (py_of_judgement <$> ((λ cl, (cl.1, item, cl.2)) <$> cls)) ∅
  = Returned {[PyStr item := PyStr <$> cls.*2]}.
Proof.
  intros Hne. rewrite group_by_items_typed. f_equal.
  rewrite foldl_fmap. cbn [fst snd].
  rewrite <- (foldl_fmap (λ m v, dict_append (PyStr item) v m) ∅ cls
                (λ cl, PyStr cl.2)).
  rewrite foldl_dict_append_key by (by destruct cls).
  rewrite lookup_empty, insert_empty. cbn [default from_option id app].
  by rewrite <- list_fmap_compose.
Qed.

(** C1.  For the judgements of one item, with labels [cls.*2] and [k] of
    them: the aggregator returns a tuple of counts (it does not raise and
    does not return [None]); the unordered pairs of labels number
    [k (k - 1) / 2]; [comparable] counts the pairs whose normalised operand
    sets are equal, [identical] those comparable pairs whose raw labels are
    equal, [ties] the labels containing ['='], and [total] is [k].  For
    [x>y, x>y, y<x] this gives identical 1 and comparable 3, for
    [x=y, x>y, x=y] ties 2 and total 3. *)
Theorem compute_agreement_scores_one_item
    (item : string) (cls : list (string * string)) :
  let labels := cls.*2 in
  let k := Z.of_nat (length labels) in
  let pairs := unordered_pairs labels in
  Z.of_nat (length pairs) = k * (k - 1) / 2
  ∧ compute_agreement_scores
      (py_of_judgement <$> ((λ cl, (cl.1, item, cl.2)) <$> cls))
    = Returned (RetCounts (Counts
        (Z.of_nat (length (filter identical pairs)))
        (Z.of_nat (length (filter comparable pairs)))
        (Z.of_nat (length (filter is_tie labels)))
        k))
  ∧ compute_agreement_scores
      (py_of_judgement <$>
         [("c1", "i", "x>y"); ("c2", "i", "x>y"); ("c3", "i", "y<x")])
    = Returned (RetCounts (Counts 1 3 0 3))
  ∧ compute_agreement_scores
      (py_of_judgement <$>
         [("c1", "i", "x=y"); ("c2", "i", "x>y"); ("c3", "i", "x=y")])
    = Returned (RetCounts (Counts 1 3 2 3)).
Proof.
  intros labels k pairs. split; [apply length_unordered_pairs|].
  split; [|split; vm_compute; reflexivity].
  unfold compute_agreement_scores.
  destruct (decide (cls = [])) as [->|Hne]; [done|].
  rewrite group_by_items_one_item by done. cbn [mbind outcome_bind].
  rewrite map_to_list_singleton.
  change ([(PyStr item, PyStr <$> cls.*2)].*2)
    with (fmap (M := list) PyStr <$> [labels]).
  rewrite count_items_str. done.
Qed.

(** ** The pairwise rank encoder *)

Lemma ranking_decisions_bind (r : row) :
  ranking_decisions r
  = index_pairs (length (slots r))
      ≫= ranking_decision (judgeId r) (srcIndex r) (slots r).*1 (slots r).*2.
Proof.
  unfold ranking_decisions. rewrite length_fmap.
  rewrite combinations_2_index_pairs.
  case_bool_decide as Hn; [|done].
  destruct (slots r) as [|x [|y l]]; [done|done|simpl in Hn; lia].
Qed.

Lemma lookup_slot (l : list (string * Z)) (a : nat) (s : string) (rk : Z) :
  l !! a = Some (s, rk) → l.*1 !!! a = s ∧ l.*2 !!! a = rk.
Proof.
  intros Ha. split; apply list_lookup_total_correct;
    by rewrite list_lookup_fmap, Ha.
Qed.

Lemma ranking_label_spec (sa sb : string) (ra rb : Z) :
  (ra < rb → ranking_label sa sb ra rb = sa +:+ ">" +:+ sb)
  ∧ (ra > rb → ranking_label sa sb ra rb = sa +:+ "<" +:+ sb)
  ∧ (ra = rb → ranking_label sa sb ra rb = sa +:+ "=" +:+ sb).
Proof.
  unfold ranking_label. repeat split; intros; repeat case_bool_decide; done || lia.
Qed.

Lemma length_bind_filter {A B} (P : A → Prop) `{∀ x, Decision (P x)}
    (f : A → list B) (g : A → B) (l : list A) :
  (∀ x, f x = if decide (P x) then [g x] else []) →
  length (l ≫= f) = length (filter P l).
Proof.
  intros Hf. induction l as [|x l IH]; [done|].
  rewrite bind_cons, length_app, IH, filter_cons, Hf.
  by destruct (decide (P x)).
Qed.

Lemma elem_of_ranking_decisions (r : row) (j : judgement) :
  j ∈ ranking_decisions r ↔
    ∃ a b sa sb ra rb,
      (a < b)%nat
      ∧ slots r !! a = Some (sa, ra) ∧ slots r !! b = Some (sb, rb)
      ∧ ra ≠ -1 ∧ rb ≠ -1
      ∧ is_pair_judgement r sa sb ra rb j.
Proof.
  rewrite ranking_decisions_bind, list_elem_of_bind. split.
  + intros ([a b] & Hj & Hab). apply elem_of_index_pairs in Hab.
    destruct (lookup_lt_is_Some_2 (slots r) a) as [[sa ra] Ha]; [lia|].
    destruct (lookup_lt_is_Some_2 (slots r) b) as [[sb rb] Hb]; [lia|].
    destruct (lookup_slot _ _ _ _ Ha) as [Hsa Hra].
    destruct (lookup_slot _ _ _ _ Hb) as [Hsb Hrb].
    unfold ranking_decision in Hj. rewrite Hsa, Hsb, Hra, Hrb in Hj.
    case_bool_decide as Hskip; [by apply elem_of_nil in Hj|].
    apply list_elem_of_singleton in Hj. subst j.
    exists a, b, sa, sb, ra, rb.
    repeat split; try done; try lia; cbn [fst snd];
      by apply ranking_label_spec.
  + intros (a & b & sa & sb & ra & rb & Hab & Ha & Hb & Hra & Hrb & Hj).
    exists (a, b). split.
    * destruct (lookup_slot _ _ _ _ Ha) as [Hsa Hra'].
      destruct (lookup_slot _ _ _ _ Hb) as [Hsb Hrb'].
      unfold ranking_decision. rewrite Hsa, Hsb, Hra', Hrb'.
      rewrite bool_decide_false by tauto.
      apply list_elem_of_singleton.
      destruct j as [[c i] l]. destruct Hj as (Hc & Hi & Hlt & Hgt & Heq).
      cbn [fst snd] in *. subst c i. f_equal.
      pose proof (ranking_label_spec sa sb ra rb) as (Llt & Lgt & Leq).
      destruct (Z.lt_trichotomy ra rb) as [?|[?|?]].
      -- rewrite Hlt, Llt by done. done.
      -- rewrite Heq, Leq by done. done.
      -- rewrite Hgt, Lgt by lia. done.
    * apply elem_of_index_pairs. split; [done|].
      by apply lookup_lt_Some in Hb.
Qed.

(** *** The slots and the columns of the row *)

Lemma lookup_omap_seq {B} (f : nat → option B) (n a : nat) (x : B) :
  omap f (seq 0 n) !! a = Some x
  ↔ ∃ y, (y < n)%nat ∧ f y = Some x ∧ a = length (omap f (seq 0 y)).
Proof.
  induction n as [|n IH].
  - simpl. split; [done|]. intros (y & ? & _). lia.
  - rewrite seq_S, omap_app, lookup_app_Some, IH. simpl. split.
    + intros [(y & Hy & Hf & Ha)|[Hle Hl]].
      * exists y. split; [lia|done].
      * destruct (f n) as [x'|] eqn:Hfn; simpl in Hl; [|done].
        apply list_lookup_singleton_Some in Hl as [H0 ->].
        exists n. split; [lia|]. split; [done|]. lia.
    + intros (y & Hy & Hf & Ha). destruct (decide (y = n)) as [->|Hne].
      * right. rewrite Hf. simpl. split; [lia|].
        by rewrite Ha, Nat.sub_diag.
      * left. exists y. split; [lia|done].
Qed.

Lemma length_omap_ext {A B C} (f : A → option B) (g : A → option C)
    (l : list A) :
  (∀ x, is_Some (f x) ↔ is_Some (g x)) →
  length (omap f l) = length (omap g l).
Proof.
  intros Hfg. induction l as [|x l IH]; [done|]. simpl.
  specialize (Hfg x).
  destruct (f x) as [u|], (g x) as [v|]; simpl.
  - by f_equal.
  - destruct (proj1 Hfg) as [? [=]]. by eexists.
  - destruct (proj2 Hfg) as [? [=]]. by eexists.
  - done.
Qed.

Lemma length_omap_seq_mono {B} (f : nat → option B) (y1 y2 : nat) :
  (y1 ≤ y2)%nat →
  (length (omap f (seq 0 y1)) ≤ length (omap f (seq 0 y2)))%nat.
Proof.
  induction 1 as [|y2 _ IH]; [done|].
  rewrite seq_S, omap_app, length_app. lia.
Qed.

Lemma length_omap_seq_lt {B} (f : nat → option B) (y1 y2 : nat) :
  (y1 < y2)%nat → is_Some (f y1) →
  (length (omap f (seq 0 y1)) < length (omap f (seq 0 y2)))%nat.
Proof.
  intros Hlt [x Hx].
  eapply Nat.lt_le_trans; [|apply (length_omap_seq_mono f (S y1) y2); lia].
  rewrite seq_S, omap_app, length_app. simpl. rewrite Hx. simpl. lia.
Qed.

Lemma lookup_slots (r : row) (a : nat) (sa : string) (ra : Z) :
  slots r !! a = Some (sa, ra)
  ↔ ∃ y, (y < MAX_NUMBER_OF_SYSTEMS)%nat
         ∧ systemId r y = Some sa
         ∧ ra = default (-1) (systemRank r y)
         ∧ a = length (omap (systemId r) (seq 0 y)).
Proof.
  unfold slots. rewrite lookup_omap_seq.
  assert (Hlen : ∀ y,
    length (omap (λ y, system_id ← systemId r y;
                       Some (system_id, default (-1) (systemRank r y)))
                 (seq 0 y))
    = length (omap (systemId r) (seq 0 y))).
  { intros y. apply length_omap_ext. intros y'.
    destruct (systemId r y'); simpl.
    - split; intros _; by eexists.
    - split; intros [? [=]]. }
  split.
  - intros (y & Hy & Hf & ->). exists y.
    destruct (systemId r y) as [s|] eqn:Hs; simpl in Hf; [|done].
    simplify_eq. by rewrite Hlen.
  - intros (y & Hy & Hs & -> & ->). exists y. rewrite Hs. simpl.
    by rewrite Hlen.
Qed.

Lemma slots_row_of_slots (src trg : string) (idx : Z) (judge : string)
    (l : list (string * Z)) :
  slots (row_of_slots src trg idx judge l) = take MAX_NUMBER_OF_SYSTEMS l.
Proof.
  destruct l as [|[??] [|[??] [|[??] [|[??] [|[??] ?]]]]]; reflexivity.
Qed.

Lemma elem_of_ranking_decisions_columns (r : row) (j : judgement) :
  j ∈ ranking_decisions r ↔
    ∃ ya yb sa sb,
      (ya < yb < MAX_NUMBER_OF_SYSTEMS)%nat
      ∧ systemId r ya = Some sa ∧ systemId r yb = Some sb
      ∧ default (-1) (systemRank r ya) ≠ -1
      ∧ default (-1) (systemRank r yb) ≠ -1
      ∧ is_pair_judgement r sa sb (default (-1) (systemRank r ya))
                          (default (-1) (systemRank r yb)) j.
Proof.
  rewrite elem_of_ranking_decisions. split.
  - intros (a & b & sa & sb & ra & rb & Hab & Ha & Hb & Hra & Hrb & Hj).
    apply lookup_slots in Ha as (ya & Hya & Hsa & -> & ->).
    apply lookup_slots in Hb as (yb & Hyb & Hsb & -> & ->).
    exists ya, yb, sa, sb. split; [split; [|done]|done].
    destruct (decide (ya < yb)%nat) as [?|Hge]; [done|].
    pose proof (length_omap_seq_mono (systemId r) yb ya). lia.
  - intros (ya & yb & sa & sb & [Hlt Hyb] & Hsa & Hsb & Hra & Hrb & Hj).
    exists (length (omap (systemId r) (seq 0 ya))),
           (length (omap (systemId r) (seq 0 yb))), sa, sb,
           (default (-1) (systemRank r ya)), (default (-1) (systemRank r yb)).
    split; [apply length_omap_seq_lt; [done|by eexists]|].
    split; [apply lookup_slots; exists ya; repeat split; [lia|done]|].
    split; [apply lookup_slots; exists yb; repeat split; [lia|done]|].
    done.
Qed.

(** C4.  A row with fewer than two systems gives no judgement.  Otherwise
    the judgements of a row are exactly those of the pairs of slots at
    positions [a < b] whose two ranks both differ from the skip value
    [-1], one judgement per such pair: it carries the judge, the item id
    [segment.sa.sb], and the label [sa>sb] when the first rank is lower,
    [sa<sb] when it is higher, [sa=sb] when the ranks are equal.  A row
    with one rank and one skip value gives nothing.  The slots are the id
    columns present among [system1Id] ... [system5Id], in the order of the
    columns, each with its rank column ([-1] when absent); so, in terms of
    the columns, a judgement is emitted exactly for two present id columns
    [ya < yb] whose ranks both differ from [-1], and a row holding three
    ranked systems gives the three judgements of its pairs. *)
Theorem ranking_decisions_spec (r : row) :
  ((length (slots r) < 2)%nat → ranking_decisions r = [])
  ∧ (∀ j, j ∈ ranking_decisions r ↔
       ∃ a b sa sb ra rb,
         (a < b)%nat
         ∧ slots r !! a = Some (sa, ra) ∧ slots r !! b = Some (sb, rb)
         ∧ ra ≠ -1 ∧ rb ≠ -1
         ∧ is_pair_judgement r sa sb ra rb j)
  ∧ length (ranking_decisions r)
    = length (filter (both_ranked (slots r).*2)
                     (index_pairs (length (slots r))))
  ∧ ranking_decisions
      (row_of_slots "ces" "eng" 1 "A" [("s1", 1); ("s2", -1)]) = []
  ∧ (∀ a sa ra,
       slots r !! a = Some (sa, ra)
       ↔ ∃ y, (y < MAX_NUMBER_OF_SYSTEMS)%nat
              ∧ systemId r y = Some sa
              ∧ ra = default (-1) (systemRank r y)
              ∧ a = length (omap (systemId r) (seq 0 y)))
  ∧ (∀ j, j ∈ ranking_decisions r ↔
       ∃ ya yb sa sb,
         (ya < yb < MAX_NUMBER_OF_SYSTEMS)%nat
         ∧ systemId r ya = Some sa ∧ systemId r yb = Some sb
         ∧ default (-1) (systemRank r ya) ≠ -1
         ∧ default (-1) (systemRank r yb) ≠ -1
         ∧ is_pair_judgement r sa sb (default (-1) (systemRank r ya))
                             (default (-1) (systemRank r yb)) j)
  ∧ (∀ src trg idx judge l,
       slots (row_of_slots src trg idx judge l)
       = take MAX_NUMBER_OF_SYSTEMS l)
  ∧ ranking_decisions
      (row_of_slots "ces" "eng" 1 "A" [("s1", 1); ("s2", 2); ("s3", 1)])
    = [("A", "1.s1.s2", "s1>s2"); ("A", "1.s1.s3", "s1=s3");
       ("A", "1.s2.s3", "s2<s3")].
Proof.
  split; [|split; [apply elem_of_ranking_decisions|
    split; [|split; [vm_compute; reflexivity|
      split; [apply lookup_slots|
        split; [apply elem_of_ranking_decisions_columns|
          split; [apply slots_row_of_slots|vm_compute; reflexivity]]]]]]].
  - intros Hn. unfold ranking_decisions.
    rewrite length_fmap, bool_decide_true; done.
  - rewrite ranking_decisions_bind.
    apply (length_bind_filter _ _
      (λ ab, (judgeId r,
              pretty (srcIndex r) +:+ "." +:+ ((slots r).*1 !!! ab.1)
                +:+ "." +:+ ((slots r).*1 !!! ab.2),
              ranking_label ((slots r).*1 !!! ab.1) ((slots r).*1 !!! ab.2)
                            ((slots r).*2 !!! ab.1) ((slots r).*2 !!! ab.2)))).
    intros [a b]. unfold ranking_decision, both_ranked. cbn [fst snd].
    case_bool_decide as Hskip.
    + rewrite decide_False; [done|]. tauto.
    + rewrite decide_True; [done|]. split; intros ?; apply Hskip; tauto.
Qed.

(** ** What the aggregator catches and what it lets through *)

Lemma group_by_items_triples (data : list pyobj) (m : gmap pyval (list pyval)) :
  Forall is_triple data →
  group_by_items data m = Returned (foldl group_step m data).
Proof.
  intros Hd. revert m. induction Hd as [|o data [[[c i] l] Ho] _ IH]; intros m.
  - done.
  - cbn [group_by_items foldl]. unfold group_step at 2. rewrite Ho.
    destruct o as [v|[|c' [|i' [|l' [|??]]]]]; simpl in Ho; try discriminate.
    simplify_eq. cbn [unpack_triple mbind outcome_bind].
    apply IH.
Qed.

Lemma dict_append_all_str (i l : pyval) (m : gmap pyval (list pyval)) :
  all_str_map m → is_str l → all_str_map (dict_append i l m).
Proof.
  intros Hm Hl. apply map_Forall_insert_2; [|done].
  apply Forall_app. split; [|by repeat constructor].
  destruct (m !! i) as [vs|] eqn:Hi; [|by constructor].
  apply (Hm _ _ Hi).
Qed.


Lemma foldl_group_step_all_str (data : list pyobj)
    (m : gmap pyval (list pyval)) :
  labels_are_str data → all_str_map m → all_str_map (foldl group_step m data).
Proof.
  intros Hd. revert m. induction Hd as [|o data Ho _ IH]; intros m Hm; [done|].
  cbn [foldl]. apply IH. unfold group_step.
  destruct (triple_parts o) as [[[c i] l]|] eqn:Hparts; [|done].
  apply dict_append_all_str; [done|]. apply (Ho _ eq_refl).
Qed.


Lemma all_str_fmap (vs : list pyval) :
  Forall (λ v, is_str v) vs → ∃ labels, vs = PyStr <$> labels.
Proof.
  induction 1 as [|v vs Hv _ [labels ->]]; [by exists []|].
  destruct v as [| |s]; try done. by exists (s :: labels).
Qed.

Lemma all_str_groups (groups : list (list pyval)) :
  Forall (Forall (λ v, is_str v)) groups →
  ∃ gs, groups = fmap (M := list) PyStr <$> gs.
Proof.
  induction 1 as [|g groups Hg _ [gs ->]]; [by exists []|].
  apply all_str_fmap in Hg as [labels ->]. by exists (labels :: gs).
Qed.



Lemma all_str_map_groups (m : gmap pyval (list pyval)) :
  all_str_map m →
  ∃ gs, (map_to_list m).*2 = fmap (M := list) PyStr <$> gs.
Proof.
  intros Hm. apply all_str_groups.
  apply map_Forall_to_list in Hm.
  apply Forall_fmap. eapply Forall_impl; [exact Hm|]. by intros [k vs].
Qed.


Lemma length_filter_impl {A} (P Q : A → Prop)
    `{∀ x, Decision (P x)} `{∀ x, Decision (Q x)} (l : list A) :
  (∀ x, P x → Q x) → (length (filter P l) ≤ length (filter Q l))%nat.
Proof.
  intros HPQ. induction l as [|x l IH]; [done|].
  rewrite !filter_cons. destruct (decide (P x)) as [HP|HP].
  - rewrite decide_True by auto. simpl. lia.
  - destruct (decide (Q x)); simpl; lia.
Qed.

Lemma valid_group_counts (labels : list string) :
  valid_counts (group_counts labels).
Proof.
  unfold valid_counts, group_counts. cbn.
  pose proof (length_filter_impl identical comparable
                (unordered_pairs labels)) as Hic.
  pose proof (length_filter is_tie labels) as Ht.
  split; split; try lia. apply inj_le, Hic. by intros p [? _].
Qed.

Lemma valid_add_counts (x y : counts) :
  valid_counts x → valid_counts y → valid_counts (add_counts x y).
Proof. unfold valid_counts, add_counts. cbn. lia. Qed.

Lemma valid_foldl_group_counts (groups : list (list string)) (acc : counts) :
  valid_counts acc →
  valid_counts (foldl (λ a g, add_counts a (group_counts g)) acc groups).
Proof.
  revert acc. induction groups as [|g groups IH]; intros acc Hacc; [done|].
  cbn [foldl]. apply IH. apply valid_add_counts; [done|apply valid_group_counts].
Qed.

(** On triples with string labels the aggregator returns valid counts. *)
Lemma compute_agreement_scores_str (data : list pyobj) :
  Forall is_triple data → labels_are_str data →
  ∃ c, compute_agreement_scores data = Returned (RetCounts c)
       ∧ valid_counts c.
Proof.
  intros Ht Hs. unfold compute_agreement_scores.
  rewrite group_by_items_triples by done. cbn [mbind outcome_bind].
  destruct (all_str_map_groups (foldl group_step ∅ data)) as [gs ->].
  { apply foldl_group_step_all_str; [done|]. apply map_Forall_empty. }
  rewrite count_items_str. eexists. split; [done|].
  apply valid_foldl_group_counts. unfold valid_counts. cbn. lia.
Qed.




(** ** The scores of a language pair are valid counts *)

Lemma py_of_judgement_triples (work : list judgement) :
  Forall is_triple (py_of_judgement <$> work)
  ∧ labels_are_str (py_of_judgement <$> work).
Proof.
  split; apply Forall_fmap, Forall_forall; intros [[c i] l] _; simpl.
  - by eexists.
  - intros t Ht. by simplify_eq.
Qed.

Lemma pool_apply_valid (work : list judgement) :
  Forall valid_return (pool_apply work).
Proof.
  unfold pool_apply.
  destruct (py_of_judgement_triples work) as [Ht Hs].
  destruct (compute_agreement_scores_str _ Ht Hs) as (c & -> & Hc).
  repeat constructor. by exists c.
Qed.

Lemma collect_scores_valid (args : arguments)
    (segments_data : gmap Z (list judgement)) :
  Forall valid_return (collect_scores args segments_data).
Proof.
  unfold collect_scores. apply Forall_bind, Forall_forall.
  intros [segment_id _judgements] _. simpl.
  apply Forall_bind, Forall_forall. intros work _. apply pool_apply_valid.
Qed.

Lemma sum_scores_valid (scores : list py_return) :
  Forall valid_return scores →
  ∃ c, sum_scores scores = Returned c ∧ valid_counts c.
Proof.
  induction 1 as [|r scores (x & -> & Hx) _ (s & Hs & Hv)].
  - exists (Counts 0 0 0 0). split; [done|]. unfold valid_counts. cbn. lia.
  - exists (add_counts x s). cbn [sum_scores]. rewrite Hs.
    split; [done|]. by apply valid_add_counts.
Qed.

(** ** The statistic *)

Lemma inject_Z_eq_0 (n : Z) : (inject_Z n == 0)%Q ↔ n = 0.
Proof. unfold Qeq. simpl. lia. Qed.

Lemma float_or_1_nonzero (n : Z) : ¬ (float_or_1 n == 0)%Q.
Proof.
  unfold float_or_1. rewrite inject_Z_eq_0. case_bool_decide; lia.
Qed.

Lemma float_div_or_1 (x : Q) (n : Z) :
  float_div x (float_or_1 n) = Returned (x / float_or_1 n)%Q.
Proof.
  unfold float_div. destruct (Qeq_bool (float_or_1 n) 0) eqn:Hz; [|done].
  apply Qeq_bool_iff in Hz. by apply float_or_1_nonzero in Hz.
Qed.

Lemma kappa_line_unfold (language_pair : string) (c : counts) :
  kappa_line language_pair c
  = kappa ← float_div (code_pA c - code_pE c)%Q (1 - code_pE c)%Q;
    if bool_decide (comparable_cnt c = 0) then Returned None
    else Returned (Some (ResultLine language_pair (code_pA c) (code_pE c)
                                    kappa c)).
Proof.
  unfold kappa_line. rewrite !float_div_or_1. reflexivity.
Qed.

Lemma code_pA_spec (c : counts) :
  valid_counts c → (code_pA c == spec_pA c)%Q.
Proof.
  intros [Hi _]. unfold code_pA, spec_pA, float_or_1.
  case_bool_decide as Hc; [|by rewrite decide_False].
  rewrite decide_True by done.
  replace (identical_cnt c) with 0 by lia. reflexivity.
Qed.

Lemma code_pTies_spec (c : counts) :
  valid_counts c → (code_pTies c == spec_pTies c)%Q.
Proof.
  intros [_ Ht]. unfold code_pTies, spec_pTies, float_or_1.
  case_bool_decide as Hc; [|by rewrite decide_False].
  rewrite decide_True by done.
  replace (ties_cnt c) with 0 by lia. reflexivity.
Qed.

Lemma code_pE_spec (c : counts) :
  valid_counts c → (code_pE c == spec_pE c)%Q.
Proof.
  intros Hc. unfold code_pE, spec_pE. cbv zeta.
  by rewrite (code_pTies_spec c Hc).
Qed.

Lemma float_div_zero (x y : Q) :
  (y == 0)%Q → float_div x y = Raised ZeroDivisionError.
Proof.
  intros Hy. unfold float_div.
  by rewrite (proj2 (Qeq_bool_iff y 0) Hy).
Qed.

Lemma float_div_nonzero (x y : Q) :
  ¬ (y == 0)%Q → float_div x y = Returned (x / y)%Q.
Proof.
  intros Hy. unfold float_div.
  destruct (Qeq_bool y 0) eqn:Hz; [|done].
  by apply Qeq_bool_iff in Hz.
Qed.

Lemma one_minus_eq_0 (x : Q) : (1 - x == 0)%Q ↔ (x == 1)%Q.
Proof. split; intros H; lra. Qed.

Lemma all_ties_pTies (c : counts) :
  ties_cnt c = ties_total c → 0 < ties_total c → (code_pTies c == 1)%Q.
Proof.
  intros Heq Hpos. unfold code_pTies, float_or_1.
  rewrite bool_decide_false by lia. rewrite Heq.
  apply Qmult_inv_r. rewrite inject_Z_eq_0. lia.
Qed.

Lemma all_ties_pE (c : counts) :
  ties_cnt c = ties_total c → 0 < ties_total c → (code_pE c == 1)%Q.
Proof.
  intros Heq Hpos. unfold code_pE.
  rewrite (all_ties_pTies c Heq Hpos). reflexivity.
Qed.

Lemma spec_pTies_range (c : counts) :
  valid_counts c → (0 <= spec_pTies c <= 1)%Q.
Proof.
  intros [_ Ht]. unfold spec_pTies. case_decide as Hz; [split; discriminate|].
  assert (Hpos : (0 < inject_Z (ties_total c))%Q).
  { unfold Qlt. simpl. lia. }
  split.
  - apply Qle_shift_div_l; [done|]. unfold Qle. simpl. lia.
  - apply Qle_shift_div_r; [done|]. unfold Qle. simpl. lia.
Qed.

(** With valid counts, chance agreement is 1 exactly when every label is a
    tie. *)
Lemma spec_pE_one (c : counts) :
  valid_counts c →
  (spec_pE c == 1)%Q ↔ ties_cnt c = ties_total c ∧ 0 < ties_total c.
Proof.
  intros Hc. split.
  - intros HpE. pose proof (spec_pTies_range c Hc) as [H0 H1].
    assert (Ht : (spec_pTies c == 1)%Q).
    { unfold spec_pE in HpE. cbv zeta in HpE.
      set (t := spec_pTies c) in *.
      assert (Hprod : ((t - 1) * (3 * t + 1) == 0)%Q).
      { transitivity (2 * ((t ^ 2 + ((1 - t) / 2) ^ 2 + ((1 - t) / 2) ^ 2) - 1))%Q;
          [field|]. rewrite HpE. reflexivity. }
      apply Qmult_integral in Hprod as [Hprod|Hprod]; lra. }
    unfold spec_pTies in Ht. case_decide as Hz; [discriminate|].
    destruct Hc as [_ Hc]. split; [|lia].
    assert (Hne : ¬ (inject_Z (ties_total c) == 0)%Q)
      by (rewrite inject_Z_eq_0; lia).
    apply inject_Z_injective.
    rewrite <- (Qmult_1_l (inject_Z (ties_total c))).
    rewrite <- Ht. field. done.
  - intros [Heq Hpos]. rewrite <- (code_pE_spec c Hc). by apply all_ties_pE.
Qed.

(** What a language pair with valid summed counts yields. *)
Lemma kappa_line_spec (language_pair : string) (c : counts) :
  valid_counts c →
  ((spec_pE c == 1)%Q → kappa_line language_pair c = Raised ZeroDivisionError)
  ∧ (¬ (spec_pE c == 1)%Q → comparable_cnt c = 0 →
     kappa_line language_pair c = Returned None)
  ∧ (¬ (spec_pE c == 1)%Q → comparable_cnt c ≠ 0 →
     ∃ line, kappa_line language_pair c = Returned (Some line)
       ∧ line_language_pair line = language_pair
       ∧ (line_pA line == spec_pA c)%Q
       ∧ (line_pE line == spec_pE c)%Q
       ∧ (line_kappa line == spec_kappa c)%Q
       ∧ line_scores line = c).
Proof.
  intros Hc. rewrite kappa_line_unfold.
  pose proof (code_pA_spec c Hc) as HA.
  pose proof (code_pE_spec c Hc) as HE.
  split; [|split].
  - intros H1. rewrite float_div_zero; [done|].
    apply one_minus_eq_0. by rewrite HE.
  - intros H1 Hz. rewrite float_div_nonzero.
    + cbn [mbind outcome_bind]. by rewrite bool_decide_true.
    + rewrite one_minus_eq_0, HE. done.
  - intros H1 Hz. rewrite float_div_nonzero.
    + cbn [mbind outcome_bind]. rewrite bool_decide_false by done.
      eexists. split; [done|]. cbn. repeat split; try done.
      unfold spec_kappa. by rewrite HA, HE.
    + rewrite one_minus_eq_0, HE. done.
Qed.

(** C5.  For every language pair the scores of its units sum to valid
    counts [c] (0 <= identical <= comparable, 0 <= ties <= ties_total), and
    on them the code computes pTies = ties / ties_total (0 when ties_total
    is 0), pNoTies = 1 - pTies, pE = pTies^2 + (pNoTies/2)^2 +
    (pNoTies/2)^2, pA = identical / comparable and kappa = (pA - pE) /
    (1 - pE): the printed line carries these values when comparable is not
    0 and the quotient exists; when pE is 1 the quotient does not exist and
    the division raises. *)
Theorem process_language_pair_statistic (args : arguments)
    (results_data : gmap string (gmap Z (list judgement)))
    (language_pair : string) :
  ∃ c,
    sum_scores (collect_scores args (default ∅ (results_data !! language_pair)))
    = Returned c
    ∧ valid_counts c
    ∧ (code_pTies c == spec_pTies c)%Q
    ∧ (code_pE c == spec_pE c)%Q
    ∧ (code_pA c == spec_pA c)%Q
    ∧ ((spec_pE c == 1)%Q →
       process_language_pair args results_data language_pair
       = Raised ZeroDivisionError)
    ∧ (¬ (spec_pE c == 1)%Q → comparable_cnt c = 0 →
       process_language_pair args results_data language_pair = Returned None)
    ∧ (¬ (spec_pE c == 1)%Q → comparable_cnt c ≠ 0 →
       ∃ line,
         process_language_pair args results_data language_pair
         = Returned (Some line)
         ∧ line_language_pair line = language_pair
         ∧ (line_pA line == spec_pA c)%Q
         ∧ (line_pE line == spec_pE c)%Q
         ∧ (line_kappa line == spec_kappa c)%Q
         ∧ line_scores line = c).
Proof.
  destruct (sum_scores_valid _
    (collect_scores_valid args (default ∅ (results_data !! language_pair))))
    as (c & Hsum & Hc).
  exists c. split; [done|]. split; [done|].
  split; [by apply code_pTies_spec|].
  split; [by apply code_pE_spec|].
  split; [by apply code_pA_spec|].
  unfold process_language_pair. rewrite Hsum. cbn [mbind outcome_bind].
  by apply kappa_line_spec.
Qed.

(** ** The loop over the language pairs *)

Lemma kappa_line_language_pair (language_pair : string) (c : counts)
    (line : result_line) :
  kappa_line language_pair c = Returned (Some line) →
  line_language_pair line = language_pair.
Proof.
  rewrite kappa_line_unfold.
  destruct (float_div _ _) as [k|e]; [|done]. cbn [mbind outcome_bind].
  case_bool_decide; [done|]. by intros [= <-].
Qed.

Lemma process_language_pair_line (args : arguments)
    (results_data : gmap string (gmap Z (list judgement)))
    (language_pair : string) (line : result_line) :
  process_language_pair args results_data language_pair
  = Returned (Some line) →
  line_language_pair line = language_pair.
Proof.
  unfold process_language_pair.
  destruct (sum_scores _) as [c|e]; [|done]. cbn [mbind outcome_bind].
  apply kappa_line_language_pair.
Qed.

(** Every printed line belongs to one of the pairs of the loop. *)
Lemma report_lines (args : arguments)
    (results_data : gmap string (gmap Z (list judgement)))
    (pairs : list string) :
  Forall (λ line, line_language_pair line ∈ pairs)
         (report args results_data pairs).1.
Proof.
  induction pairs as [|lp pairs IH]; [constructor|].
  cbn [report].
  destruct (process_language_pair args results_data lp) as [[line|]|e] eqn:Hp.
  - destruct (report args results_data pairs) as [ls e]. cbn [fst] in *.
    constructor.
    + rewrite (process_language_pair_line _ _ _ _ Hp). by left.
    + eapply Forall_impl; [exact IH|]. intros l Hl. by right.
  - eapply Forall_impl; [exact IH|]. intros l Hl. by right.
  - constructor.
Qed.

(** A language pair whose turn raises ends the run: nothing is printed for
    it nor for the pairs after it. *)
Lemma report_crash (args : arguments)
    (results_data : gmap string (gmap Z (list judgement)))
    (pre post : list string) (language_pair : string) (e : pyexc) :
  process_language_pair args results_data language_pair = Raised e →
  ∃ lines e',
    report args results_data (pre ++ language_pair :: post) = (lines, Some e')
    ∧ Forall (λ line, line_language_pair line ∈ pre) lines.
Proof.
  intros Hp. induction pre as [|lp pre (lines & e' & IH & Hlines)].
  - exists [], e. cbn [app report]. by rewrite Hp.
  - cbn [app report]. rewrite IH.
    destruct (process_language_pair args results_data lp) as [[line|]|e0] eqn:Hlp.
    + exists (line :: lines), e'. split; [done|]. constructor.
      * rewrite (process_language_pair_line _ _ _ _ Hlp). by left.
      * eapply Forall_impl; [exact Hlines|]. intros l Hl. by right.
    + exists lines, e'. split; [done|].
      eapply Forall_impl; [exact Hlines|]. intros l Hl. by right.
    + exists [], e0. split; [done|]. constructor.
Qed.

(** C10.  When the summed counts of a language pair have ties equal to
    ties_total and ties_total positive, pTies is 1 and pE is 1, so the
    kappa division raises [ZeroDivisionError] whatever the comparable
    count: the turn of that pair raises, and the run ends with an exception
    having printed lines for earlier pairs only. *)
Theorem all_ties_crash (args : arguments)
    (results_data : gmap string (gmap Z (list judgement)))
    (language_pair : string) (c : counts) :
  sum_scores (collect_scores args (default ∅ (results_data !! language_pair)))
  = Returned c →
  ties_cnt c = ties_total c → 0 < ties_total c →
  (code_pTies c == 1)%Q
  ∧ (code_pE c == 1)%Q
  ∧ kappa_line language_pair c = Raised ZeroDivisionError
  ∧ process_language_pair args results_data language_pair
    = Raised ZeroDivisionError
  ∧ ∀ pre post, ∃ lines e,
      report args results_data (pre ++ language_pair :: post)
      = (lines, Some e)
      ∧ Forall (λ line, line_language_pair line ∈ pre) lines.
Proof.
  intros Hsum Heq Hpos.
  assert (Hk : kappa_line language_pair c = Raised ZeroDivisionError).
  { rewrite kappa_line_unfold, float_div_zero; [done|].
    apply one_minus_eq_0. by apply all_ties_pE. }
  assert (Hp : process_language_pair args results_data language_pair
               = Raised ZeroDivisionError).
  { unfold process_language_pair. by rewrite Hsum. }
  split; [by apply all_ties_pTies|]. split; [by apply all_ties_pE|].
  split; [done|]. split; [done|].
  intros pre post. by apply report_crash with (e := ZeroDivisionError).
Qed.

Lemma all_ties_crash_witness :
  let args := Arguments_ true false in
  let results_data := read_results tied_rows in
  let c := Counts 0 0 1 1 in
  (code_pTies c == 1)%Q
  ∧ (code_pE c == 1)%Q
  ∧ kappa_line "Czech-English" c = Raised ZeroDivisionError
  ∧ process_language_pair args results_data "Czech-English"
    = Raised ZeroDivisionError
  ∧ ∀ pre post, ∃ lines e,
      report args results_data (pre ++ "Czech-English" :: post)
      = (lines, Some e)
      ∧ Forall (λ line, line_language_pair line ∈ pre) lines.
Proof.
  intros args results_data c.
  apply (all_ties_crash args results_data "Czech-English" c).
  - vm_compute. reflexivity.
  - reflexivity.
  - reflexivity.
Defined.

(** With valid counts, no comparable pair and not every label a tie, pA is
    0 and the language pair is skipped. *)
Lemma zero_comparable_skipped (language_pair : string) (c : counts) :
  valid_counts c → comparable_cnt c = 0 →
  ¬ (ties_cnt c = ties_total c ∧ 0 < ties_total c) →
  (code_pA c == 0)%Q ∧ kappa_line language_pair c = Returned None.
Proof.
  intros Hc Hz Hties. split.
  - rewrite (code_pA_spec c Hc). unfold spec_pA. by rewrite decide_True.
  - apply kappa_line_spec; [done| |done]. by rewrite spec_pE_one.
Qed.

(** C6, at the failing input.  For the single row of [tied_rows] the
    summed counts of Czech-English are (0, 0, 1, 1): comparable is 0, yet
    the pair is not skipped, because the kappa division raises
    [ZeroDivisionError] before the test [_comparable == 0] is reached.  The
    run ends there: the German-English line, which [agreeing_rows] alone
    produce and which a skip of Czech-English would leave in the output,
    is never printed. *)
Theorem zero_comparable_crash :
  sum_scores (collect_scores (Arguments_ true false)
                (default ∅ (read_results tied_rows !! "Czech-English")))
  = Returned (Counts 0 0 1 1)
  ∧ process_language_pair (Arguments_ true false) (read_results tied_rows)
      "Czech-English"
    = Raised ZeroDivisionError
  ∧ main (Arguments_ false false) tied_rows = ([], Some ZeroDivisionError)
  ∧ main (Arguments_ false false) (tied_rows ++ agreeing_rows)
    = ([], Some ZeroDivisionError)
  ∧ line_language_pair <$> (main (Arguments_ false false) agreeing_rows).1
    = ["German-English"]
  ∧ (main (Arguments_ false false) agreeing_rows).2 = None.
Proof. repeat split; vm_compute; reflexivity. Qed.

(** The sum of the scores does not depend on the order in which the units
    complete. *)
Lemma sum_scores_perm (scores scores' : list py_return) :
  scores ≡ₚ scores' → sum_scores scores = sum_scores scores'.
Proof.
  induction 1 as [|r l l' _ IH|r1 r2 l|l1 l2 l3 _ IH1 _ IH2].
  - done.
  - cbn [sum_scores]. by rewrite IH.
  - cbn [sum_scores]. destruct r1 as [x|e1], r2 as [y|e2];
      destruct (sum_scores l) as [s|e]; try done.
    cbn [mbind outcome_bind identical_cnt comparable_cnt ties_cnt ties_total].
    do 2 f_equal; lia.
  - congruence.
Qed.

(** ** Rows of other language pairs *)

Lemma read_results_foldl (rows : list row) :
  read_results rows = foldl read_row ∅ rows.
Proof. reflexivity. Qed.

Lemma results_append_lookup (k lp : string) (seg : Z) (j : judgement)
    (d : gmap string (gmap Z (list judgement))) :
  results_append k seg j d !! lp
  = if decide (k = lp)
    then Some (dict_append seg j (default ∅ (d !! lp)))
    else d !! lp.
Proof.
  unfold results_append. case_decide as Hk.
  - subst. by rewrite lookup_insert_eq.
  - by rewrite lookup_insert_ne.
Qed.

Lemma foldl_results_append_congr (k lp : string) (seg : Z)
    (js : list judgement) (d d' : gmap string (gmap Z (list judgement))) :
  d !! lp = d' !! lp →
  foldl (λ d j, results_append k seg j d) d js !! lp
  = foldl (λ d j, results_append k seg j d) d' js !! lp.
Proof.
  revert d d'. induction js as [|j js IH]; intros d d' Hd; [done|].
  cbn [foldl]. apply IH. rewrite !results_append_lookup, Hd. done.
Qed.

Lemma foldl_results_append_other (k lp : string) (seg : Z)
    (js : list judgement) (d : gmap string (gmap Z (list judgement))) :
  k ≠ lp → foldl (λ d j, results_append k seg j d) d js !! lp = d !! lp.
Proof.
  intros Hk. revert d. induction js as [|j js IH]; intros d; [done|].
  cbn [foldl]. rewrite IH, results_append_lookup. by rewrite decide_False.
Qed.

(** What is stored for a language pair depends on its own rows only. *)
Lemma read_rows_filter (P : row → Prop) `{∀ r, Decision (P r)}
    (lp : string) (rows : list row)
    (d d' : gmap string (gmap Z (list judgement))) :
  (∀ r, language_pair_of r = lp → P r) →
  d !! lp = d' !! lp →
  foldl read_row d rows !! lp = foldl read_row d' (filter P rows) !! lp.
Proof.
  intros HP. revert d d'. induction rows as [|r rows IH]; intros d d' Hd; [done|].
  rewrite filter_cons. cbn [foldl]. destruct (decide (P r)) as [Hr|Hr].
  - cbn [foldl]. apply IH. unfold read_row.
    by apply foldl_results_append_congr.
  - apply IH. unfold read_row. rewrite foldl_results_append_other; [done|].
    intros Hlp. by apply Hr, HP.
Qed.

Lemma process_language_pair_ext (args : arguments)
    (d d' : gmap string (gmap Z (list judgement))) (lp : string) :
  d !! lp = d' !! lp →
  process_language_pair args d lp = process_language_pair args d' lp.
Proof. intros Hd. unfold process_language_pair. by rewrite Hd. Qed.

Lemma report_ext (args : arguments)
    (d d' : gmap string (gmap Z (list judgement))) (pairs : list string) :
  (∀ lp, lp ∈ pairs → d !! lp = d' !! lp) →
  report args d pairs = report args d' pairs.
Proof.
  induction pairs as [|lp pairs IH]; intros Hd; [done|].
  cbn [report].
  rewrite (process_language_pair_ext args d d' lp) by (apply Hd; by left).
  rewrite IH; [done|]. intros lp' Hlp'. apply Hd. by right.
Qed.

(** C9.  The loop runs over the twelve pairs of [language_pairs] only:
    every printed line belongs to one of them, and the run is the same
    with and without the rows of any other language pair, whose judgements
    are stored and never read.  The code [hin] has the name [Hindi], and
    [Hindi-English] is not among the twelve. *)
Theorem other_language_pairs_dropped (args : arguments) (rows : list row) :
  length language_pairs = 12%nat
  ∧ Forall (λ line, line_language_pair line ∈ language_pairs)
           (main args rows).1
  ∧ main args rows = main args (reported_rows rows)
  ∧ (∀ idx judge l,
       language_pair_of (row_of_slots "hin" "eng" idx judge l)
       = "Hindi-English")
  ∧ "Hindi-English" ∉ language_pairs.
Proof.
  split; [done|]. split; [apply report_lines|]. split; [|split].
  - unfold main. apply report_ext. intros lp Hlp.
    rewrite !read_results_foldl. unfold reported_rows.
    apply read_rows_filter; [|done]. by intros r ->.
  - intros idx judge l. vm_compute. reflexivity.
  - intros Hin. apply list_elem_of_In in Hin. simpl in Hin.
    intuition discriminate.
Qed.

(** ** Grouping with [defaultdict(list)] *)

Lemma foldl_dict_append_lookup {A V} `{Countable K} (f : A → K) (g : A → V)
    (l : list A) (m : gmap K (list V)) (k : K) :
  foldl (λ m a, dict_append (f a) (g a) m) m l !! k
  = match g <$> filter (λ a, f a = k) l with
    | [] => m !! k
    | vs => Some (default [] (m !! k) ++ vs)
    end.
Proof.
  revert m. induction l as [|a l IH]; intros m; [done|].
  cbn [foldl]. rewrite IH, filter_cons. unfold dict_append at 1 2.
  destruct (decide (f a = k)) as [->|Hne].
  - rewrite lookup_insert_eq, fmap_cons. cbn [default from_option id].
    destruct (g <$> filter _ l) as [|v vs]; [done|].
    by rewrite <- app_assoc.
  - by rewrite lookup_insert_ne.
Qed.

Lemma group_lookup {A V} `{Countable K} (f : A → K) (g : A → V)
    (l : list A) (k : K) (vs : list V) :
  foldl (λ m a, dict_append (f a) (g a) m) ∅ l !! k = Some vs
  ↔ vs = g <$> filter (λ a, f a = k) l ∧ vs ≠ [].
Proof.
  rewrite foldl_dict_append_lookup, lookup_empty.
  destruct (g <$> filter (λ a, f a = k) l) as [|v vs'].
  - split; [done|]. by intros [-> ?].
  - cbn [default from_option id app]. split.
    + by intros [= <-].
    + by intros [-> _].
Qed.

Lemma group_by_coder_lookup (js : list judgement) (c : string)
    (cjs : list judgement) :
  group_by_coder js !! c = Some cjs ↔ cjs = judgements_of js c ∧ cjs ≠ [].
Proof.
  unfold group_by_coder, judgements_of.
  rewrite (group_lookup (λ j : judgement, j.1.1) id js c cjs).
  by rewrite list_fmap_id.
Qed.

Lemma group_coder_items_lookup (cjs : list judgement) (i : string)
    (ls : list string) :
  group_coder_items cjs !! i = Some ls
  ↔ ls = snd <$> filter (λ j, j.1.2 = i) cjs ∧ ls ≠ [].
Proof.
  unfold group_coder_items.
  apply (group_lookup (λ j : judgement, j.1.2) snd cjs i ls).
Qed.

(** ** Intra-annotator units *)

Lemma coder_units_eligible (js : list judgement) (c : string) :
  forallb (λ x, bool_decide (length x < 2)%nat)
          (map_to_list (group_coder_items (judgements_of js c))).*2 = false
  ↔ eligible js c.
Proof.
  rewrite <- not_true_iff_false, <- Is_true_true, forallb_True.
  unfold eligible. split.
  - intros Hnot. apply not_Forall_Exists in Hnot; [|apply _].
    apply Exists_exists in Hnot as (ls & Hls & Hlen).
    apply list_elem_of_fmap in Hls as ([i ls'] & -> & Hi).
    apply elem_of_map_to_list, group_coder_items_lookup in Hi as [-> _].
    exists i. unfold labels_of. cbn in Hlen.
    rewrite bool_decide_spec in Hlen. simpl. lia.
  - intros [i Hi] Hall.
    rewrite Forall_forall in Hall.
    specialize (Hall (labels_of js c i)).
    rewrite bool_decide_spec in Hall. enough (length (labels_of js c i) < 2)%nat by lia.
    apply Hall. apply list_elem_of_fmap. exists (i, labels_of js c i).
    split; [done|]. apply elem_of_map_to_list, group_coder_items_lookup.
    split; [done|]. intros Hnil. rewrite Hnil in Hi. simpl in Hi. lia.
Qed.

Lemma coder_units_spec (js : list judgement) (c : string) :
  coder_units c (judgements_of js c)
  = if forallb (λ x, bool_decide (length x < 2)%nat)
         (map_to_list (group_coder_items (judgements_of js c))).*2
    then [] else [coder_unit js c].
Proof. reflexivity. Qed.

Lemma elem_of_coder_unit (js : list judgement) (c c' i l : string) :
  (c', i, l) ∈ coder_unit js c
  ↔ ∃ d : nat, c' = c +:+ "-" +:+ pretty d ∧ labels_of js c i !! d = Some l.
Proof.
  unfold coder_unit, rename_judgements. rewrite list_elem_of_bind. split.
  - intros ([i' ls] & Hin & Hi). apply list_elem_of_fmap in Hin as (d & Heq & Hd).
    simplify_eq.
    apply elem_of_map_to_list, group_coder_items_lookup in Hi as [-> _].
    exists d. split; [done|]. apply elem_of_seq in Hd.
    apply list_lookup_lookup_total_lt. unfold labels_of. lia.
  - intros (d & -> & Hd). exists (i, labels_of js c i). split.
    + apply list_elem_of_fmap. exists d. split.
      * f_equal. symmetry. by apply list_lookup_total_correct.
      * apply elem_of_seq. apply lookup_lt_Some in Hd. lia.
    + apply elem_of_map_to_list, group_coder_items_lookup. split; [done|].
      intros Hnil. by rewrite Hnil in Hd.
Qed.

Lemma synthetic_coder_inj (c : string) (d1 d2 : nat) :
  c +:+ "-" +:+ pretty d1 = c +:+ "-" +:+ pretty d2 → d1 = d2.
Proof.
  intros Heq. apply (inj (String.app c)), (inj (String.app "-")) in Heq.
  by apply (inj pretty) in Heq.
Qed.

Lemma NoDup_coder_unit (js : list judgement) (c : string) :
  NoDup (coder_unit js c).
Proof.
  unfold coder_unit, rename_judgements. apply NoDup_bind.
  - intros [i1 ls1] [i2 ls2] [[c' i] l] H1 H2 Hy1 Hy2.
    apply list_elem_of_fmap in Hy1 as (d1 & Heq1 & _).
    apply list_elem_of_fmap in Hy2 as (d2 & Heq2 & _).
    simplify_eq.
    apply (elem_of_map_to_list (M := gmap string)) in H1.
    apply (elem_of_map_to_list (M := gmap string)) in H2.
    congruence.
  - intros [i ls] _. apply NoDup_fmap_2_strong; [|apply NoDup_seq].
    intros d1 d2 _ _ Heq. injection Heq as Heq _.
    by apply synthetic_coder_inj in Heq.
  - apply NoDup_map_to_list.
Qed.

Lemma bind_coder_units (js : list judgement)
    (entries : list (string * list judgement)) :
  Forall (λ e, e.2 = judgements_of js e.1) entries →
  entries ≫= (λ '(c, cjs), coder_units c cjs)
  = coder_unit js
      <$> (filter (λ e, forallb (λ x, bool_decide (length x < 2)%nat)
                          (map_to_list (group_coder_items e.2)).*2 = false)
                  entries).*1.
Proof.
  induction 1 as [|[c cjs] entries Hc _ IH]; [done|].
  rewrite bind_cons, filter_cons, IH. cbn [fst snd] in *. subst cjs.
  rewrite coder_units_spec.
  destruct (forallb _ _) eqn:Hall.
  - by rewrite decide_False.
  - by rewrite decide_True.
Qed.

Lemma segment_units_coders (args : arguments) (js : list judgement) :
  inter_annotator_agreement args = false →
  intra_annotator_agreement args = true →
  ∃ coders,
    NoDup coders
    ∧ (∀ c, c ∈ coders ↔ (∃ j, j ∈ js ∧ j.1.1 = c) ∧ eligible js c)
    ∧ segment_units args js = coder_unit js <$> coders.
Proof.
  intros Hinter Hintra.
  set (entries := map_to_list (group_by_coder js)).
  assert (Hentries : Forall (λ e, e.2 = judgements_of js e.1) entries).
  { apply Forall_forall. intros [c cjs] Hin.
    by apply elem_of_map_to_list, group_by_coder_lookup in Hin as [-> _]. }
  eexists. split; [|split; [|unfold segment_units; rewrite Hinter, Hintra;
                              apply (bind_coder_units js entries Hentries)]].
  - eapply sublist_NoDup; [apply (NoDup_fst_map_to_list (group_by_coder js))|].
    apply fmap_sublist, sublist_filter.
  - intros c. rewrite list_elem_of_fmap. split.
    + intros ([c0 cjs] & -> & Hin). apply list_elem_of_filter in Hin as [Hel Hin].
      apply elem_of_map_to_list, group_by_coder_lookup in Hin as [-> Hne].
      cbn [fst snd] in *. split; [|by apply coder_units_eligible].
      destruct (judgements_of js c0) as [|j cjs] eqn:Hj; [done|].
      assert (Hin : j ∈ judgements_of js c0) by (rewrite Hj; by left).
      apply list_elem_of_filter in Hin as [? ?]. by exists j.
    + intros [(j & Hj & Hc) Hel]. exists (c, judgements_of js c).
      split; [done|]. apply list_elem_of_filter. split.
      * by apply coder_units_eligible.
      * apply elem_of_map_to_list, group_by_coder_lookup. split; [done|].
        intros Hnil.
        assert (Hin : j ∈ judgements_of js c)
          by (by apply list_elem_of_filter).
        rewrite Hnil in Hin. by apply elem_of_nil in Hin.
Qed.

(** *** What reaches the aggregator *)

Lemma pool_apply_returned (unit : list judgement) :
  ∃ c, compute_agreement_scores (py_of_judgement <$> unit)
       = Returned (RetCounts c)
       ∧ pool_apply unit = [RetCounts c].
Proof.
  destruct (py_of_judgement_triples unit) as [Ht Hs].
  destruct (compute_agreement_scores_str _ Ht Hs) as (c & Hc & _).
  exists c. split; [done|]. unfold pool_apply. by rewrite Hc.
Qed.

Lemma elem_of_pool_apply (unit : list judgement) (r : py_return) :
  r ∈ pool_apply unit
  ↔ compute_agreement_scores (py_of_judgement <$> unit) = Returned r.
Proof.
  destruct (pool_apply_returned unit) as (c & Hc & ->).
  rewrite Hc, list_elem_of_singleton. split; congruence.
Qed.

Lemma elem_of_collect_scores (args : arguments)
    (segments_data : gmap Z (list judgement)) (r : py_return) :
  r ∈ collect_scores args segments_data
  ↔ ∃ seg _judgements unit,
      segments_data !! seg = Some _judgements
      ∧ unit ∈ segment_units args _judgements
      ∧ compute_agreement_scores (py_of_judgement <$> unit) = Returned r.
Proof.
  unfold collect_scores. rewrite list_elem_of_bind. split.
  - intros ([seg js] & Hr & Hin). apply elem_of_map_to_list in Hin.
    apply list_elem_of_bind in Hr as (unit & Hr & Hunit).
    apply elem_of_pool_apply in Hr. by exists seg, js, unit.
  - intros (seg & js & unit & Hin & Hunit & Hr). exists (seg, js).
    split; [|by apply elem_of_map_to_list].
    apply list_elem_of_bind. exists unit. split; [|done].
    by apply elem_of_pool_apply.
Qed.

(** C8.  In intra-annotator mode ([--intra] without [--inter]) the units of
    work of a segment are one per eligible coder: there is a duplicate-free
    list of coders, holding exactly the coders of the segment who judged
    some item twice or more, and the units are the renamed judgements of
    those coders, one unit each, handed to [compute_agreement_scores]
    through [pool_apply] like the units of the inter-annotator mode.  In
    the unit of coder [c], the judgement [(c', i, l)] occurs exactly when
    [c'] is [c-d] and [l] is the [d]-th label [c] gave to item [i]; no
    judgement occurs twice, and different occurrence indices give
    different coder ids.  Every unit handed over gives one score, the
    tuple [compute_agreement_scores] returns for it: the scores collected
    in intra-annotator mode are exactly the results of
    [compute_agreement_scores] on the units of the eligible coders of the
    stored segments, as in inter-annotator mode they are its results on
    the judgements of the stored segments. *)
Theorem segment_units_intra (args : arguments) (js : list judgement) :
  inter_annotator_agreement args = false →
  intra_annotator_agreement args = true →
  (∃ coders,
     NoDup coders
     ∧ (∀ c, c ∈ coders ↔ (∃ j, j ∈ js ∧ j.1.1 = c) ∧ eligible js c)
     ∧ segment_units args js = coder_unit js <$> coders)
  ∧ (∀ c c' i l,
       (c', i, l) ∈ coder_unit js c
       ↔ ∃ d : nat, c' = c +:+ "-" +:+ pretty d
                    ∧ labels_of js c i !! d = Some l)
  ∧ (∀ c, NoDup (coder_unit js c))
  ∧ (∀ c (d1 d2 : nat),
       c +:+ "-" +:+ pretty d1 = c +:+ "-" +:+ pretty d2 → d1 = d2)
  ∧ (∀ segments_data,
       collect_scores args segments_data
       = '(_, _judgements) ← map_to_list segments_data;
         segment_units args _judgements ≫= pool_apply)
  ∧ (∀ unit : list judgement,
       ∃ c, compute_agreement_scores (py_of_judgement <$> unit)
            = Returned (RetCounts c)
            ∧ pool_apply unit = [RetCounts c])
  ∧ (∀ segments_data r,
       r ∈ collect_scores args segments_data
       ↔ ∃ seg _judgements c,
           segments_data !! seg = Some _judgements
           ∧ ((∃ j, j ∈ _judgements ∧ j.1.1 = c) ∧ eligible _judgements c)
           ∧ compute_agreement_scores
               (py_of_judgement <$> coder_unit _judgements c)
             = Returned r)
  ∧ (∀ args' segments_data r,
       inter_annotator_agreement args' = true →
       (r ∈ collect_scores args' segments_data
        ↔ ∃ seg _judgements,
            segments_data !! seg = Some _judgements
            ∧ compute_agreement_scores (py_of_judgement <$> _judgements)
              = Returned r))
  ∧ collect_scores (Arguments_ false true)
      (<[7 := [("A", "7.s1.s2", "s1>s2"); ("B", "7.s1.s2", "s1>s2");
               ("A", "7.s1.s2", "s1<s2")]]> ∅)
    = [RetCounts (Counts 0 1 0 2)].
Proof.
  intros Hinter Hintra.
  split; [by apply segment_units_coders|].
  split; [apply elem_of_coder_unit|].
  split; [apply NoDup_coder_unit|].
  split; [apply synthetic_coder_inj|].
  split; [done|].
  split; [apply pool_apply_returned|].
  split; [|split; [|vm_compute; reflexivity]].
  - intros segments_data r. rewrite elem_of_collect_scores. split.
    + intros (seg & js' & unit & Hin & Hunit & Hr).
      destruct (segment_units_coders args js' Hinter Hintra)
        as (coders & _ & Hcoders & Heq).
      rewrite Heq in Hunit.
      apply list_elem_of_fmap in Hunit as (c & -> & Hc).
      exists seg, js', c. split; [done|]. split; [by apply Hcoders|done].
    + intros (seg & js' & c & Hin & Hc & Hr).
      destruct (segment_units_coders args js' Hinter Hintra)
        as (coders & _ & Hcoders & Heq).
      exists seg, js', (coder_unit js' c). split; [done|]. split; [|done].
      rewrite Heq. apply list_elem_of_fmap. exists c.
      split; [done|by apply Hcoders].
  - intros args' segments_data r Hi. rewrite elem_of_collect_scores. split.
    + intros (seg & js' & unit & Hin & Hunit & Hr).
      unfold segment_units in Hunit. rewrite Hi in Hunit.
      apply list_elem_of_singleton in Hunit as ->. by exists seg, js'.
    + intros (seg & js' & Hin & Hr). exists seg, js', js'.
      split; [done|]. split; [|done].
      unfold segment_units. rewrite Hi. by apply list_elem_of_singleton.
Qed.

Lemma segment_units_intra_witness :
  let args := Arguments_ false true in
  let js : list judgement :=
    [("A", "1.s1.s2", "s1>s2"); ("B", "1.s1.s2", "s1>s2");
     ("A", "1.s1.s2", "s1<s2")] in
  (∃ coders,
     NoDup coders
     ∧ (∀ c, c ∈ coders ↔ (∃ j, j ∈ js ∧ j.1.1 = c) ∧ eligible js c)
     ∧ segment_units args js = coder_unit js <$> coders)
  ∧ (∀ c c' i l,
       (c', i, l) ∈ coder_unit js c
       ↔ ∃ d : nat, c' = c +:+ "-" +:+ pretty d
                    ∧ labels_of js c i !! d = Some l)
  ∧ (∀ c, NoDup (coder_unit js c))
  ∧ (∀ c (d1 d2 : nat),
       c +:+ "-" +:+ pretty d1 = c +:+ "-" +:+ pretty d2 → d1 = d2)
  ∧ (∀ segments_data,
       collect_scores args segments_data
       = '(_, _judgements) ← map_to_list segments_data;
         segment_units args _judgements ≫= pool_apply)
  ∧ (∀ unit : list judgement,
       ∃ c, compute_agreement_scores (py_of_judgement <$> unit)
            = Returned (RetCounts c)
            ∧ pool_apply unit = [RetCounts c])
  ∧ (∀ segments_data r,
       r ∈ collect_scores args segments_data
       ↔ ∃ seg _judgements c,
           segments_data !! seg = Some _judgements
           ∧ ((∃ j, j ∈ _judgements ∧ j.1.1 = c) ∧ eligible _judgements c)
           ∧ compute_agreement_scores
               (py_of_judgement <$> coder_unit _judgements c)
             = Returned r)
  ∧ (∀ args' segments_data r,
       inter_annotator_agreement args' = true →
       (r ∈ collect_scores args' segments_data
        ↔ ∃ seg _judgements,
            segments_data !! seg = Some _judgements
            ∧ compute_agreement_scores (py_of_judgement <$> _judgements)
              = Returned r))
  ∧ collect_scores (Arguments_ false true)
      (<[7 := [("A", "7.s1.s2", "s1>s2"); ("B", "7.s1.s2", "s1>s2");
               ("A", "7.s1.s2", "s1<s2")]]> ∅)
    = [RetCounts (Counts 0 1 0 2)].
Proof.
  intros args js. apply (segment_units_intra args js); reflexivity.
Defined.

(** The repeated judgements of coder A become those of A-0 and A-1; coder
    B, who judged the item once, contributes nothing. *)
Example segment_units_intra_example :
  segment_units (Arguments_ false true)
    [("A", "1.s1.s2", "s1>s2"); ("B", "1.s1.s2", "s1>s2");
     ("A", "1.s1.s2", "s1<s2")]
  = [[("A-0", "1.s1.s2", "s1>s2"); ("A-1", "1.s1.s2", "s1<s2")]].
Proof. vm_compute. reflexivity. Qed.

(** * Further properties of the agreement script *)

(** ** The aggregator groups by item *)

Lemma filter_item_key (data : list judgement) (i : string) :
  filter (λ j : judgement, PyStr j.1.2 = PyStr i) data
  = filter (λ j : judgement, j.1.2 = i) data.
Proof.
  apply list_filter_iff. intros j. split; [by intros [= ->]|by intros ->].
Qed.

Lemma by_items_lookup (data : list judgement) (k : pyval) (vs : list pyval) :
  foldl (λ m (j : judgement), dict_append (PyStr j.1.2) (PyStr j.2) m) ∅ data
    !! k = Some vs
  ↔ ∃ i, k = PyStr i ∧ vs = PyStr <$> item_labels data i ∧ vs ≠ [].
Proof.
  rewrite (group_lookup (λ j : judgement, PyStr j.1.2)
             (λ j : judgement, PyStr j.2) data k vs).
  split.
  - intros [-> Hne].
    destruct (filter (λ j : judgement, PyStr j.1.2 = k) data)
      as [|j js] eqn:Hf; [done|].
    assert (Hj : j ∈ filter (λ j : judgement, PyStr j.1.2 = k) data)
      by (rewrite Hf; by left).
    apply list_elem_of_filter in Hj as [<- _].
    exists j.1.2. split; [done|]. split; [|by rewrite <- Hf in Hne].
    rewrite <- Hf, filter_item_key. unfold item_labels.
    by rewrite <- list_fmap_compose.
  - intros (i & -> & -> & Hne). split; [|done].
    rewrite filter_item_key. unfold item_labels.
    by rewrite <- list_fmap_compose.
Qed.

Lemma item_labels_not_nil (data : list judgement) (i : string) :
  item_labels data i ≠ [] ↔ ∃ j, j ∈ data ∧ j.1.2 = i.
Proof.
  unfold item_labels. induction data as [|j data IH].
  - split; [done|]. intros (j & Hj & _). by apply elem_of_nil in Hj.
  - rewrite filter_cons. destruct (decide (j.1.2 = i)) as [Hi|Hi].
    + split; [|done]. intros _. exists j. split; [by left|done].
    + rewrite IH. split.
      * intros (j' & Hj' & Hi'). exists j'. split; [by right|done].
      * intros (j' & Hj' & Hi'). apply elem_of_cons in Hj' as [->|Hj']; [done|].
        by exists j'.
Qed.

Lemma by_items_entries (data : list judgement) :
  let m := foldl (λ m (j : judgement),
                    dict_append (PyStr j.1.2) (PyStr j.2) m) ∅ data in
  let items := key_str <$> (map_to_list m).*1 in
  map_to_list m = (λ i, (PyStr i, PyStr <$> item_labels data i)) <$> items
  ∧ NoDup items
  ∧ ∀ i, i ∈ items ↔ ∃ j, j ∈ data ∧ j.1.2 = i.
Proof.
  intros m items.
  assert (Hentries : Forall (λ e, ∃ i, e = (PyStr i, PyStr <$> item_labels data i)
                                       ∧ item_labels data i ≠ [])
                            (map_to_list m)).
  { apply Forall_forall. intros [k vs] Hin.
    apply elem_of_map_to_list, by_items_lookup in Hin as (i & -> & -> & Hne).
    exists i. split; [done|]. intros Hnil. by rewrite Hnil in Hne. }
  split; [|split].
  - unfold items. clear -Hentries.
    induction Hentries as [|e l (i & -> & _) _ IH]; [done|].
    cbn [fmap list_fmap key_str fst]. f_equal. exact IH.
  - unfold items. apply NoDup_fmap_2_strong.
    + intros k1 k2 Hk1 Hk2 Heq.
      apply list_elem_of_fmap in Hk1 as ([k1' vs1] & -> & H1).
      apply list_elem_of_fmap in Hk2 as ([k2' vs2] & -> & H2).
      rewrite Forall_forall in Hentries.
      destruct (Hentries _ H1) as (i1 & [= -> ->] & _).
      destruct (Hentries _ H2) as (i2 & [= -> ->] & _).
      cbn in *. by subst.
    + apply NoDup_fst_map_to_list.
  - intros i. unfold items. split.
    + intros Hi. apply list_elem_of_fmap in Hi as (k & -> & Hk).
      apply list_elem_of_fmap in Hk as ([k' vs] & -> & Hin).
      rewrite Forall_forall in Hentries.
      destruct (Hentries _ Hin) as (i & [= -> ->] & Hne). cbn.
      by apply item_labels_not_nil.
    + intros (j & Hj & <-).
      apply list_elem_of_fmap. exists (PyStr j.1.2). split; [done|].
      apply list_elem_of_fmap.
      exists (PyStr j.1.2, PyStr <$> item_labels data j.1.2). split; [done|].
      apply elem_of_map_to_list, by_items_lookup.
      exists j.1.2. split; [done|]. split; [done|].
      intros Hnil. apply fmap_nil_inv in Hnil. revert Hnil.
      apply item_labels_not_nil. by exists j.
Qed.

Lemma aggregate_by_item (data : list judgement) :
  ∃ items,
    NoDup items
    ∧ (∀ i, i ∈ items ↔ ∃ j, j ∈ data ∧ j.1.2 = i)
    ∧ compute_agreement_scores (py_of_judgement <$> data)
      = Returned (RetCounts
          (foldl (λ a i, add_counts a (group_counts (item_labels data i)))
                 (Counts 0 0 0 0) items)).
Proof.
  unfold compute_agreement_scores.
  rewrite group_by_items_typed. cbn [mbind outcome_bind].
  match goal with |- context [map_to_list ?x] => set (m := x) end.
  pose proof (by_items_entries data) as H. cbv zeta in H.
  change (foldl (λ m (j : judgement),
                   dict_append (PyStr j.1.2) (PyStr j.2) m) ∅ data)
    with m in H.
  set (items := key_str <$> (map_to_list m).*1) in *.
  destruct H as (Hentries & Hnodup & Hitems).
  exists items. split; [exact Hnodup|]. split; [exact Hitems|].
  assert (Hvals : (map_to_list m).*2
                  = fmap (M := list) PyStr <$> (item_labels data <$> items)).
  { rewrite Hentries. by rewrite <- !list_fmap_compose. }
  rewrite Hvals, count_items_str. by rewrite foldl_fmap.
Qed.

(** ** Totals do not depend on the grouping *)

Lemma length_filter_or {A} (P Q : A → Prop)
    `{∀ x, Decision (P x)} `{∀ x, Decision (Q x)} (l : list A) :
  (∀ x, P x → Q x → False) →
  length (filter (λ x, P x ∨ Q x) l)
  = (length (filter P l) + length (filter Q l))%nat.
Proof.
  intros Hdisj. induction l as [|x l IH]; [done|].
  rewrite !filter_cons.
  destruct (decide (P x)) as [HP|HP], (decide (Q x)) as [HQ|HQ].
  - by destruct (Hdisj x).
  - rewrite decide_True by auto. simpl. lia.
  - rewrite decide_True by auto. simpl. lia.
  - rewrite decide_False by tauto. done.
Qed.

(** Buckets over distinct keys partition the elements they cover. *)
Lemma sum_buckets {A} (f : A → string) (l : list A) (items : list string) :
  NoDup items →
  sum_list_with (λ i, length (filter (λ x, f x = i) l)) items
  = length (filter (λ x, f x ∈ items) l).
Proof.
  induction 1 as [|i items Hi _ IH].
  - simpl. symmetry. apply length_zero_iff_nil.
    induction l as [|x l IHl]; [done|].
    rewrite filter_cons, decide_False; [done|]. apply not_elem_of_nil.
  - cbn [sum_list_with]. rewrite IH.
    rewrite <- (length_filter_or (λ x, f x = i) (λ x, f x ∈ items)).
    + f_equal. apply list_filter_iff. intros x. rewrite elem_of_cons. done.
    + intros x -> Hin. done.
Qed.

Lemma sum_buckets_all {A} (f : A → string) (l : list A) (items : list string) :
  NoDup items → (∀ x, x ∈ l → f x ∈ items) →
  sum_list_with (λ i, length (filter (λ x, f x = i) l)) items = length l.
Proof.
  intros Hnd Hcover. rewrite sum_buckets by done. f_equal.
  induction l as [|x l IH]; [done|].
  rewrite filter_cons, decide_True by (apply Hcover; by left).
  f_equal. apply IH. intros y Hy. apply Hcover. by right.
Qed.

Lemma length_filter_fmap {A B} (P : B → Prop) `{∀ y, Decision (P y)}
    (f : A → B) (l : list A) :
  length (filter P (f <$> l)) = length (filter (λ x, P (f x)) l).
Proof.
  induction l as [|x l IH]; [done|].
  rewrite fmap_cons, !filter_cons. destruct (decide (P (f x))); simpl; lia.
Qed.

Lemma sum_list_with_eq {A} (f g : A → nat) (l : list A) :
  (∀ x, f x = g x) → sum_list_with f l = sum_list_with g l.
Proof.
  intros Hfg. induction l as [|x l IH]; [done|]. simpl. by rewrite Hfg, IH.
Qed.

Lemma length_item_ties (data : list judgement) (i : string) :
  length (filter is_tie (item_labels data i))
  = length (filter (λ j : judgement, j.1.2 = i)
                   (filter (λ j : judgement, is_tie j.2) data)).
Proof.
  unfold item_labels. rewrite length_filter_fmap, !list_filter_filter.
  f_equal. apply list_filter_iff. intros j. tauto.
Qed.

Lemma length_filter_snd (data : list judgement) :
  length (filter is_tie data.*2)
  = length (filter (λ j : judgement, is_tie j.2) data).
Proof. apply length_filter_fmap. Qed.

Lemma foldl_group_counts_ties (data : list judgement) (items : list string)
    (acc : counts) :
  let c := foldl (λ a i, add_counts a (group_counts (item_labels data i)))
                 acc items in
  ties_total c
  = ties_total acc
    + Z.of_nat (sum_list_with (λ i, length (item_labels data i)) items)
  ∧ ties_cnt c
    = ties_cnt acc
      + Z.of_nat (sum_list_with
                    (λ i, length (filter is_tie (item_labels data i))) items).
Proof.
  revert acc. induction items as [|i items IH]; intros acc.
  - simpl. lia.
  - cbn [foldl sum_list_with]. cbv zeta in IH.
    destruct (IH (add_counts acc (group_counts (item_labels data i))))
      as [-> ->].
    cbn. lia.
Qed.

Lemma aggregate_totals (data : list judgement) :
  ∃ c,
    compute_agreement_scores (py_of_judgement <$> data)
    = Returned (RetCounts c)
    ∧ ties_total c = Z.of_nat (length data)
    ∧ ties_cnt c = Z.of_nat (length (filter is_tie data.*2))
    ∧ valid_counts c.
Proof.
  destruct (aggregate_by_item data) as (items & Hnd & Hitems & Hc).
  eexists. split; [exact Hc|].
  pose proof (foldl_group_counts_ties data items (Counts 0 0 0 0)) as Hsum.
  cbv zeta in Hsum. destruct Hsum as [-> ->]. cbn [ties_total ties_cnt].
  split; [|split].
  - unfold item_labels.
    rewrite (sum_list_with_eq _
               (λ i, length (filter (λ j : judgement, j.1.2 = i) data)))
      by (intros i; by rewrite length_fmap).
    rewrite (sum_buckets_all (λ j : judgement, j.1.2)); [lia|done|].
    intros j Hj. apply Hitems. by exists j.
  - rewrite (sum_list_with_eq _ _ _ (length_item_ties data)).
    rewrite (sum_buckets_all (λ j : judgement, j.1.2)); [|done|].
    + rewrite length_filter_snd. lia.
    + intros j Hj. apply Hitems. exists j. split; [|done].
      by apply list_elem_of_filter in Hj as [_ ?].
  - destruct (py_of_judgement_triples data) as [Ht Hs].
    destruct (compute_agreement_scores_str _ Ht Hs) as (c' & Hc' & Hv).
    rewrite Hc in Hc'. by injection Hc' as ->.
Qed.

(** ** The order of the judgements does not matter *)

Lemma length_filter_perm {A} (P : A → Prop) `{∀ x, Decision (P x)}
    (l l' : list A) :
  l ≡ₚ l' → length (filter P l) = length (filter P l').
Proof. intros Hp. by rewrite Hp. Qed.

Lemma length_filter_combinations_2_perm {A} (P : A * A → Prop)
    `{∀ p, Decision (P p)} (l l' : list A) :
  (∀ a b, P (a, b) ↔ P (b, a)) →
  l ≡ₚ l' →
  length (filter P (combinations_2 l))
  = length (filter P (combinations_2 l')).
Proof.
  intros Hsym. induction 1 as [|x l l' Hp IH|x y l|l1 l2 l3 _ IH1 _ IH2].
  - done.
  - cbn [combinations_2]. rewrite !filter_app, !length_app, IH. f_equal.
    apply length_filter_perm. by rewrite Hp.
  - cbn [combinations_2]. rewrite !fmap_cons. cbn [app].
    rewrite !filter_cons, !filter_app.
    destruct (decide (P (y, x))) as [Hyx|Hyx].
    + rewrite decide_True by (by apply Hsym).
      cbn [length app]. rewrite !length_app. lia.
    + rewrite decide_False by (by rewrite Hsym).
      rewrite !length_app. lia.
  - congruence.
Qed.

Lemma comparable_sym (a b : string) : comparable (a, b) ↔ comparable (b, a).
Proof. unfold comparable. cbn. split; by intros ->. Qed.

Lemma identical_sym (a b : string) : identical (a, b) ↔ identical (b, a).
Proof.
  unfold identical. rewrite (comparable_sym a b). cbn. split; by intros [? ->].
Qed.

Lemma group_counts_perm (labels labels' : list string) :
  labels ≡ₚ labels' → group_counts labels = group_counts labels'.
Proof.
  intros Hp. unfold group_counts.
  rewrite <- !combinations_2_unordered_pairs.
  rewrite (length_filter_combinations_2_perm identical _ _ identical_sym Hp).
  rewrite (length_filter_combinations_2_perm comparable _ _ comparable_sym Hp).
  by rewrite Hp.
Qed.

Lemma add_counts_swap (a x y : counts) :
  add_counts (add_counts a x) y = add_counts (add_counts a y) x.
Proof. unfold add_counts. cbn. f_equal; lia. Qed.

Lemma foldl_add_counts_ext {A} (G G' : A → counts) (l : list A)
    (acc : counts) :
  (∀ x, G x = G' x) →
  foldl (λ a x, add_counts a (G x)) acc l
  = foldl (λ a x, add_counts a (G' x)) acc l.
Proof.
  intros HG. revert acc. induction l as [|x l IH]; intros acc; [done|].
  cbn [foldl]. by rewrite HG, IH.
Qed.

Lemma foldl_add_counts_perm {A} (G : A → counts) (l l' : list A)
    (acc : counts) :
  l ≡ₚ l' →
  foldl (λ a x, add_counts a (G x)) acc l
  = foldl (λ a x, add_counts a (G x)) acc l'.
Proof.
  intros Hp. revert acc.
  induction Hp as [|x l l' _ IH|x y l|l1 l2 l3 _ IH1 _ IH2]; intros acc.
  - done.
  - cbn [foldl]. by rewrite IH.
  - cbn [foldl]. by rewrite add_counts_swap.
  - by rewrite IH1, IH2.
Qed.

Lemma item_labels_perm (data data' : list judgement) (i : string) :
  data ≡ₚ data' → item_labels data i ≡ₚ item_labels data' i.
Proof. intros Hp. unfold item_labels. by rewrite Hp. Qed.

Lemma aggregate_perm (data data' : list judgement) :
  data ≡ₚ data' →
  compute_agreement_scores (py_of_judgement <$> data)
  = compute_agreement_scores (py_of_judgement <$> data').
Proof.
  intros Hp.
  destruct (aggregate_by_item data) as (items & Hnd & Hitems & ->).
  destruct (aggregate_by_item data') as (items' & Hnd' & Hitems' & ->).
  do 2 f_equal.
  rewrite (foldl_add_counts_ext _
             (λ i, group_counts (item_labels data' i)))
    by (intros i; by apply group_counts_perm, item_labels_perm).
  apply foldl_add_counts_perm. apply NoDup_Permutation; [done..|].
  intros i. rewrite Hitems, Hitems'.
  split; intros (j & Hj & Hi); exists j; split; try done.
  - by rewrite <- Hp.
  - by rewrite Hp.
Qed.

(** ** Tie groups are compared as sets of ids *)

Lemma tie_group_perm (g g' : list string) :
  g ≡ₚ g' → tie_group g → tie_group g'.
Proof.
  intros Hp [Hne Hall]. split.
  - intros ->. by apply Permutation_nil_r in Hp.
  - by rewrite <- Hp.
Qed.

Lemma clean_label_system_join (g : list string) :
  tie_group g → clean_label_system (join "+" g) = join "+" (sort g).
Proof.
  intros [Hne Hall]. unfold clean_label_system.
  rewrite split_join; [done|done|].
  eapply Forall_impl; [exact Hall|]. by intros x [_ ?].
Qed.

Lemma separator_free_join (g : list string) :
  tie_group g → separator_free (join "+" g).
Proof.
  intros [_ Hall]. unfold separator_free, separators.
  repeat (apply Forall_cons; split); [..|constructor];
    (rewrite in_str_join by done; apply not_true_iff_false;
     rewrite <- Is_true_true, existb_True, Exists_exists;
     intros (x & Hx & Hin); rewrite Forall_forall in Hall;
     destruct (Hall x Hx) as [Hfree _];
     unfold separator_free, separators in Hfree;
     rewrite !Forall_cons in Hfree;
     destruct Hfree as (H1 & H2 & H3 & _);
     apply Is_true_true in Hin; congruence).
Qed.

Lemma list_to_set_extract (sep : ascii) (a b : string) :
  sep ∈ separators → separator_free a → separator_free b →
  list_to_set (extract_system_ids_from_label (a +:+ String sep b))
  =@{gset string} {[clean_label_system a; clean_label_system b]}.
Proof.
  intros. rewrite extract_operands by done.
  rewrite (list_to_set_perm_L _ (clean_label_system <$> [a; b])).
  - cbn [fmap list_fmap list_to_set]. by rewrite (right_id_L ∅ (∪)).
  - by rewrite sort_perm.
Qed.

Lemma tie_groups_comparable_aux (sep sep' : ascii) (g1 g1' g2 g2' : list string) :
  sep ∈ separators → sep' ∈ separators →
  tie_group g1 → tie_group g2 → g1 ≡ₚ g1' → g2 ≡ₚ g2' →
  comparable (join "+" g1 +:+ String sep (join "+" g2),
              join "+" g2' +:+ String sep' (join "+" g1')).
Proof.
  intros Hsep Hsep' Hg1 Hg2 Hp1 Hp2.
  pose proof (tie_group_perm _ _ Hp1 Hg1) as Hg1'.
  pose proof (tie_group_perm _ _ Hp2 Hg2) as Hg2'.
  unfold comparable. cbn [fst snd].
  rewrite !list_to_set_extract by auto using separator_free_join.
  rewrite !clean_label_system_join by done.
  rewrite (sort_unique _ _ Hp1), (sort_unique _ _ Hp2).
  apply (comm_L (∪)).
Qed.

(** ** Item ids *)

Lemma in_str_pretty_N_go (c : ascii) (x : N) (s : string) :
  c = "."%char ∨ c = ">"%char ∨ c = "<"%char ∨ c = "="%char ∨ c = "+"%char →
  in_str c (pretty_N_go x s) = in_str c s.
Proof.
  intros Hc. revert s. induction (N.lt_wf_0 x) as [x _ IH]; intros s.
  assert (x = 0 ∨ 0 < x)%N as [->|?] by lia.
  - by rewrite pretty_N_go_0.
  - rewrite pretty_N_go_step by done. rewrite IH by (by apply N.div_lt).
    rewrite in_str_cons. rewrite bool_decide_false; [done|].
    unfold pretty_N_char.
    destruct Hc as [->|[->|[->|[->| ->]]]]; by repeat case_match.
Qed.

Lemma in_str_pretty_Z (c : ascii) (z : Z) :
  c = "."%char ∨ c = ">"%char ∨ c = "<"%char ∨ c = "="%char ∨ c = "+"%char →
  in_str c (pretty z) = false.
Proof.
  intros Hc.
  assert (HN : ∀ n : N, in_str c (pretty n) = false).
  { intros n. unfold pretty, pretty_N. case_decide.
    - destruct Hc as [->|[->|[->|[->| ->]]]]; done.
    - by rewrite in_str_pretty_N_go. }
  destruct z as [|p|p].
  - destruct Hc as [->|[->|[->|[->| ->]]]]; done.
  - apply (HN (Npos p)).
  - change (pretty (Z.neg p)) with ("-" +:+ pretty (Npos p)).
    rewrite in_str_app, (HN (Npos p)).
    destruct Hc as [->|[->|[->|[->| ->]]]]; done.
Qed.

Lemma item_id_split (segment_id : Z) (sa sb : string) :
  dot_free sa →
  split "." (item_id segment_id sa sb)
  = pretty segment_id :: sa :: split "." sb.
Proof.
  intros Hsa.
  change (item_id segment_id sa sb)
    with (pretty segment_id +:+ String "." (sa +:+ String "." sb)).
  rewrite split_app by (apply in_str_pretty_Z; auto).
  by rewrite split_app.
Qed.

(** An item id determines the segment and the ordered pair of systems, as
    long as the first system id holds no ['.']. *)
Lemma item_id_inj (seg seg' : Z) (sa sb sa' sb' : string) :
  dot_free sa → dot_free sa' →
  item_id seg sa sb = item_id seg' sa' sb' →
  seg = seg' ∧ sa = sa' ∧ sb = sb'.
Proof.
  intros Hsa Hsa' Heq.
  assert (Hsplit : split "." (item_id seg sa sb)
                   = split "." (item_id seg' sa' sb')) by (by rewrite Heq).
  rewrite !item_id_split in Hsplit by done.
  injection Hsplit as Hseg Hs _. apply (inj pretty) in Hseg. subst.
  repeat split. unfold item_id in Heq.
  apply (inj (String.app (pretty seg'))), (inj (String.app ".")) in Heq.
  by apply (inj (String.app sa')), (inj (String.app ".")) in Heq.
Qed.

(** ** Judgements of distinct items *)

Lemma length_filter_NoDup {A} (f : A → string) (l : list A) (i : string) :
  NoDup (f <$> l) → (length (filter (λ x, f x = i) l) ≤ 1)%nat.
Proof.
  induction l as [|x l IH]; [simpl; lia|].
  rewrite fmap_cons, NoDup_cons. intros [Hx Hnd].
  rewrite filter_cons. destruct (decide (f x = i)) as [<-|Hne]; [|auto].
  assert (Hnil : filter (λ x0, f x0 = f x) l = []).
  { apply length_zero_iff_nil.
    destruct (filter (λ x0, f x0 = f x) l) as [|z zs] eqn:Hf; [done|].
    assert (Hz : z ∈ filter (λ x0, f x0 = f x) l) by (rewrite Hf; by left).
    apply list_elem_of_filter in Hz as [Hz1 Hz2].
    destruct Hx. rewrite <- Hz1. by apply list_elem_of_fmap_2. }
  rewrite Hnil. simpl. lia.
Qed.

Lemma group_counts_short (labels : list string) :
  (length labels ≤ 1)%nat →
  identical_cnt (group_counts labels) = 0
  ∧ comparable_cnt (group_counts labels) = 0.
Proof.
  destruct labels as [|a [|b labels]]; [done|done|]. simpl. lia.
Qed.

Lemma foldl_add_counts_no_pairs {A} (G : A → counts) (l : list A)
    (acc : counts) :
  (∀ x, identical_cnt (G x) = 0 ∧ comparable_cnt (G x) = 0) →
  identical_cnt (foldl (λ a x, add_counts a (G x)) acc l) = identical_cnt acc
  ∧ comparable_cnt (foldl (λ a x, add_counts a (G x)) acc l)
    = comparable_cnt acc.
Proof.
  intros HG. revert acc. induction l as [|x l IH]; intros acc; [done|].
  cbn [foldl]. destruct (IH (add_counts acc (G x))) as [-> ->].
  destruct (HG x) as [Hi Hc]. cbn. lia.
Qed.

Lemma aggregate_distinct_items (data : list judgement) :
  NoDup (data.*1.*2) →
  compute_agreement_scores (py_of_judgement <$> data)
  = Returned (RetCounts
      (Counts 0 0 (Z.of_nat (length (filter is_tie data.*2)))
              (Z.of_nat (length data)))).
Proof.
  intros Hnd.
  destruct (aggregate_totals data) as (c & Hc & Htotal & Hties & _).
  destruct (aggregate_by_item data) as (items & _ & _ & Hc').
  rewrite Hc. do 2 f_equal.
  rewrite Hc in Hc'. injection Hc' as Hc'.
  destruct (foldl_add_counts_no_pairs
              (λ i, group_counts (item_labels data i)) items (Counts 0 0 0 0))
    as [Hi Hcmp].
  { intros i. apply group_counts_short. unfold item_labels.
    rewrite length_fmap.
    apply (length_filter_NoDup (λ j : judgement, j.1.2)).
    by rewrite <- list_fmap_compose in Hnd. }
  rewrite <- Hc' in Hi, Hcmp. destruct c as [ci cc ct cn]. cbn in *.
  by subst.
Qed.

(** ** From two rows to the counts *)

Lemma ranking_decisions_two (src trg : string) (seg : Z) (judge : string)
    (x y : string) (ra rb : Z) :
  ra ≠ -1 → rb ≠ -1 →
  ranking_decisions (row_of_slots src trg seg judge [(x, ra); (y, rb)])
  = [(judge, item_id seg x y, ranking_label x y ra rb)].
Proof.
  intros Hra Hrb. unfold ranking_decisions.
  change (slots (row_of_slots src trg seg judge [(x, ra); (y, rb)]))
    with [(x, ra); (y, rb)].
  cbn [fmap list_fmap fst snd length]. rewrite bool_decide_false by lia.
  cbn [seq combinations_2 fmap list_fmap app mbind list_bind].
  unfold ranking_decision.
  cbn [lookup_total list_lookup_total fst snd srcIndex judgeId row_of_slots].
  rewrite bool_decide_false by tauto. reflexivity.
Qed.

Lemma ranking_label_compare (x y : string) (ra rb : Z) :
  ranking_label x y ra rb
  = x +:+ String (match (ra ?= rb)%Z with
                  | Lt => ">"%char | Gt => "<"%char | Eq => "="%char
                  end) y.
Proof.
  unfold ranking_label. destruct (Z.compare_spec ra rb);
    repeat case_bool_decide; done || lia.
Qed.

Lemma ranking_label_eq (x y : string) (ra rb rc rd : Z) :
  ranking_label x y ra rb = ranking_label x y rc rd
  ↔ (ra ?= rb) = (rc ?= rd).
Proof.
  rewrite !ranking_label_compare. split.
  - intros Heq. apply (inj (String.app x)) in Heq.
    by destruct (ra ?= rb), (rc ?= rd).
  - by intros ->.
Qed.

Lemma ranking_label_comparable (x y : string) (ra rb rc rd : Z) :
  separator_free x → separator_free y →
  comparable (ranking_label x y ra rb, ranking_label x y rc rd).
Proof.
  intros Hx Hy. unfold comparable. cbn [fst snd].
  rewrite !ranking_label_compare.
  rewrite !extract_operands; [done|try done..];
    destruct (_ ?= _); solve_separator.
Qed.

Lemma add_counts_zero_l (c : counts) : add_counts (Counts 0 0 0 0) c = c.
Proof. by destruct c. Qed.

Lemma aggregate_two_labels (c1 c2 item l1 l2 : string) :
  compute_agreement_scores
    (py_of_judgement <$> [(c1, item, l1); (c2, item, l2)])
  = Returned (RetCounts (group_counts [l1; l2])).
Proof.
  unfold compute_agreement_scores.
  change [(c1, item, l1); (c2, item, l2)]
    with ((λ cl : string * string, (cl.1, item, cl.2))
            <$> [(c1, l1); (c2, l2)]).
  rewrite (group_by_items_one_item item [(c1, l1); (c2, l2)]) by done.
  cbn [mbind outcome_bind]. rewrite map_to_list_singleton.
  change ([(PyStr item, PyStr <$> [(c1, l1); (c2, l2)].*2)].*2)
    with (fmap (M := list) PyStr <$> [[l1; l2]]).
  rewrite count_items_str. cbn [foldl]. by rewrite add_counts_zero_l.
Qed.

Lemma is_tie_ranking_label (x y : string) (ra rb : Z) :
  separator_free x → separator_free y →
  is_tie (ranking_label x y ra rb) ↔ ra = rb.
Proof.
  unfold separator_free, separators. rewrite !Forall_cons.
  intros (_ & _ & Hx & _) (_ & _ & Hy & _).
  rewrite <- in_str_is_tie, ranking_label_compare, in_str_app, in_str_cons.
  rewrite Hx, Hy, orb_false_r. cbn [orb].
  rewrite <- Z.compare_eq_iff. destruct (ra ?= rb); by case_bool_decide.
Qed.

Lemma same_slots_counts (src trg : string) (seg : Z) (c1 c2 x y : string)
    (ra rb rc rd : Z) :
  separator_free x → separator_free y →
  ra ≠ -1 → rb ≠ -1 → rc ≠ -1 → rd ≠ -1 →
  compute_agreement_scores
    (py_of_judgement <$>
       (ranking_decisions (row_of_slots src trg seg c1 [(x, ra); (y, rb)])
        ++ ranking_decisions (row_of_slots src trg seg c2 [(x, rc); (y, rd)])))
  = Returned (RetCounts (Counts
      (if decide ((ra ?= rb) = (rc ?= rd)) then 1 else 0)
      1
      ((if decide (ra = rb) then 1 else 0) + (if decide (rc = rd) then 1 else 0))
      2)).
Proof.
  intros Hx Hy Hra Hrb Hrc Hrd.
  rewrite !ranking_decisions_two by done. cbn [app].
  rewrite aggregate_two_labels. do 2 f_equal. unfold group_counts.
  change (unordered_pairs [ranking_label x y ra rb; ranking_label x y rc rd])
    with [(ranking_label x y ra rb, ranking_label x y rc rd)].
  rewrite !filter_cons, !filter_nil.
  rewrite (decide_True (P := comparable _))
    by (by apply ranking_label_comparable).
  f_equal.
  - destruct (decide ((ra ?= rb) = (rc ?= rd))) as [He|He].
    + rewrite decide_True; [done|]. split.
      * by apply ranking_label_comparable.
      * by apply ranking_label_eq.
    + rewrite decide_False; [done|]. intros [_ Heq].
      by apply ranking_label_eq in Heq.
  - destruct (decide (ra = rb)) as [Ha|Ha], (decide (rc = rd)) as [Hc|Hc];
      rewrite ?(decide_True (P := is_tie (ranking_label x y ra rb))),
              ?(decide_False (P := is_tie (ranking_label x y ra rb))),
              ?(decide_True (P := is_tie (ranking_label x y rc rd))),
              ?(decide_False (P := is_tie (ranking_label x y rc rd)))
        by (by rewrite is_tie_ranking_label); done.
Qed.

Lemma opposite_slots_counts (src trg : string) (seg : Z) (c1 c2 x y : string)
    (ra rb rc rd : Z) :
  x ≠ y → dot_free x → dot_free y →
  ra ≠ -1 → rb ≠ -1 → rc ≠ -1 → rd ≠ -1 →
  compute_agreement_scores
    (py_of_judgement <$>
       (ranking_decisions (row_of_slots src trg seg c1 [(x, ra); (y, rb)])
        ++ ranking_decisions
             (row_of_slots src trg seg c2 [(y, rc); (x, rd)])))
  = Returned (RetCounts (Counts 0 0
      (Z.of_nat (length (filter is_tie
         [ranking_label x y ra rb; ranking_label y x rc rd])))
      2)).
Proof.
  intros Hxy Hx Hy Hra Hrb Hrc Hrd.
  rewrite !ranking_decisions_two by done. cbn [app].
  rewrite aggregate_distinct_items; [done|].
  cbn [fmap list_fmap fst snd]. apply NoDup_cons. split.
  - intros Hin. apply list_elem_of_singleton in Hin.
    by apply item_id_inj in Hin as (_ & ? & _).
  - apply NoDup_singleton.
Qed.

(** ** What the row loop stores *)

Lemma stored_results_append (k lp : string) (s seg : Z) (j : judgement)
    (d : gmap string (gmap Z (list judgement))) :
  stored (results_append k s j d) lp seg
  = if decide (k = lp ∧ s = seg)
    then Some (default [] (stored d lp seg) ++ [j])
    else stored d lp seg.
Proof.
  unfold stored. rewrite results_append_lookup.
  destruct (decide (k = lp)) as [->|Hk].
  - cbn [default from_option id]. unfold dict_append.
    destruct (decide (s = seg)) as [->|Hs].
    + rewrite lookup_insert_eq. by rewrite decide_True.
    + rewrite lookup_insert_ne by done. rewrite decide_False; [done|tauto].
  - rewrite decide_False; [done|tauto].
Qed.

Lemma stored_foldl_results_append (k lp : string) (s seg : Z)
    (js : list judgement) (d : gmap string (gmap Z (list judgement))) :
  stored (foldl (λ d j, results_append k s j d) d js) lp seg
  = match (if decide (k = lp ∧ s = seg) then js else []) with
    | [] => stored d lp seg
    | js' => Some (default [] (stored d lp seg) ++ js')
    end.
Proof.
  revert d. induction js as [|j js IH]; intros d.
  - cbn [foldl]. by destruct (decide _).
  - cbn [foldl]. rewrite IH, stored_results_append.
    destruct (decide (k = lp ∧ s = seg)); [|done].
    cbn [default from_option id]. destruct js; [done|].
    by rewrite <- app_assoc.
Qed.

Lemma stored_foldl_read_row (lp : string) (seg : Z) (rows : list row)
    (d : gmap string (gmap Z (list judgement))) :
  stored (foldl read_row d rows) lp seg
  = match segment_judgements rows lp seg with
    | [] => stored d lp seg
    | js => Some (default [] (stored d lp seg) ++ js)
    end.
Proof.
  unfold segment_judgements. revert d.
  induction rows as [|r rows IH]; intros d; [done|].
  cbn [foldl]. rewrite IH. unfold read_row.
  rewrite stored_foldl_results_append, filter_cons.
  destruct (decide (language_pair_of r = lp ∧ srcIndex r = seg)) as [Hr|Hr].
  - rewrite bind_cons.
    destruct (ranking_decisions r) as [|j js]; [done|].
    cbn [default from_option id app].
    destruct (filter _ rows ≫= ranking_decisions) as [|j' js'].
    + by rewrite app_nil_r.
    + by rewrite <- app_assoc.
  - done.
Qed.

Lemma read_results_stored (rows : list row) (lp : string) (seg : Z) :
  stored (read_results rows) lp seg
  = match segment_judgements rows lp seg with
    | [] => None
    | js => Some js
    end.
Proof.
  rewrite read_results_foldl, stored_foldl_read_row.
  unfold stored at 1 2. rewrite lookup_empty. cbn [default from_option id].
  rewrite lookup_empty. done.
Qed.

(** ** Summing the scores *)

Lemma sum_scores_counts (cs : list counts) :
  sum_scores (RetCounts <$> cs)
  = Returned (foldr add_counts (Counts 0 0 0 0) cs).
Proof.
  induction cs as [|c cs IH]; [done|].
  rewrite fmap_cons. cbn [sum_scores foldr]. by rewrite IH.
Qed.

Lemma sum_scores_none (scores : list py_return) :
  (∃ e, RetNone e ∈ scores) ↔ sum_scores scores = Raised TypeError.
Proof.
  induction scores as [|r scores IH].
  - split; [|done]. intros (e & He). by apply elem_of_nil in He.
  - destruct r as [c|e0].
    + cbn [sum_scores]. split.
      * intros (e & He). apply elem_of_cons in He as [?|He]; [done|].
        destruct IH as [IH _]. rewrite IH; [done|]. by exists e.
      * destruct (sum_scores scores) as [s|e] eqn:Hs; [done|].
        cbn [mbind outcome_bind]. intros [= ->].
        destruct IH as [_ IH]. destruct (IH eq_refl) as (e & He).
        exists e. by right.
    + split; [done|]. intros _. exists e0. by left.
Qed.

Lemma sum_scores_raises (scores : list py_return) (e : pyexc) :
  sum_scores scores = Raised e → e = TypeError.
Proof.
  induction scores as [|[c|e0] scores IH]; [done| |].
  - cbn [sum_scores]. destruct (sum_scores scores) as [s|e']; [done|].
    cbn [mbind outcome_bind]. intros [= <-]. by apply IH.
  - cbn [sum_scores]. by intros [= <-].
Qed.

(** ** The two modes *)

Lemma pool_apply_one (work : list judgement) :
  ∃ c, pool_apply work = [RetCounts c] ∧ valid_counts c.
Proof.
  unfold pool_apply.
  destruct (py_of_judgement_triples work) as [Ht Hs].
  destruct (compute_agreement_scores_str _ Ht Hs) as (c & -> & Hc).
  by exists c.
Qed.

Lemma segment_units_inter (args : arguments) (js : list judgement) :
  inter_annotator_agreement args = true → segment_units args js = [js].
Proof. intros Hi. unfold segment_units. by rewrite Hi. Qed.

Lemma collect_scores_ext (args args' : arguments)
    (segments_data : gmap Z (list judgement)) :
  (∀ js, segment_units args js = segment_units args' js) →
  collect_scores args segments_data = collect_scores args' segments_data.
Proof.
  intros Hu. unfold collect_scores. apply list_bind_ext; [|done].
  intros [seg js]. by rewrite Hu.
Qed.

Lemma report_args_ext (args args' : arguments)
    (d : gmap string (gmap Z (list judgement))) (pairs : list string) :
  (∀ js, segment_units args js = segment_units args' js) →
  report args d pairs = report args' d pairs.
Proof.
  intros Hu. induction pairs as [|lp pairs IH]; [done|].
  cbn [report]. unfold process_language_pair.
  rewrite (collect_scores_ext args args') by done. by rewrite IH.
Qed.

Lemma length_collect_scores_inter (args : arguments)
    (segments_data : gmap Z (list judgement)) :
  inter_annotator_agreement args = true →
  length (collect_scores args segments_data) = size segments_data.
Proof.
  intros Hi. unfold collect_scores.
  rewrite <- (length_map_to_list segments_data).
  induction (map_to_list segments_data) as [|[seg js] l IH]; [done|].
  rewrite bind_cons, length_app, IH. cbn [length].
  rewrite segment_units_inter by done.
  destruct (pool_apply_one js) as (c & Hc & _).
  cbn [mbind list_bind]. rewrite app_nil_r, Hc. done.
Qed.

(** ** Rows that give no judgement *)

Lemma bind_all_nil {A B} (f : A → list B) (l : list A) :
  (∀ x, x ∈ l → f x = []) → l ≫= f = [].
Proof.
  induction l as [|x l IH]; intros Hf; [done|].
  rewrite bind_cons, Hf by (by left). apply IH. intros y Hy. apply Hf. by right.
Qed.

Lemma no_decisions (r : row) :
  (length (slots r) < 2)%nat ∨ Forall (λ s, s.2 = -1) (slots r) →
  ranking_decisions r = [].
Proof.
  intros [Hshort|Hskip].
  - unfold ranking_decisions. by rewrite length_fmap, bool_decide_true.
  - rewrite ranking_decisions_bind. apply bind_all_nil.
    intros [a b] Hab. apply elem_of_index_pairs in Hab.
    destruct (lookup_lt_is_Some_2 (slots r) a) as [[sa ra] Hsa]; [lia|].
    destruct (lookup_slot _ _ _ _ Hsa) as [_ Hra].
    rewrite Forall_forall in Hskip.
    assert (ra = -1)
      by (apply (Hskip (sa, ra)); by eapply list_elem_of_lookup_2).
    unfold ranking_decision. rewrite bool_decide_true; [done|].
    left. congruence.
Qed.

Lemma read_results_no_decisions (rows : list row) :
  Forall (λ r, ranking_decisions r = []) rows → read_results rows = ∅.
Proof.
  rewrite read_results_foldl. generalize (∅ : gmap string (gmap Z (list judgement))).
  intros d Hrows. revert d. induction Hrows as [|r rows Hr _ IH]; intros d; [done|].
  cbn [foldl]. unfold read_row at 2. rewrite Hr. apply IH.
Qed.

Lemma process_language_pair_empty (args : arguments)
    (d : gmap string (gmap Z (list judgement))) (lp : string) :
  d !! lp = None → process_language_pair args d lp = Returned None.
Proof.
  intros Hd. unfold process_language_pair, collect_scores.
  rewrite Hd. cbn [default from_option id]. rewrite map_to_list_empty.
  cbn [mbind list_bind sum_scores outcome_bind].
  rewrite kappa_line_unfold. vm_compute. reflexivity.
Qed.

Lemma report_empty (args : arguments) (pairs : list string) :
  report args ∅ pairs = ([], None).
Proof.
  induction pairs as [|lp pairs IH]; [done|].
  cbn [report]. by rewrite process_language_pair_empty, IH.
Qed.

Lemma main_no_decisions (args : arguments) (rows : list row) :
  Forall (λ r, (length (slots r) < 2)%nat ∨ Forall (λ s, s.2 = -1) (slots r))
         rows →
  main args rows = ([], None).
Proof.
  intros Hrows. unfold main. rewrite read_results_no_decisions.
  - apply report_empty.
  - eapply Forall_impl; [exact Hrows|]. intros r. apply no_decisions.
Qed.

(** ** How many judgements a row gives *)

Lemma length_slots (r : row) : (length (slots r) ≤ 5)%nat.
Proof.
  unfold slots, MAX_NUMBER_OF_SYSTEMS. cbn [seq omap list_omap].
  repeat (destruct (systemId r _); cbn [mbind option_bind]); simpl; lia.
Qed.

Lemma length_index_pairs (n : nat) :
  (2 * length (index_pairs n) = n * (n - 1))%nat.
Proof.
  rewrite <- combinations_2_index_pairs.
  pose proof (length_combinations_2 (seq 0 n)) as H.
  by rewrite length_seq in H.
Qed.

Lemma length_ranking_decisions (r : row) :
  length (ranking_decisions r)
  = length (filter (both_ranked (slots r).*2)
                   (index_pairs (length (slots r)))).
Proof.
  rewrite ranking_decisions_bind.
  apply (length_bind_filter _ _
    (λ ab, (judgeId r,
            pretty (srcIndex r) +:+ "." +:+ ((slots r).*1 !!! ab.1)
              +:+ "." +:+ ((slots r).*1 !!! ab.2),
            ranking_label ((slots r).*1 !!! ab.1) ((slots r).*1 !!! ab.2)
                          ((slots r).*2 !!! ab.1) ((slots r).*2 !!! ab.2)))).
  intros [a b]. unfold ranking_decision, both_ranked. cbn [fst snd].
  case_bool_decide as Hskip.
  - rewrite decide_False; [done|]. tauto.
  - rewrite decide_True; [done|]. split; intros ?; apply Hskip; tauto.
Qed.

Lemma ranking_decisions_bound (r : row) :
  (length (ranking_decisions r) ≤ 10)%nat
  ∧ (Forall (λ s, s.2 ≠ -1) (slots r) →
     (2 * length (ranking_decisions r)
      = length (slots r) * (length (slots r) - 1))%nat).
Proof.
  rewrite length_ranking_decisions.
  pose proof (length_slots r) as Hn.
  pose proof (length_index_pairs (length (slots r))) as Hp.
  split.
  - pose proof (length_filter (both_ranked (slots r).*2)
                  (index_pairs (length (slots r)))) as Hf.
    nia.
  - intros Hranked. rewrite <- Hp. f_equal. f_equal.
    assert (Hall : Forall (both_ranked (slots r).*2)
                          (index_pairs (length (slots r)))).
    { apply Forall_forall. intros [a b] Hab.
      apply elem_of_index_pairs in Hab. rewrite Forall_forall in Hranked.
      destruct (lookup_lt_is_Some_2 (slots r) a) as [[sa ra] Hsa]; [lia|].
      destruct (lookup_lt_is_Some_2 (slots r) b) as [[sb rb] Hsb]; [lia|].
      destruct (lookup_slot _ _ _ _ Hsa) as [_ Hra].
      destruct (lookup_slot _ _ _ _ Hsb) as [_ Hrb].
      unfold both_ranked. cbn [fst snd]. rewrite Hra, Hrb. split.
      - apply (Hranked (sa, ra)). by eapply list_elem_of_lookup_2.
      - apply (Hranked (sb, rb)). by eapply list_elem_of_lookup_2. }
    clear -Hall. induction Hall as [|x l Hx _ IH]; [done|].
    rewrite filter_cons, decide_True by done. by rewrite IH.
Qed.

(** ** Bounds on the statistic *)

Lemma code_pTies_range (c : counts) :
  valid_counts c → (0 <= code_pTies c <= 1)%Q.
Proof.
  intros Hc. rewrite (code_pTies_spec c Hc). by apply spec_pTies_range.
Qed.

Lemma code_pE_range (c : counts) :
  valid_counts c → (1 # 3 <= code_pE c <= 1)%Q.
Proof.
  intros Hc. destruct (code_pTies_range c Hc) as [H0 H1].
  unfold code_pE. set (t := code_pTies c) in *.
  assert (Hlow : (t ^ 2 + ((1 - t) / 2) ^ 2 + ((1 - t) / 2) ^ 2 - (1 # 3)
                  == (3 * t - 1) ^ 2 / 6)%Q) by field.
  assert (Hhigh : (1 - (t ^ 2 + ((1 - t) / 2) ^ 2 + ((1 - t) / 2) ^ 2)
                   == (1 - t) * (1 + 3 * t) / 2)%Q) by field.
  split.
  - assert (0 <= (3 * t - 1) ^ 2 / 6)%Q; [|lra].
    apply Qle_shift_div_l; [done|]. rewrite Qmult_0_l. apply Qsqr_nonneg.
  - assert (0 <= (1 - t) * (1 + 3 * t) / 2)%Q; [|lra].
    apply Qle_shift_div_l; [done|]. rewrite Qmult_0_l.
    apply Qmult_le_0_compat; lra.
Qed.

Lemma code_pA_range (c : counts) :
  valid_counts c → (0 <= code_pA c <= 1)%Q.
Proof.
  intros [[Hi Hic] _]. unfold code_pA.
  assert (Hpos : (0 < float_or_1 (comparable_cnt c))%Q).
  { unfold float_or_1, Qlt. simpl. case_bool_decide; lia. }
  split.
  - apply Qle_shift_div_l; [done|]. unfold Qle. simpl. lia.
  - apply Qle_shift_div_r; [done|]. unfold float_or_1, Qle. simpl.
    case_bool_decide; lia.
Qed.

Lemma code_pA_one (c : counts) :
  valid_counts c → comparable_cnt c ≠ 0 →
  (code_pA c == 1)%Q ↔ identical_cnt c = comparable_cnt c.
Proof.
  intros Hc Hne. unfold code_pA, float_or_1.
  rewrite bool_decide_false by done.
  assert (Hq : ¬ (inject_Z (comparable_cnt c) == 0)%Q)
    by (by rewrite inject_Z_eq_0).
  split.
  - intros H1. apply inject_Z_injective.
    rewrite <- (Qmult_1_l (inject_Z (comparable_cnt c))), <- H1.
    field. done.
  - intros ->. by apply Qmult_inv_r.
Qed.

Lemma printed_line (args : arguments)
    (d : gmap string (gmap Z (list judgement))) (lp : string)
    (line : result_line) :
  process_language_pair args d lp = Returned (Some line) →
  let c := line_scores line in
  valid_counts c ∧ comparable_cnt c ≠ 0
  ∧ ¬ (1 - code_pE c == 0)%Q
  ∧ line_pA line = code_pA c ∧ line_pE line = code_pE c
  ∧ line_kappa line = ((code_pA c - code_pE c) / (1 - code_pE c))%Q.
Proof.
  unfold process_language_pair.
  destruct (sum_scores_valid _ (collect_scores_valid args
              (default ∅ (d !! lp)))) as (c & -> & Hc).
  cbn [mbind outcome_bind]. rewrite kappa_line_unfold. unfold float_div.
  destruct (Qeq_bool (1 - code_pE c) 0) eqn:Hz; [done|].
  cbn [mbind outcome_bind]. case_bool_decide as Hcmp; [done|].
  intros [= <-]. cbn [line_scores line_pA line_pE line_kappa].
  split; [done|]. split; [done|]. split; [|done].
  intros H0. apply Qeq_bool_iff in H0. congruence.
Qed.

Lemma line_bounds (args : arguments)
    (d : gmap string (gmap Z (list judgement))) (lp : string)
    (line : result_line) :
  process_language_pair args d lp = Returned (Some line) →
  (0 <= line_pA line <= 1)%Q
  ∧ (1 # 3 <= line_pE line)%Q ∧ (line_pE line < 1)%Q
  ∧ (line_kappa line <= 1)%Q
  ∧ ((line_kappa line == 1)%Q
     ↔ identical_cnt (line_scores line) = comparable_cnt (line_scores line)).
Proof.
  intros Hline. apply printed_line in Hline. cbv zeta in Hline.
  destruct Hline as (Hc & Hcmp & Hz & -> & -> & ->).
  set (c := line_scores line) in *.
  pose proof (code_pA_range c Hc) as [HA0 HA1].
  pose proof (code_pE_range c Hc) as [HE0 HE1].
  assert (Hpos : (0 < 1 - code_pE c)%Q).
  { destruct (Qlt_le_dec 0 (1 - code_pE c)) as [?|Hle]; [done|].
    destruct Hz. lra. }
  split; [done|]. split; [done|]. split; [lra|]. split.
  - apply Qle_shift_div_r; [done|]. lra.
  - rewrite <- (code_pA_one c Hc Hcmp). split.
    + intros Hk.
      assert (Hmul : ((code_pA c - code_pE c) / (1 - code_pE c)
                      * (1 - code_pE c) == code_pA c - code_pE c)%Q)
        by (field; lra).
      rewrite Hk in Hmul. lra.
    + intros HA. rewrite HA. field. lra.
Qed.

(** ** When the run ends with an exception *)

Lemma process_language_pair_raises (args : arguments)
    (d : gmap string (gmap Z (list judgement))) (lp : string) :
  ∃ c,
    sum_scores (collect_scores args (default ∅ (d !! lp))) = Returned c
    ∧ valid_counts c
    ∧ (process_language_pair args d lp = Raised ZeroDivisionError
       ↔ ties_cnt c = ties_total c ∧ 0 < ties_total c)
    ∧ ∀ e, process_language_pair args d lp = Raised e
           → e = ZeroDivisionError.
Proof.
  destruct (sum_scores_valid _ (collect_scores_valid args
              (default ∅ (d !! lp)))) as (c & Hsum & Hc).
  exists c. split; [done|]. split; [done|].
  unfold process_language_pair. rewrite Hsum. cbn [mbind outcome_bind].
  destruct (kappa_line_spec lp c Hc) as (Hone & Hskip & Hline).
  rewrite <- (spec_pE_one c Hc).
  destruct (Qeq_dec (spec_pE c) 1) as [HE|HE].
  - rewrite (Hone HE). split; [done|]. by intros e [= <-].
  - destruct (decide (comparable_cnt c = 0)) as [Hz|Hz].
    + rewrite (Hskip HE Hz). split; [done|]. by intros e.
    + destruct (Hline HE Hz) as (line & -> & _). split; [done|]. by intros e.
Qed.

Lemma sum_scores_inter (entries : list (Z * list judgement)) :
  ∃ c,
    sum_scores (entries ≫= λ e, pool_apply e.2) = Returned c
    ∧ ties_total c = Z.of_nat (length (entries ≫= snd))
    ∧ ties_cnt c
      = Z.of_nat (length (filter (λ j : judgement, is_tie j.2)
                                 (entries ≫= snd))).
Proof.
  induction entries as [|[seg js] entries (c & Hc & Htotal & Hties)].
  - exists (Counts 0 0 0 0). done.
  - destruct (aggregate_totals js) as (cj & Hcj & Htj & Htiej & _).
    exists (add_counts cj c). rewrite !bind_cons. cbn [snd].
    unfold pool_apply at 1.
    rewrite Hcj. cbn [app sum_scores]. rewrite Hc. cbn [mbind outcome_bind].
    split; [done|]. cbn [add_counts ties_total ties_cnt].
    rewrite filter_app, !length_app, Htotal, Hties, Htj, Htiej.
    rewrite length_filter_snd. lia.
Qed.

Lemma length_filter_all {A} (P : A → Prop) `{∀ x, Decision (P x)}
    (l : list A) :
  length (filter P l) = length l ↔ Forall P l.
Proof.
  induction l as [|x l IH]; [by split; [constructor|]|].
  rewrite filter_cons, Forall_cons. pose proof (length_filter P l).
  destruct (decide (P x)) as [Hx|Hx]; cbn [length].
  - rewrite <- IH. split; [intros; split; [done|lia]|intros [_ ?]; lia].
  - split; [lia|tauto].
Qed.

Lemma elem_of_stored_judgements (rows : list row) (lp : string)
    (j : judgement) :
  j ∈ map_to_list (default ∅ (read_results rows !! lp)) ≫= snd
  ↔ j ∈ pair_judgements rows lp.
Proof.
  unfold pair_judgements. rewrite !list_elem_of_bind. split.
  - intros ([seg js] & Hj & Hin). cbn [snd] in Hj.
    apply elem_of_map_to_list in Hin.
    pose proof (read_results_stored rows lp seg) as Hst.
    unfold stored in Hst. rewrite Hin in Hst.
    destruct (segment_judgements rows lp seg) as [|j' js'] eqn:Hseg;
      [done|]. injection Hst as ->. rewrite <- Hseg in Hj.
    unfold segment_judgements in Hj.
    apply list_elem_of_bind in Hj as (r & Hjr & Hr).
    exists r. split; [done|].
    apply list_elem_of_filter in Hr as [[? _] ?].
    by apply list_elem_of_filter.
  - intros (r & Hjr & Hr). apply list_elem_of_filter in Hr as [Hlp Hr].
    assert (Hj : j ∈ segment_judgements rows lp (srcIndex r)).
    { unfold segment_judgements. apply list_elem_of_bind. exists r.
      split; [done|]. by apply list_elem_of_filter. }
    exists (srcIndex r, segment_judgements rows lp (srcIndex r)).
    split; [done|]. apply elem_of_map_to_list.
    pose proof (read_results_stored rows lp (srcIndex r)) as Hst.
    unfold stored in Hst. rewrite Hst.
    destruct (segment_judgements rows lp (srcIndex r)); [|done].
    by apply elem_of_nil in Hj.
Qed.

Lemma list_nil_iff_elem_of {A} (l l' : list A) :
  (∀ x, x ∈ l ↔ x ∈ l') → (l ≠ [] ↔ l' ≠ []).
Proof.
  intros H. destruct l as [|x l], l' as [|y l']; try done.
  - split; [done|]. intros _. assert (Hy : y ∈ []) by (apply H; by left).
    by apply elem_of_nil in Hy.
  - split; [|done]. intros _. assert (Hx : x ∈ []) by (apply H; by left).
    by apply elem_of_nil in Hx.
Qed.

Lemma process_language_pair_inter_raises (args : arguments)
    (rows : list row) (lp : string) :
  inter_annotator_agreement args = true →
  process_language_pair args (read_results rows) lp = Raised ZeroDivisionError
  ↔ all_ties rows lp.
Proof.
  intros Hi.
  destruct (process_language_pair_raises args (read_results rows) lp)
    as (c & Hsum & Hc & -> & _).
  destruct (sum_scores_inter
              (map_to_list (default ∅ (read_results rows !! lp))))
    as (c' & Hsum' & Htotal & Hties).
  assert (c' = c) as ->.
  { assert (Hcs : collect_scores args (default ∅ (read_results rows !! lp))
                  = map_to_list (default ∅ (read_results rows !! lp))
                      ≫= λ e, pool_apply e.2).
    { unfold collect_scores. apply list_bind_ext; [|done].
      intros [seg js]. rewrite segment_units_inter by done.
      cbn [mbind list_bind snd]. by rewrite app_nil_r. }
    rewrite Hcs, Hsum' in Hsum. by injection Hsum. }
  rewrite Htotal, Hties. unfold all_ties.
  set (stored_js := map_to_list _ ≫= snd).
  rewrite <- (list_nil_iff_elem_of stored_js (pair_judgements rows lp))
    by apply elem_of_stored_judgements.
  assert (HF : Forall (λ j : judgement, is_tie j.2) stored_js
               ↔ Forall (λ j : judgement, is_tie j.2)
                        (pair_judgements rows lp)).
  { rewrite !Forall_forall. split; intros H j Hj; apply H;
      by apply elem_of_stored_judgements. }
  rewrite <- HF, <- length_filter_all. clearbody stored_js. split.
  - intros [Heq Hpos]. split; [|by apply Nat2Z.inj in Heq].
    intros ->. simpl in Hpos. lia.
  - intros [Hne Heq]. split; [by rewrite Heq|].
    destruct stored_js; [done|]. simpl. lia.
Qed.

Lemma report_raised (args : arguments)
    (d : gmap string (gmap Z (list judgement))) (pairs : list string)
    (e : pyexc) :
  (report args d pairs).2 = Some e →
  ∃ lp, lp ∈ pairs ∧ process_language_pair args d lp = Raised e.
Proof.
  induction pairs as [|lp pairs IH]; [done|].
  cbn [report].
  destruct (process_language_pair args d lp) as [[line|]|e0] eqn:Hp.
  - destruct (report args d pairs) as [ls e1]. cbn [snd] in *.
    intros He. destruct (IH He) as (lp' & Hin & Hp').
    exists lp'. split; [by right|done].
  - intros He. destruct (IH He) as (lp' & Hin & Hp').
    exists lp'. split; [by right|done].
  - cbn [snd]. intros [= <-]. exists lp. split; [by left|done].
Qed.

Lemma report_raises (args : arguments)
    (d : gmap string (gmap Z (list judgement))) (pairs : list string)
    (lp : string) (e : pyexc) :
  lp ∈ pairs → process_language_pair args d lp = Raised e →
  ∃ e', (report args d pairs).2 = Some e'.
Proof.
  intros Hin Hp. apply list_elem_of_split in Hin as (pre & post & ->).
  destruct (report_crash args d pre post lp e Hp) as (lines & e' & -> & _).
  by exists e'.
Qed.

Lemma default_mode_inter (args : arguments) :
  intra_annotator_agreement args = false
  ∨ inter_annotator_agreement args = true →
  inter_annotator_agreement (default_mode args) = true.
Proof.
  unfold default_mode. destruct args as [[] []]; cbn; intros [?|?]; done.
Qed.

Lemma main_exception_inter (args : arguments) (rows : list row) :
  intra_annotator_agreement args = false
  ∨ inter_annotator_agreement args = true →
  ((main args rows).2 = Some ZeroDivisionError
   ↔ ∃ lp, lp ∈ language_pairs ∧ all_ties rows lp)
  ∧ ((main args rows).2 = None
     ↔ ¬ ∃ lp, lp ∈ language_pairs ∧ all_ties rows lp).
Proof.
  intros Hmode. apply default_mode_inter in Hmode. unfold main.
  set (a := default_mode args) in *. set (d := read_results rows).
  assert (Honly : ∀ e, (report a d language_pairs).2 = Some e
                       → e = ZeroDivisionError).
  { intros e He. apply report_raised in He as (lp & _ & Hp).
    by destruct (process_language_pair_raises a d lp)
      as (c & _ & _ & _ & ->%(λ H, H e Hp)). }
  assert (Hiff : (report a d language_pairs).2 = Some ZeroDivisionError
                 ↔ ∃ lp, lp ∈ language_pairs ∧ all_ties rows lp).
  { split.
    - intros He. apply report_raised in He as (lp & Hin & Hp).
      exists lp. split; [done|].
      by apply (process_language_pair_inter_raises a rows lp Hmode).
    - intros (lp & Hin & Hall).
      apply (process_language_pair_inter_raises a rows lp Hmode) in Hall.
      destruct (report_raises a d language_pairs lp _ Hin Hall) as [e He].
      by rewrite He, (Honly e He). }
  split; [done|]. rewrite <- Hiff.
  destruct (report a d language_pairs).2 as [e|] eqn:He.
  - rewrite (Honly e eq_refl). split; [done|]. by intros [].
  - split; [|done]. by intros _.
Qed.

(** * Properties of the converter *)

(** ** The aliases of the judges *)

Lemma judges_ok_empty : judges_ok ∅.
Proof. split; intros *; by rewrite lookup_empty. Qed.

Lemma judge_alias_inj (k1 k2 : nat) :
  "judge" +:+ pretty k1 = "judge" +:+ pretty k2 → k1 = k2.
Proof.
  intros Heq. apply (inj (String.app "judge")) in Heq.
  by apply (inj pretty) in Heq.
Qed.

Lemma anonymize_judge_ok (id : string) (judges : gmap string string) :
  judges_ok judges →
  let '(alias, judges') := anonymize_judge id judges in
  judges_ok judges' ∧ judges ⊆ judges' ∧ judges' !! id = Some alias
  ∧ dom judges' = {[id]} ∪ dom judges.
Proof.
  intros [Hform Hinj]. unfold anonymize_judge.
  destruct (judges !! id) as [alias|] eqn:Hid.
  - split; [done|]. split; [done|]. split; [done|].
    apply set_eq. intros x. rewrite elem_of_union, elem_of_singleton.
    split; [by right|]. intros [->|?]; [|done]. by apply elem_of_dom.
  - split; [|split; [by apply insert_subseteq|split;
      [by rewrite lookup_insert_eq|by rewrite dom_insert_L]]].
    split.
    + intros id' alias'. rewrite map_size_insert_None by done.
      destruct (decide (id = id')) as [<-|Hne].
      * rewrite lookup_insert_eq. intros [= <-].
        exists (size judges + 1)%nat. split; [lia|done].
      * rewrite lookup_insert_ne by done. intros H'.
        destruct (Hform _ _ H') as (k & Hk & ->). exists k. split; [lia|done].
    + intros id1 id2 alias.
      destruct (decide (id = id1)) as [<-|Hne1],
               (decide (id = id2)) as [<-|Hne2];
        rewrite ?lookup_insert_eq, ?lookup_insert_ne by done; try done.
      * intros [= <-] H2. destruct (Hform _ _ H2) as (k & Hk & Heq).
        apply judge_alias_inj in Heq. lia.
      * intros H1 [= <-]. destruct (Hform _ _ H1) as (k & Hk & Heq).
        apply judge_alias_inj in Heq. lia.
      * apply Hinj.
Qed.

Lemma anonymize_all_ok (ids : list string) (judges : gmap string string) :
  judges_ok judges →
  let '(aliases, judges') := anonymize_all ids judges in
  judges_ok judges' ∧ judges ⊆ judges'
  ∧ length aliases = length ids
  ∧ dom judges' = list_to_set ids ∪ dom judges
  ∧ ∀ i id alias, ids !! i = Some id → aliases !! i = Some alias →
                  judges' !! id = Some alias.
Proof.
  revert judges. induction ids as [|id ids IH]; intros judges Hok.
  - cbn. split; [done|]. split; [done|]. split; [done|].
    split; [by rewrite (left_id_L ∅ (∪))|]. by intros i ??.
  - cbn [anonymize_all].
    pose proof (anonymize_judge_ok id judges Hok) as H1.
    destruct (anonymize_judge id judges) as [alias judges1].
    destruct H1 as (Hok1 & Hsub1 & Hid & Hdom1).
    specialize (IH judges1 Hok1).
    destruct (anonymize_all ids judges1) as [aliases judges2].
    destruct IH as (Hok2 & Hsub2 & Hlen & Hdom2 & Hall).
    split; [done|]. split; [by etrans|]. split; [by cbn; rewrite Hlen|].
    split.
    + rewrite Hdom2, Hdom1. cbn [list_to_set].
      rewrite (assoc_L (∪)). f_equal. apply (comm_L (∪)).
    + intros [|i] id' alias'; cbn.
      * intros [= <-] [= <-]. by eapply lookup_weaken.
      * apply Hall.
Qed.

Lemma anonymize_all_spec (ids : list string) :
  let '(aliases, judges) := anonymize_all ids ∅ in
  length aliases = length ids
  ∧ size judges = size (list_to_set ids : gset string)
  ∧ (∀ i alias, aliases !! i = Some alias →
       ∃ k, (1 ≤ k ≤ size (list_to_set ids : gset string))%nat
            ∧ alias = "judge" +:+ pretty k)
  ∧ (∀ i j idi idj ai aj,
       ids !! i = Some idi → ids !! j = Some idj →
       aliases !! i = Some ai → aliases !! j = Some aj →
       (ai = aj ↔ idi = idj)).
Proof.
  pose proof (anonymize_all_ok ids ∅ judges_ok_empty) as H.
  destruct (anonymize_all ids ∅) as [aliases judges].
  destruct H as ([Hform Hinj] & _ & Hlen & Hdom & Hall).
  assert (Hsize : size judges = size (list_to_set ids : gset string)).
  { rewrite <- size_dom, Hdom, dom_empty_L. by rewrite (right_id_L ∅ (∪)). }
  split; [done|]. split; [done|]. split.
  - intros i alias Hi.
    destruct (lookup_lt_is_Some_2 ids i) as [id Hid].
    { rewrite <- Hlen. by eapply lookup_lt_Some. }
    rewrite <- Hsize. eapply Hform. by eapply Hall.
  - intros i j idi idj ai aj Hi Hj Hai Haj.
    pose proof (Hall _ _ _ Hi Hai) as Hmi.
    pose proof (Hall _ _ _ Hj Haj) as Hmj.
    split.
    + intros ->. by eapply Hinj.
    + intros ->. congruence.
Qed.

(** ** The systems of a ranking result *)

Lemma split_replace_char (s : string) :
  in_str "+" s = false →
  split "+" (replace_char "," "+" s) = split "," s.
Proof.
  induction s as [|c s IH]; [done|].
  rewrite in_str_cons. intros [Hc Hs]%orb_false_elim.
  apply bool_decide_eq_false in Hc. cbn [replace_char split].
  destruct (decide (c = ","%char)) as [->|Hcomma].
  - rewrite decide_True by done. by rewrite IH.
  - rewrite (decide_False (P := c = "+"%char)) by done. by rewrite IH.
Qed.

Lemma in_str_replace_char (a b : ascii) (s : string) :
  a ≠ b → in_str a (replace_char a b s) = false.
Proof.
  intros Hab. induction s as [|c s IH]; [done|].
  cbn [replace_char]. rewrite in_str_cons, IH, orb_false_r.
  apply bool_decide_eq_false. by destruct (decide (c = a)); congruence.
Qed.

Lemma extract_all_judgements_cons {R} (include_ref expand : bool)
    (system : string) (rank_i : R) (translations : list (string * R)) :
  extract_all_judgements include_ref expand ((system, rank_i) :: translations)
  = (if expand then
       system_name ← split "," system;
       if not_ref system_name || include_ref then [(system_name, rank_i)]
       else []
     else if not_ref system || include_ref
          then [(replace_char "," "+" system, rank_i)] else [])
    ++ extract_all_judgements include_ref expand translations.
Proof. unfold extract_all_judgements. by rewrite bind_cons. Qed.

Lemma expand_members {R} (include_ref : bool) (rank_i : R)
    (names : list string) :
  (system_name ← names;
   if not_ref system_name || include_ref then [(system_name, rank_i)] else [])
  = (λ n, (n, rank_i))
      <$> filter (λ n, not_ref n || include_ref) names.
Proof.
  induction names as [|n names IH]; [done|].
  rewrite bind_cons, filter_cons, IH.
  destruct (not_ref n || include_ref); [by rewrite decide_True|].
  by rewrite decide_False by (simpl; tauto).
Qed.

(** The expanded systems: every comma-separated name that is kept, with
    the rank of its translation. *)
Lemma extract_expanded {R} (include_ref : bool)
    (translations : list (string * R)) :
  extract_all_judgements include_ref true translations
  = t ← translations;
    (λ n, (n, t.2)) <$> filter (λ n, not_ref n || include_ref)
                               (split "," t.1).
Proof.
  induction translations as [|[system rank_i] ts IH]; [done|].
  rewrite extract_all_judgements_cons, bind_cons, IH.
  by rewrite expand_members.
Qed.

Lemma extract_expanded_names {R} (translations : list (string * R)) :
  Forall (λ p, not_ref p.1 ∧ in_str "," p.1 = false)
         (extract_all_judgements false true translations).
Proof.
  rewrite extract_expanded. apply Forall_bind, Forall_forall.
  intros [system rank_i] _. cbn [fst snd].
  apply Forall_fmap, Forall_forall. intros n Hn. cbn.
  apply list_elem_of_filter in Hn as [Hkeep Hin]. split.
  - by rewrite orb_false_r in Hkeep.
  - pose proof (split_pieces_free "," system) as Hfree.
    rewrite Forall_forall in Hfree. by apply Hfree.
Qed.

Lemma extract_collapsed {R} (include_ref : bool)
    (translations : list (string * R)) :
  extract_all_judgements include_ref false translations
  = (λ t, (replace_char "," "+" t.1, t.2))
      <$> filter (λ t, not_ref t.1 || include_ref) translations.
Proof.
  induction translations as [|[system rank_i] ts IH]; [done|].
  rewrite extract_all_judgements_cons, filter_cons, IH. cbn [fst snd].
  destruct (not_ref system || include_ref); [by rewrite decide_True|].
  by rewrite decide_False by (simpl; tauto).
Qed.

Lemma hd_split_cons (sep c : ascii) (s : string) :
  hd EmptyString (split sep (String c s))
  = if decide (c = sep) then EmptyString
    else String c (hd EmptyString (split sep s)).
Proof.
  cbn [split]. destruct (decide (c = sep)); [done|].
  pose proof (split_not_nil sep s). by destruct (split sep s).
Qed.

Lemma not_ref_false (x : string) :
  not_ref x = false ↔ ∃ rest, x = "ref" +:+ rest.
Proof.
  unfold not_ref. rewrite negb_false_iff, String.eqb_eq. split.
  - destruct x as [|c1 [|c2 [|c3 rest]]]; cbn; try discriminate.
    destruct rest; cbn; intros [= -> -> ->]; by eexists.
  - intros [rest ->]. by destruct rest.
Qed.

Lemma hd_split_prefix (sep : ascii) (s : string) :
  ∃ t, s = hd EmptyString (split sep s) +:+ t.
Proof.
  induction s as [|c s [t IH]]; [by exists EmptyString|].
  rewrite hd_split_cons. destruct (decide (c = sep)).
  - by exists (String c s).
  - exists t. rewrite append_cons. by rewrite <- IH.
Qed.

(** Whether a collapsed translation is a reference is decided by the first
    system of its group alone. *)
Lemma not_ref_first_member (system : string) :
  not_ref (hd EmptyString (split "," system)) = not_ref system.
Proof.
  destruct (not_ref system) eqn:Hs.
  - destruct (not_ref (hd EmptyString (split "," system))) eqn:Hh; [done|].
    apply not_ref_false in Hh as [w Hw].
    destruct (hd_split_prefix "," system) as [t Ht].
    rewrite Hw in Ht.
    assert (not_ref system = false); [|congruence].
    apply not_ref_false. exists (w +:+ t). by rewrite Ht.
  - apply not_ref_false in Hs as [rest ->].
    apply not_ref_false. exists (hd EmptyString (split "," rest)).
    change ("ref" +:+ rest)
      with (String "r" (String "e" (String "f" rest))).
    by rewrite !hd_split_cons.
Qed.

Lemma split_hd_elem (sep : ascii) (s : string) :
  hd EmptyString (split sep s) ∈ split sep s.
Proof.
  pose proof (split_not_nil sep s). destruct (split sep s); [done|by left].
Qed.

Lemma filter_all {A} (P : A → Prop) `{∀ x, Decision (P x)} (l : list A) :
  Forall P l → filter P l = l.
Proof.
  induction 1 as [|x l Hx _ IH]; [done|].
  by rewrite filter_cons, decide_True, IH.
Qed.

Lemma expand_of_collapsed {R} (include_ref : bool)
    (translations : list (string * R)) :
  Forall (λ t, in_str "+" t.1 = false
               ∧ (include_ref = true
                  ∨ Forall (λ n, not_ref n) (split "," t.1)))
         translations →
  extract_all_judgements include_ref true translations
  = extract_all_judgements include_ref false translations
      ≫= λ p, (λ n, (n, p.2)) <$> split "+" p.1.
Proof.
  induction 1 as [|[system rank_i] ts [Hplus Hkeep] _ IH]; [done|].
  cbn [fst snd] in *.
  rewrite !extract_all_judgements_cons, bind_app, <- IH. f_equal.
  rewrite expand_members.
  assert (Hall : Forall (λ n, not_ref n || include_ref) (split "," system)).
  { destruct Hkeep as [->|Hkeep].
    - apply Forall_forall. intros n _. by rewrite orb_true_r.
    - eapply Forall_impl; [exact Hkeep|]. intros n Hn. cbn in *.
      by destruct (not_ref n). }
  rewrite (filter_all _ _ Hall).
  assert (Hsys : not_ref system || include_ref = true).
  { rewrite <- not_ref_first_member.
    rewrite Forall_forall in Hall. apply Is_true_true.
    apply Hall, split_hd_elem. }
  rewrite Hsys. cbn [mbind list_bind fst snd]. rewrite app_nil_r.
  by rewrite split_replace_char.
Qed.

Lemma collapsed_names {R} (include_ref : bool)
    (translations : list (string * R)) :
  Forall (λ p, in_str "," p.1 = false)
         (extract_all_judgements include_ref false translations)
  ∧ (length (extract_all_judgements include_ref false translations)
     ≤ length translations)%nat.
Proof.
  rewrite extract_collapsed. split.
  - apply Forall_fmap, Forall_forall. intros t _. cbn.
    by apply in_str_replace_char.
  - rewrite length_fmap. apply length_filter.
Qed.

(** The agreement script reads a collapsed group as its sorted members. *)
Lemma clean_collapsed (system : string) :
  in_str "+" system = false →
  clean_label_system (replace_char "," "+" system)
  = join "+" (sort (split "," system)).
Proof.
  intros Hplus. unfold clean_label_system. by rewrite split_replace_char.
Qed.

(** ** The rows the converter writes *)

Lemma write_all_app {A B S} (f : S → A → list B * S) (st : S)
    (l1 l2 : list A) :
  write_all f st (l1 ++ l2)
  = ((write_all f st l1).1 ++ (write_all f (write_all f st l1).2 l2).1,
     (write_all f (write_all f st l1).2 l2).2).
Proof.
  revert st. induction l1 as [|x l1 IH]; intros st.
  - cbn. by destruct (write_all f st l2).
  - cbn [app write_all]. destruct (f st x) as [out st1]. rewrite IH.
    destruct (write_all f st1 l1) as [o1 s1]. cbn [fst snd].
    destruct (write_all f s1 l2) as [o2 s2]. cbn [fst snd].
    by rewrite app_assoc.
Qed.

Lemma write_all_bind {A A' B S} (f : S → A' → list B * S) (g : A → list A')
    (st : S) (l : list A) :
  write_all (λ st x, write_all f st (g x)) st l = write_all f st (l ≫= g).
Proof.
  revert st. induction l as [|x l IH]; intros st; [done|].
  rewrite bind_cons, write_all_app. cbn [write_all].
  destruct (write_all f st (g x)) as [o1 s1]. cbn [fst snd]. rewrite IH.
  by destruct (write_all f s1 (l ≫= g)).
Qed.

Lemma write_all_fmap {A A' B S} (f : S → A' → list B * S) (h : A → A')
    (st : S) (l : list A) :
  write_all (λ st x, f st (h x)) st l = write_all f st (h <$> l).
Proof.
  revert st. induction l as [|x l IH]; intros st; [done|].
  rewrite fmap_cons. cbn [write_all]. destruct (f st (h x)) as [o1 s1].
  by rewrite IH.
Qed.

Lemma write_all_ext {A B S} (f g : S → A → list B * S) (st : S)
    (l : list A) :
  (∀ st x, f st x = g st x) → write_all f st l = write_all g st l.
Proof.
  intros Hfg. revert st. induction l as [|x l IH]; intros st; [done|].
  cbn [write_all]. rewrite Hfg. destruct (g st x) as [o1 s1]. by rewrite IH.
Qed.

Lemma convert_task_flat {R} (include_ref expand : bool) (src trg : string)
    (st : converter_state) (ranking : ranking_task R) :
  convert_task include_ref expand src trg st ranking
  = write_all (λ st x, convert_result include_ref expand
                         x.1.1.1 x.1.1.2 x.1.2 st x.2)
              st ((λ result, (src, trg, task_id ranking, result))
                    <$> ranking_results ranking).
Proof.
  unfold convert_task. by rewrite <- write_all_fmap.
Qed.

Lemma convert_hit_flat {R} (include_ref expand : bool)
    (st : converter_state) (hit : HIT R) :
  convert_hit include_ref expand st hit
  = write_all (λ st x, convert_result include_ref expand
                         x.1.1.1 x.1.1.2 x.1.2 st x.2)
              st (ranking ← ranking_tasks hit;
                  (λ result, (source_language hit, target_language hit,
                              task_id ranking, result))
                    <$> ranking_results ranking).
Proof.
  unfold convert_hit. rewrite <- write_all_bind.
  apply write_all_ext. intros st' t. apply convert_task_flat.
Qed.

Lemma convert_flat {R} (include_ref expand : bool) (hits : list (HIT R)) :
  convert include_ref expand hits
  = (write_all (λ st x, convert_result include_ref expand
                          x.1.1.1 x.1.1.2 x.1.2 st x.2)
               (∅, 0%nat) (all_results hits)).1.
Proof.
  unfold convert, all_results. f_equal. rewrite <- write_all_bind.
  apply write_all_ext. intros st hit. apply convert_hit_flat.
Qed.

Lemma write_all_results {R} (include_ref expand : bool)
    (xs : list (string * string * Z * ranking_result R))
    (judges : gmap string string) (n : nat) :
  write_all (λ st x, convert_result include_ref expand
                       x.1.1.1 x.1.1.2 x.1.2 st x.2)
            (judges, n) xs
  = (mjoin (imap (λ k x, result_rows include_ref expand (n + k)
                           ((anonymize_all (result_users xs) judges).1 !!! k)
                           x) xs),
     ((anonymize_all (result_users xs) judges).2, (n + length xs)%nat)).
Proof.
  revert judges n. induction xs as [|x xs IH]; intros judges n.
  - cbn. by rewrite Nat.add_0_r.
  - cbn [write_all result_users fmap list_fmap anonymize_all].
    fold (result_users xs).
    unfold convert_result at 1. cbn [fst snd].
    destruct (anonymize_judge (user x.2) judges) as [alias judges1].
    rewrite IH.
    destruct (anonymize_all (result_users xs) judges1) as [aliases judges2].
    cbn [fst snd]. rewrite imap_cons. cbn [mjoin list_join length].
    f_equal; [|f_equal; lia]. f_equal.
    + unfold result_rows. by rewrite Nat.add_0_r.
    + f_equal. apply imap_ext. intros k x' _. cbn.
      by replace (n + S k)%nat with (S (n + k)) by lia.
Qed.

Lemma convert_rows {R} (include_ref expand : bool) (hits : list (HIT R)) :
  convert include_ref expand hits
  = mjoin (imap (λ k x, result_rows include_ref expand k
                          (result_aliases hits !!! k) x)
                (all_results hits)).
Proof.
  rewrite convert_flat, write_all_results. reflexivity.
Qed.

Lemma elem_of_convert {R} (include_ref expand : bool) (hits : list (HIT R))
    (c : csv_row R) :
  c ∈ convert include_ref expand hits
  ↔ ∃ k x p,
      all_results hits !! k = Some x
      ∧ p ∈ combinations_2
              (extract_all_judgements include_ref expand (translations x.2))
      ∧ c = CsvRow x.1.1.1 x.1.1.2 x.1.2 x.1.2
                   (result_aliases hits !!! k) (S k)
                   p.1.1 p.1.2 p.2.1 p.2.2.
Proof.
  rewrite convert_rows, list_elem_of_join. split.
  - intros (rows & Hc & Hrows).
    apply elem_of_lookup_imap in Hrows as (k & x & -> & Hx).
    unfold result_rows in Hc.
    apply list_elem_of_fmap in Hc as (p & -> & Hp). by exists k, x, p.
  - intros (k & x & p & Hx & Hp & ->).
    exists (result_rows include_ref expand k (result_aliases hits !!! k) x).
    split.
    + unfold result_rows. apply list_elem_of_fmap. by exists p.
    + by apply (elem_of_lookup_imap_2
                  (λ k x, result_rows include_ref expand k
                            (result_aliases hits !!! k) x)).
Qed.

Lemma result_aliases_spec {R} (hits : list (HIT R)) :
  length (result_aliases hits) = length (all_results hits)
  ∧ (∀ k x, all_results hits !! k = Some x →
       ∃ m, (1 ≤ m ≤ size (list_to_set (result_users (all_results hits))
                             : gset string))%nat
            ∧ result_aliases hits !!! k = "judge" +:+ pretty m)
  ∧ (∀ k1 k2 x1 x2,
       all_results hits !! k1 = Some x1 → all_results hits !! k2 = Some x2 →
       (result_aliases hits !!! k1 = result_aliases hits !!! k2
        ↔ user x1.2 = user x2.2)).
Proof.
  unfold result_aliases.
  pose proof (anonymize_all_spec (result_users (all_results hits))) as H.
  destruct (anonymize_all (result_users (all_results hits)) ∅)
    as [aliases judges]. cbn [fst].
  destruct H as (Hlen & _ & Hform & Hiff).
  assert (Hlen' : length aliases = length (all_results hits))
    by (by rewrite Hlen; unfold result_users; rewrite length_fmap).
  assert (Hlook : ∀ k x, all_results hits !! k = Some x →
            aliases !! k = Some (aliases !!! k)
            ∧ result_users (all_results hits) !! k = Some (user x.2)).
  { intros k x Hx. split.
    - apply list_lookup_lookup_total_lt. rewrite Hlen'.
      by eapply lookup_lt_Some.
    - unfold result_users. by rewrite list_lookup_fmap, Hx. }
  split; [done|]. split.
  - intros k x Hx. destruct (Hlook k x Hx) as [Ha _]. by eapply Hform.
  - intros k1 k2 x1 x2 H1 H2.
    destruct (Hlook k1 x1 H1) as [Ha1 Hu1].
    destruct (Hlook k2 x2 H2) as [Ha2 Hu2].
    by apply (Hiff k1 k2).
Qed.

Lemma ranking_decisions_pair (src trg : string) (seg : Z) (judge : string)
    (x y : string) (ra rb : Z) :
  ranking_decisions (row_of_slots src trg seg judge [(x, ra); (y, rb)])
  = if bool_decide (ra = -1 ∨ rb = -1) then []
    else [(judge, item_id seg x y, ranking_label x y ra rb)].
Proof.
  unfold ranking_decisions.
  change (slots (row_of_slots src trg seg judge [(x, ra); (y, rb)]))
    with [(x, ra); (y, rb)].
  cbn [fmap list_fmap fst snd length]. rewrite bool_decide_false by lia.
  cbn [seq combinations_2 fmap list_fmap app mbind list_bind].
  unfold ranking_decision.
  cbn [lookup_total list_lookup_total fst snd srcIndex judgeId row_of_slots].
  by case_bool_decide.
Qed.

(** ** From the export to the judgements *)

Lemma ranking_decisions_csv (c : csv_row Z) :
  ranking_decisions (row_of_csv c)
  = if bool_decide (csv_system1rank c = -1 ∨ csv_system2rank c = -1) then []
    else [(csv_judgeID c,
           item_id (csv_srcIndex c) (csv_system1Id c) (csv_system2Id c),
           ranking_label (csv_system1Id c) (csv_system2Id c)
                         (csv_system1rank c) (csv_system2rank c))].
Proof. apply ranking_decisions_pair. Qed.

Lemma elem_of_export_judgements (include_ref expand : bool)
    (hits : list (HIT Z)) (j : judgement) :
  j ∈ (convert include_ref expand hits
         ≫= λ c, ranking_decisions (row_of_csv c))
  ↔ ∃ k x p,
      all_results hits !! k = Some x
      ∧ p ∈ combinations_2
              (extract_all_judgements include_ref expand (translations x.2))
      ∧ p.1.2 ≠ -1 ∧ p.2.2 ≠ -1
      ∧ j = (result_aliases hits !!! k,
             item_id x.1.2 p.1.1 p.2.1,
             ranking_label p.1.1 p.2.1 p.1.2 p.2.2).
Proof.
  rewrite list_elem_of_bind. split.
  - intros (c & Hj & Hc). apply elem_of_convert in Hc as (k & x & p & Hx & Hp & ->).
    rewrite ranking_decisions_csv in Hj. cbn in Hj.
    case_bool_decide as Hskip; [by apply elem_of_nil in Hj|].
    apply list_elem_of_singleton in Hj. exists k, x, p.
    repeat split; try done; intros ?; apply Hskip; tauto.
  - intros (k & x & p & Hx & Hp & H1 & H2 & ->).
    exists (CsvRow x.1.1.1 x.1.1.2 x.1.2 x.1.2 (result_aliases hits !!! k)
                   (S k) p.1.1 p.1.2 p.2.1 p.2.2).
    split.
    + rewrite ranking_decisions_csv. cbn.
      rewrite bool_decide_false by tauto. by apply list_elem_of_singleton.
    + apply elem_of_convert. by exists k, x, p.
Qed.

(** * Further theorems *)

(** X1.  On well-typed judgements the aggregator returns the sum, over the
    distinct items of the data, of the counts of each item's labels:
    labels of different items are never paired. *)
Theorem compute_agreement_scores_by_item (data : list judgement) :
  ∃ items,
    NoDup items
    ∧ (∀ i, i ∈ items ↔ ∃ j, j ∈ data ∧ j.1.2 = i)
    ∧ compute_agreement_scores (py_of_judgement <$> data)
      = Returned (RetCounts
          (foldl (λ a i, add_counts a (group_counts (item_labels data i)))
                 (Counts 0 0 0 0) items)).
Proof. apply aggregate_by_item. Qed.

(** X2.  On well-typed judgements the aggregator returns a tuple of valid
    counts whose [ties_total] is the number of judgements and whose
    [ties_cnt] is the number of labels containing ['=']: the items matter
    for the pairs only. *)
Theorem compute_agreement_scores_totals (data : list judgement) :
  ∃ c,
    compute_agreement_scores (py_of_judgement <$> data)
    = Returned (RetCounts c)
    ∧ ties_total c = Z.of_nat (length data)
    ∧ ties_cnt c = Z.of_nat (length (filter is_tie data.*2))
    ∧ valid_counts c.
Proof. apply aggregate_totals. Qed.

(** X3.  The counts do not depend on the order of the judgements. *)
Theorem compute_agreement_scores_order (data data' : list judgement) :
  data ≡ₚ data' →
  compute_agreement_scores (py_of_judgement <$> data)
  = compute_agreement_scores (py_of_judgement <$> data').
Proof. apply aggregate_perm. Qed.

Lemma compute_agreement_scores_order_witness :
  compute_agreement_scores
    (py_of_judgement <$> [("c1", "i", "x>y"); ("c2", "i", "y<x")])
  = compute_agreement_scores
      (py_of_judgement <$> [("c2", "i", "y<x"); ("c1", "i", "x>y")]).
Proof.
  apply (compute_agreement_scores_order
           [("c1", "i", "x>y"); ("c2", "i", "y<x")]
           [("c2", "i", "y<x"); ("c1", "i", "x>y")]).
  apply Permutation_swap.
Defined.

(** X4.  Two labels over the same two tie groups pass the comparability
    test of line 104 whatever their separators, the order of the two
    groups and the order of the ids inside each group. *)
Theorem tie_groups_comparable (sep sep' : ascii)
    (g1 g1' g2 g2' : list string) :
  sep ∈ separators → sep' ∈ separators →
  tie_group g1 → tie_group g2 → g1 ≡ₚ g1' → g2 ≡ₚ g2' →
  set_eqb
    (extract_system_ids_from_label
       (join "+" g1 +:+ String sep (join "+" g2)))
    (extract_system_ids_from_label
       (join "+" g2' +:+ String sep' (join "+" g1')))
  = true.
Proof.
  intros. apply bool_decide_eq_true.
  by apply (tie_groups_comparable_aux sep sep' g1 g1' g2 g2').
Qed.

Lemma tie_groups_comparable_witness :
  set_eqb
    (extract_system_ids_from_label
       (join "+" ["sysB"; "sysA"] +:+ String ">" (join "+" ["sysC"])))
    (extract_system_ids_from_label
       (join "+" ["sysC"] +:+ String "<" (join "+" ["sysA"; "sysB"])))
  = true.
Proof.
  apply (tie_groups_comparable ">" "<" ["sysB"; "sysA"] ["sysA"; "sysB"]
           ["sysC"] ["sysC"]).
  - solve_separator.
  - solve_separator.
  - split; [done|]. repeat constructor.
  - split; [done|]. repeat constructor.
  - apply Permutation_swap.
  - reflexivity.
Defined.

(** X5.  Two rows of one segment that list the same two systems in the
    same order, with ids free of separators and no skipped rank, give one
    comparable pair; it is identical exactly when the two judges ordered
    the systems the same way, and each tied ranking counts as one tie. *)
Theorem same_slots_compared (src trg : string) (seg : Z)
    (c1 c2 x y : string) (ra rb rc rd : Z) :
  separator_free x → separator_free y →
  ra ≠ -1 → rb ≠ -1 → rc ≠ -1 → rd ≠ -1 →
  compute_agreement_scores
    (py_of_judgement <$>
       (ranking_decisions (row_of_slots src trg seg c1 [(x, ra); (y, rb)])
        ++ ranking_decisions (row_of_slots src trg seg c2 [(x, rc); (y, rd)])))
  = Returned (RetCounts (Counts
      (if decide ((ra ?= rb) = (rc ?= rd)) then 1 else 0)
      1
      ((if decide (ra = rb) then 1 else 0) + (if decide (rc = rd) then 1 else 0))
      2)).
Proof. apply same_slots_counts. Qed.

Lemma same_slots_compared_witness :
  compute_agreement_scores
    (py_of_judgement <$>
       (ranking_decisions
          (row_of_slots "ces" "eng" 1 "A" [("sys1", 1); ("sys2", 2)])
        ++ ranking_decisions
             (row_of_slots "ces" "eng" 1 "B" [("sys1", 2); ("sys2", 1)])))
  = Returned (RetCounts (Counts
      (if decide ((1 ?= 2) = (2 ?= 1)) then 1 else 0)
      1
      ((if decide (1 = 2) then 1 else 0) + (if decide (2 = 1) then 1 else 0))
      2)).
Proof.
  apply (same_slots_compared "ces" "eng" 1 "A" "B" "sys1" "sys2" 1 2 2 1);
    try (by repeat constructor); lia.
Defined.

(** X6.  Two rows of one segment that list the same two different systems
    in opposite order, with ids free of ['.'] and no skipped rank, carry
    different item ids: their judgements are never paired, so they add
    nothing to [comparable] and [identical]. *)
Theorem opposite_slots_not_compared (src trg : string) (seg : Z)
    (c1 c2 x y : string) (ra rb rc rd : Z) :
  x ≠ y → dot_free x → dot_free y →
  ra ≠ -1 → rb ≠ -1 → rc ≠ -1 → rd ≠ -1 →
  item_id seg x y ≠ item_id seg y x
  ∧ compute_agreement_scores
      (py_of_judgement <$>
         (ranking_decisions (row_of_slots src trg seg c1 [(x, ra); (y, rb)])
          ++ ranking_decisions
               (row_of_slots src trg seg c2 [(y, rc); (x, rd)])))
    = Returned (RetCounts (Counts 0 0
        (Z.of_nat (length (filter is_tie
           [ranking_label x y ra rb; ranking_label y x rc rd])))
        2)).
Proof.
  intros Hxy Hx Hy ????. split; [|by apply opposite_slots_counts].
  intros Heq. by apply item_id_inj in Heq as (_ & ? & _).
Qed.

Lemma opposite_slots_not_compared_witness :
  item_id 1 "sys1" "sys2" ≠ item_id 1 "sys2" "sys1"
  ∧ compute_agreement_scores
      (py_of_judgement <$>
         (ranking_decisions
            (row_of_slots "ces" "eng" 1 "A" [("sys1", 1); ("sys2", 2)])
          ++ ranking_decisions
               (row_of_slots "ces" "eng" 1 "B" [("sys2", 2); ("sys1", 1)])))
    = Returned (RetCounts (Counts 0 0
        (Z.of_nat (length (filter is_tie
           [ranking_label "sys1" "sys2" 1 2; ranking_label "sys2" "sys1" 2 1])))
        2)).
Proof.
  apply (opposite_slots_not_compared "ces" "eng" 1 "A" "B" "sys1" "sys2"
           1 2 2 1); try done; lia.
Defined.

(** X7.  The sums of lines 259-266: over tuples of counts they are the
    componentwise totals; they raise [TypeError] exactly when the
    aggregator returned [None] for some unit of work; and they do not
    depend on the order in which the callbacks appended the scores. *)
Theorem sum_scores_spec :
  (∀ cs, sum_scores (RetCounts <$> cs)
         = Returned (foldr add_counts (Counts 0 0 0 0) cs))
  ∧ (∀ scores, (∃ e, RetNone e ∈ scores)
               ↔ sum_scores scores = Raised TypeError)
  ∧ (∀ scores scores', scores ≡ₚ scores' →
                       sum_scores scores = sum_scores scores').
Proof.
  split; [apply sum_scores_counts|].
  split; [apply sum_scores_none|apply sum_scores_perm].
Qed.

(** X8.  The [--inter] branch is tested first: with [--inter] the flag
    [--intra] changes nothing, a run with neither flag is the run with
    [--inter] alone, and with [--inter] every stored segment contributes
    exactly one score. *)
Theorem inter_takes_precedence (rows : list row) (b : bool) :
  main (Arguments_ true b) rows = main (Arguments_ true false) rows
  ∧ main (Arguments_ false false) rows = main (Arguments_ true false) rows
  ∧ (∀ segments_data,
       length (collect_scores (Arguments_ true b) segments_data)
       = size segments_data).
Proof.
  split; [|split].
  - unfold main.
    replace (default_mode (Arguments_ true b)) with (Arguments_ true b)
      by (by destruct b).
    apply report_args_ext. intros js.
    by rewrite !segment_units_inter.
  - reflexivity.
  - intros. by apply length_collect_scores_inter.
Qed.

(** X9.  A results file in which every row has fewer than two systems or
    only skipped ranks ([-1]) yields no judgement: the script prints no
    line and ends without an exception. *)
Theorem rows_without_judgements (args : arguments) (rows : list row) :
  Forall (λ r, (length (slots r) < 2)%nat ∨ Forall (λ s, s.2 = -1) (slots r))
         rows →
  main args rows = ([], None).
Proof. apply main_no_decisions. Qed.

Lemma rows_without_judgements_witness :
  main (Arguments_ false true)
       [row_of_slots "ces" "eng" 1 "A" [("sys1", 1)];
        row_of_slots "deu" "eng" 2 "B" [("sys1", -1); ("sys2", -1)]]
  = ([], None).
Proof.
  apply (rows_without_judgements (Arguments_ false true)
           [row_of_slots "ces" "eng" 1 "A" [("sys1", 1)];
            row_of_slots "deu" "eng" 2 "B" [("sys1", -1); ("sys2", -1)]]).
  constructor; [left; vm_compute; lia|].
  constructor; [right; vm_compute; repeat constructor|].
  constructor.
Defined.

(** X10.  After the loop over the rows, [results_data] holds for a
    language pair and a segment exactly the judgements of the rows of that
    pair and segment, in the order of the file, and no entry when there is
    none. *)
Theorem read_results_segments (rows : list row) (lp : string) (seg : Z) :
  stored (read_results rows) lp seg
  = match segment_judgements rows lp seg with
    | [] => None
    | js => Some js
    end.
Proof. apply read_results_stored. Qed.

(** X11.  A row is read for at most [MAX_NUMBER_OF_SYSTEMS = 5] systems
    and gives at most ten judgements; when no rank is skipped it gives one
    judgement for each of the [n (n - 1) / 2] pairs of its [n] systems. *)
Theorem ranking_decisions_at_most_ten (r : row) :
  (length (slots r) ≤ 5)%nat
  ∧ (length (ranking_decisions r) ≤ 10)%nat
  ∧ (Forall (λ s, s.2 ≠ -1) (slots r) →
     (2 * length (ranking_decisions r)
      = length (slots r) * (length (slots r) - 1))%nat).
Proof. split; [apply length_slots|apply ranking_decisions_bound]. Qed.

(** X12.  Every line the script prints has [0 <= pA <= 1],
    [1/3 <= pE < 1] and [kappa <= 1], with [kappa = 1] exactly when all
    comparable pairs are identical. *)
Theorem printed_line_bounds (args : arguments)
    (d : gmap string (gmap Z (list judgement))) (lp : string)
    (line : result_line) :
  process_language_pair args d lp = Returned (Some line) →
  (0 <= line_pA line <= 1)%Q
  ∧ (1 # 3 <= line_pE line)%Q ∧ (line_pE line < 1)%Q
  ∧ (line_kappa line <= 1)%Q
  ∧ ((line_kappa line == 1)%Q
     ↔ identical_cnt (line_scores line) = comparable_cnt (line_scores line)).
Proof. apply line_bounds. Qed.

Lemma printed_line_bounds_witness :
  let line := ResultLine "German-English" (1 # 1) (512 # 1024)
                         (524288 # 524288) (Counts 1 1 0 2) in
  (0 <= line_pA line <= 1)%Q
  ∧ (1 # 3 <= line_pE line)%Q ∧ (line_pE line < 1)%Q
  ∧ (line_kappa line <= 1)%Q
  ∧ ((line_kappa line == 1)%Q
     ↔ identical_cnt (line_scores line) = comparable_cnt (line_scores line)).
Proof.
  apply (printed_line_bounds (Arguments_ true false)
           (read_results agreeing_rows) "German-English").
  vm_compute. reflexivity.
Defined.

(** X13.  Unless [--intra] is given without [--inter], the run ends in a
    [ZeroDivisionError] exactly when some reported language pair has
    judgements that are all ties, and ends without an exception exactly
    when there is no such pair. *)
Theorem main_exception (args : arguments) (rows : list row) :
  intra_annotator_agreement args = false
  ∨ inter_annotator_agreement args = true →
  ((main args rows).2 = Some ZeroDivisionError
   ↔ ∃ lp, lp ∈ language_pairs ∧ all_ties rows lp)
  ∧ ((main args rows).2 = None
     ↔ ¬ ∃ lp, lp ∈ language_pairs ∧ all_ties rows lp).
Proof. apply main_exception_inter. Qed.

Lemma main_exception_witness :
  ((main (Arguments_ false false) tied_rows).2 = Some ZeroDivisionError
   ↔ ∃ lp, lp ∈ language_pairs ∧ all_ties tied_rows lp)
  ∧ ((main (Arguments_ false false) tied_rows).2 = None
     ↔ ¬ ∃ lp, lp ∈ language_pairs ∧ all_ties tied_rows lp).
Proof.
  apply (main_exception (Arguments_ false false) tied_rows).
  left. reflexivity.
Defined.

(** X14.  Calling [anonymize_judge] on a sequence of judge ids, starting
    from the empty dictionary, gives one alias per call; the dictionary
    ends with one entry per distinct id; every alias is [judgeK] with [K]
    between 1 and the number of distinct ids; and two calls give the same
    alias exactly when they were made with the same id. *)
Theorem anonymize_judge_aliases (ids : list string) :
  length (anonymize_all ids ∅).1 = length ids
  ∧ size (anonymize_all ids ∅).2 = size (list_to_set ids : gset string)
  ∧ (∀ i alias, (anonymize_all ids ∅).1 !! i = Some alias →
       ∃ k, (1 ≤ k ≤ size (list_to_set ids : gset string))%nat
            ∧ alias = "judge" +:+ pretty k)
  ∧ (∀ i j idi idj ai aj,
       ids !! i = Some idi → ids !! j = Some idj →
       (anonymize_all ids ∅).1 !! i = Some ai →
       (anonymize_all ids ∅).1 !! j = Some aj →
       (ai = aj ↔ idi = idj)).
Proof.
  pose proof (anonymize_all_spec ids) as H.
  by destruct (anonymize_all ids ∅).
Qed.

(** X15.  With [expand_multi_systems] every entry is split at [','] and
    each member kept gets the rank of the entry; members starting with
    [ref] are dropped unless references are included.  Without references
    no name returned starts with [ref] or contains [',']. *)
Theorem extract_all_judgements_expanded {R} (include_ref : bool)
    (translations : list (string * R)) :
  extract_all_judgements include_ref true translations
  = (t ← translations;
     (λ n, (n, t.2)) <$> filter (λ n, not_ref n || include_ref)
                                (split "," t.1))
  ∧ Forall (λ p, not_ref p.1 ∧ in_str "," p.1 = false)
           (extract_all_judgements false true translations).
Proof. split; [apply extract_expanded|apply extract_expanded_names]. Qed.

(** X16.  Without [expand_multi_systems] an entry is kept, with [','] turned
    into ['+'], when its name does not start with [ref] or references are
    included: only the first member of a multi-system entry is tested.
    No name returned contains [','], and the name of an entry free of
    ['+'] is read by the agreement script as the sorted members joined by
    ['+']. *)
Theorem extract_all_judgements_collapsed {R} (include_ref : bool)
    (translations : list (string * R)) :
  extract_all_judgements include_ref false translations
  = (λ t, (replace_char "," "+" t.1, t.2))
      <$> filter (λ t, not_ref (hd EmptyString (split "," t.1)) || include_ref)
                 translations
  ∧ Forall (λ p, in_str "," p.1 = false)
           (extract_all_judgements include_ref false translations)
  ∧ (length (extract_all_judgements include_ref false translations)
     ≤ length translations)%nat
  ∧ (∀ system, in_str "+" system = false →
       clean_label_system (replace_char "," "+" system)
       = join "+" (sort (split "," system))).
Proof.
  split; [|split; [apply collapsed_names|split; [apply collapsed_names|]]].
  - rewrite extract_collapsed. f_equal.
    apply list_filter_iff. intros t. by rewrite not_ref_first_member.
  - apply clean_collapsed.
Qed.

(** X17.  When no name contains ['+'] and, unless references are
    included, no member starts with [ref], the expanded judgements are
    those of the collapsed ones split again at ['+']. *)
Theorem expanded_from_collapsed {R} (include_ref : bool)
    (translations : list (string * R)) :
  Forall (λ t, in_str "+" t.1 = false
               ∧ (include_ref = true
                  ∨ Forall (λ n, not_ref n) (split "," t.1)))
         translations →
  extract_all_judgements include_ref true translations
  = extract_all_judgements include_ref false translations
      ≫= λ p, (λ n, (n, p.2)) <$> split "+" p.1.
Proof. apply expand_of_collapsed. Qed.

Lemma expanded_from_collapsed_witness :
  extract_all_judgements false true [("sysA,sysB", 1); ("sysC", 2)]
  = extract_all_judgements false false [("sysA,sysB", 1); ("sysC", 2)]
      ≫= λ p, (λ n, (n, p.2)) <$> split "+" p.1.
Proof.
  apply (expanded_from_collapsed false [("sysA,sysB", 1); ("sysC", 2)]).
  constructor; [split; [reflexivity|right; vm_compute; repeat constructor]|].
  constructor; [split; [reflexivity|right; vm_compute; repeat constructor]|].
  constructor.
Defined.

(** X18.  The rows written are exactly, for the [k]-th ranking result
    visited and each pair of its extracted judgements, the row with the
    languages of the HIT, the task id as [srcIndex] and [segmentId], the
    alias of the judge and [rankingID = k + 1].  The aliases are [judgeM]
    with [M] at most the number of distinct users, and two results have
    the same alias exactly when they have the same user. *)
Theorem convert_spec {R} (include_ref expand : bool) (hits : list (HIT R)) :
  (∀ c, c ∈ convert include_ref expand hits
        ↔ ∃ k x p,
            all_results hits !! k = Some x
            ∧ p ∈ combinations_2
                    (extract_all_judgements include_ref expand
                                            (translations x.2))
            ∧ c = CsvRow x.1.1.1 x.1.1.2 x.1.2 x.1.2
                         (result_aliases hits !!! k) (S k)
                         p.1.1 p.1.2 p.2.1 p.2.2)
  ∧ length (result_aliases hits) = length (all_results hits)
  ∧ (∀ k x, all_results hits !! k = Some x →
       ∃ m, (1 ≤ m ≤ size (list_to_set (result_users (all_results hits))
                             : gset string))%nat
            ∧ result_aliases hits !!! k = "judge" +:+ pretty m)
  ∧ (∀ k1 k2 x1 x2,
       all_results hits !! k1 = Some x1 → all_results hits !! k2 = Some x2 →
       (result_aliases hits !!! k1 = result_aliases hits !!! k2
        ↔ user x1.2 = user x2.2)).
Proof.
  split; [intros c; apply elem_of_convert|apply result_aliases_spec].
Qed.

(** X19.  The judgements the agreement script reads from the rows the
    converter writes are exactly those of the pairs of extracted
    judgements with no skipped rank: the coder is the alias of the judge,
    the item is made of the task id and the two system names, and the
    label compares the two ranks. *)
Theorem export_judgements (include_ref expand : bool)
    (hits : list (HIT Z)) (j : judgement) :
  j ∈ (convert include_ref expand hits
         ≫= λ c, ranking_decisions (row_of_csv c))
  ↔ ∃ k x p,
      all_results hits !! k = Some x
      ∧ p ∈ combinations_2
              (extract_all_judgements include_ref expand (translations x.2))
      ∧ p.1.2 ≠ -1 ∧ p.2.2 ≠ -1
      ∧ j = (result_aliases hits !!! k,
             item_id x.1.2 p.1.1 p.2.1,
             ranking_label p.1.1 p.2.1 p.1.2 p.2.2).
Proof. apply elem_of_export_judgements. Qed.

(** X20.  [rankingID] groups the rows of one ranking result: it lies
    between 1 and the number of results, [segmentId] repeats [srcIndex],
    and two written rows with the same [rankingID] have the same
    languages, the same [srcIndex] and the same judge. *)
Theorem rankingID_groups {R} (include_ref expand : bool)
    (hits : list (HIT R)) (c1 c2 : csv_row R) :
  c1 ∈ convert include_ref expand hits →
  c2 ∈ convert include_ref expand hits →
  (1 ≤ csv_rankingID c1 ≤ length (all_results hits))%nat
  ∧ csv_segmentId c1 = csv_srcIndex c1
  ∧ (csv_rankingID c1 = csv_rankingID c2 →
     csv_srclang c1 = csv_srclang c2
     ∧ csv_trglang c1 = csv_trglang c2
     ∧ csv_srcIndex c1 = csv_srcIndex c2
     ∧ csv_judgeID c1 = csv_judgeID c2).
Proof.
  intros (k1 & x1 & p1 & Hx1 & _ & ->)%elem_of_convert
         (k2 & x2 & p2 & Hx2 & _ & ->)%elem_of_convert.
  cbn. split; [|split; [done|]].
  - apply lookup_lt_Some in Hx1. lia.
  - intros [= <-]. by simplify_eq.
Qed.

Lemma rankingID_groups_witness :
  let hits :=
    [Hit "deu" "eng"
       [RankingTask 7
          [RankingResult "anna" [("sysA,ref", 1); ("sysB", 2); ("sysC", 2)];
           RankingResult "bob" [("sysB", 1); ("sysA", 1)]]]] in
  let c1 := CsvRow "deu" "eng" 7 7 "judge1" 1%nat "sysA" 1 "sysB" 2 in
  let c2 := CsvRow "deu" "eng" 7 7 "judge1" 1%nat "sysB" 2 "sysC" 2 in
  (1 ≤ csv_rankingID c1 ≤ length (all_results hits))%nat
  ∧ csv_segmentId c1 = csv_srcIndex c1
  ∧ (csv_rankingID c1 = csv_rankingID c2 →
     csv_srclang c1 = csv_srclang c2
     ∧ csv_trglang c1 = csv_trglang c2
     ∧ csv_srcIndex c1 = csv_srcIndex c2
     ∧ csv_judgeID c1 = csv_judgeID c2).
Proof.
  apply (rankingID_groups false true).
  - apply list_elem_of_In. vm_compute. tauto.
  - apply list_elem_of_In. vm_compute. tauto.
Defined.
